(** * Voice-notes application: the recording pipeline of [App.tsx]

    A shallow embedding of the recording pipeline ([startRecording],
    [stopRecording], [processRecording]), of the dictionary substitution it
    performs with [new RegExp] and [String.prototype.replace], and of the
    store operations on the in-memory collections, for the two variants of
    the component: the one whose dictionary entries carry a replacement,
    and the one whose entries are preferred words passed to the prompt.

    JavaScript strings are sequences of code units; a text is modelled as
    a [list ascii], each element standing for the code unit of the same
    number (0..255). *)

From Stdlib Require Import String Ascii NArith ZArith Lia Bool Arith List.
From Stdlib Require Import Permutation DecimalString DecimalZ DecimalPos.
Import ListNotations.
Open Scope list_scope.
Open Scope bool_scope.

Abbreviation text := (list ascii) (only parsing).

Definition str (s : string) : text := list_ascii_of_string s.

(** ** Code units *)

Module CodeUnit.

Definition code (c : ascii) : N := N_of_ascii c.

Definition between (lo hi n : N) : bool := ((lo <=? n) && (n <=? hi))%N.

Definition isDigit (c : ascii) : bool := between 48 57 (code c).

(** [IsWordChar] without the [u] flag: the 63 characters [A-Za-z0-9_]. *)
Definition isWordChar (c : ascii) : bool :=
  between 97 122 (code c) || between 65 90 (code c)
  || between 48 57 (code c) || (code c =? 95)%N.

(** White space and line terminators below 256: TAB, LF, VT, FF, CR, SP, NBSP. *)
Definition isSpace (c : ascii) : bool :=
  between 9 13 (code c) || (code c =? 32)%N || (code c =? 160)%N.

Definition isLineTerminator (c : ascii) : bool :=
  (code c =? 10)%N || (code c =? 13)%N.

(** [Canonicalize] for an ignore-case, non-unicode pattern: the upper-case
    mapping when it is a single code unit, except that a code unit of 128
    or more never maps below 128.  The micro sign and y-diaeresis map
    outside the first 256 code units; sharp s has a two-unit upper case and
    stays. *)
Definition canonicalize (c : ascii) : N :=
  let n := code c in
  if between 97 122 n then (n - 32)%N
  else if (n =? 181)%N then 924%N
  else if (n =? 255)%N then 376%N
  else if between 224 254 n && negb (n =? 247)%N then (n - 32)%N
  else n.

Definition sameCI (a b : ascii) : bool := (canonicalize a =? canonicalize b)%N.

End CodeUnit.
Import CodeUnit.

(** ** Regular expressions: the modelled fragment of the pattern language *)

Inductive class_kind := KDigit | KWord | KSpace.

Inductive regex :=
| Empty
| Char (c : ascii)
| Dot
| Class (k : class_kind) (negated : bool)
| Bol
| Eol
| WordB (negated : bool)
| Seq (a b : regex)
| Alt (a b : regex)
| Group (capturing : bool) (a : regex)
| Repeat (min : nat) (max : option nat) (greedy : bool) (a : regex).

(** A matcher state: the input split at [endIndex], the part before it
    reversed. *)
Abbreviation State := (list ascii * list ascii)%type (only parsing).

Definition endIndex (x : State) : nat := length (fst x).

(** [IsWordChar] at the character next to a position: false at either end
    of the input. *)
Definition startsWord (s : text) : bool :=
  match s with
  | c :: _ => isWordChar c
  | [] => false
  end.

Definition wordBefore (x : State) : bool := startsWord (fst x).

Definition wordAfter (x : State) : bool := startsWord (snd x).

Definition inClass (k : class_kind) (c : ascii) : bool :=
  match k with
  | KDigit => isDigit c
  | KWord => isWordChar c
  | KSpace => isSpace c
  end.

(** One character consumed when [p] accepts it. *)
Definition charSetMatcher (p : ascii -> bool) (x : State) : list State :=
  match snd x with
  | [] => []
  | ch :: rest => if p ch then [(ch :: fst x, rest)] else []
  end.

(** [RepeatMatcher]: the results in backtracking order.  An iteration that
    consumes nothing once [min] is reached is rejected, so every further
    iteration shortens the input: [fuel] bounds the iterations. *)
Fixpoint repeatMatcher (m : State -> list State) (fuel min : nat)
    (max : option nat) (greedy : bool) (x : State) : list State :=
  match fuel with
  | 0 => []
  | S fuel' =>
    match max with
    | Some 0 => [x]
    | _ =>
      let d (y : State) :=
        if (min =? 0) && (endIndex y =? endIndex x) then []
        else repeatMatcher m fuel' (pred min) (option_map pred max) greedy y in
      let iter := flat_map d (m x) in
      match min with
      | S _ => iter
      | 0 => if greedy then iter ++ [x] else x :: iter
      end
    end
  end.

(** The end states of every way [r] matches at [x], in the order the
    backtracking matcher tries them (flags [gi]: ignore case, no multiline,
    no dotAll, no unicode). *)
Fixpoint matchR (r : regex) (x : State) : list State :=
  match r with
  | Empty => [x]
  | Char c => charSetMatcher (sameCI c) x
  | Dot => charSetMatcher (fun ch => negb (isLineTerminator ch)) x
  | Class k neg => charSetMatcher (fun ch => xorb neg (inClass k ch)) x
  | Bol => match fst x with [] => [x] | _ => [] end
  | Eol => match snd x with [] => [x] | _ => [] end
  | WordB neg =>
      if xorb neg (xorb (wordBefore x) (wordAfter x)) then [x] else []
  | Seq a b => flat_map (matchR b) (matchR a x)
  | Alt a b => matchR a x ++ matchR b x
  | Group _ a => matchR a x
  | Repeat min max greedy a =>
      repeatMatcher (matchR a) (S (min + length (snd x))) min max greedy x
  end.

Fixpoint countGroups (r : regex) : nat :=
  match r with
  | Seq a b | Alt a b => countGroups a + countGroups b
  | Group cap a => (if cap then 1 else 0) + countGroups a
  | Repeat _ _ _ a => countGroups a
  | _ => 0
  end.

(** ** [new RegExp(pattern, 'gi')]: parsing the pattern

    Constructs outside the modelled fragment (character classes in
    brackets, look-around, named groups, back-references, hexadecimal,
    unicode and control escapes) give [Unsupported]; the patterns the
    engine rejects give [SyntaxError]. *)

Inductive parse_result :=
| Parsed (r : regex)
| SyntaxError (msg : string)
| Unsupported.

Module Parser.

(** A group being read: the alternatives completed so far and the terms of
    the current alternative, both most recent first. *)
Record frame := mkFrame {
  capturing : bool;
  alts : list regex;
  terms : list regex
}.

Definition newFrame (cap : bool) : frame := mkFrame cap [] [].

Definition pushTerm (t : regex) (f : frame) : frame :=
  mkFrame (capturing f) (alts f) (t :: terms f).

Definition seqOf (ts : list regex) : regex := fold_right Seq Empty ts.

Fixpoint disjOf (first : regex) (others : list regex) : regex :=
  match others with
  | [] => first
  | a :: more => Alt first (disjOf a more)
  end.

Definition nextAlt (f : frame) : frame :=
  mkFrame (capturing f) (seqOf (rev (terms f)) :: alts f) [].

Definition close (f : frame) : regex :=
  match rev (seqOf (rev (terms f)) :: alts f) with
  | [] => Empty
  | a :: more => disjOf a more
  end.

(** The characters the pattern reader dispatches on; every other character
    is a pattern character standing for itself. *)
Definition isSyntaxChar (c : ascii) : bool :=
  existsb (Ascii.eqb c) (str "^$\.*+?()[|{").

Definition quantifiable (t : regex) : bool :=
  match t with
  | Char _ | Dot | Class _ _ | Group _ _ => true
  | _ => false
  end.

Fixpoint digitsValue (acc : nat) (ds : text) : nat :=
  match ds with
  | [] => acc
  | d :: ds' => digitsValue (10 * acc + (N.to_nat (code d) - 48)) ds'
  end.

(** The longest prefix of decimal digits, and what follows it. *)
Fixpoint spanDigits (p : text) : text * text :=
  match p with
  | d :: p' =>
      if isDigit d then let (ds, rest) := spanDigits p' in (d :: ds, rest)
      else ([], p)
  | [] => ([], [])
  end.

(** After an opening brace: [n}], [n,}] or [n,m}]. *)
Definition bracedQuantifier (p : text) : option (nat * option nat * text) :=
  match spanDigits p with
  | ([], _) => None
  | (ds, rest) =>
      let n := digitsValue 0 ds in
      match rest with
      | "}"%char :: rest' => Some (n, Some n, rest')
      | ","%char :: "}"%char :: rest' => Some (n, None, rest')
      | ","%char :: rest' =>
          match spanDigits rest' with
          | ([], _) => None
          | (ds', "}"%char :: rest'') => Some (n, Some (digitsValue 0 ds'), rest'')
          | _ => None
          end
      | _ => None
      end
  end.

Definition maxBelow (max : option nat) (min : nat) : bool :=
  match max with Some m => m <? min | None => false end.

(** A quantifier applies to the last term read, which must be an atom. *)
Definition quantify (min : nat) (max : option nat) (greedy : bool)
    (f : frame) : option frame :=
  match terms f with
  | t :: ts =>
      if quantifiable t
      then Some (mkFrame (capturing f) (alts f) (Repeat min max greedy t :: ts))
      else None
  | [] => None
  end.

(** A question mark after a quantifier makes it lazy. *)
Definition lazyMark (p : text) : bool * text :=
  match p with
  | "?"%char :: p' => (false, p')
  | _ => (true, p)
  end.

Definition escapeAtom (c : ascii) : option regex :=
  if existsb (Ascii.eqb c) (str "0123456789cxuk") then None
  else Some
    (match c with
     | "b"%char => WordB false
     | "B"%char => WordB true
     | "d"%char => Class KDigit false
     | "D"%char => Class KDigit true
     | "w"%char => Class KWord false
     | "W"%char => Class KWord true
     | "s"%char => Class KSpace false
     | "S"%char => Class KSpace true
     | "t"%char => Char "009"%char
     | "n"%char => Char "010"%char
     | "v"%char => Char "011"%char
     | "f"%char => Char "012"%char
     | "r"%char => Char "013"%char
     | _ => Char c
     end).

Fixpoint parseLoop (fuel : nat) (p : text) (top : frame)
    (stack : list frame) : parse_result :=
  match fuel with
  | 0 => Unsupported
  | S fuel' =>
    match p with
    | [] =>
        match stack with
        | [] => Parsed (close top)
        | _ => SyntaxError "Unterminated group"
        end
    | c :: p' =>
      if negb (isSyntaxChar c) then parseLoop fuel' p' (pushTerm (Char c) top) stack
      else
        let quantified (min : nat) (max : option nat) (rest : text) :=
          let (greedy, rest') := lazyMark rest in
          match quantify min max greedy top with
          | Some top' => parseLoop fuel' rest' top' stack
          | None => SyntaxError "Nothing to repeat"
          end in
        match c with
        | "("%char =>
            match p' with
            | "?"%char :: ":"%char :: p'' =>
                parseLoop fuel' p'' (newFrame false) (top :: stack)
            | "?"%char :: _ => Unsupported
            | _ => parseLoop fuel' p' (newFrame true) (top :: stack)
            end
        | ")"%char =>
            match stack with
            | [] => SyntaxError "Unmatched ')'"
            | parent :: stack' =>
                parseLoop fuel' p'
                  (pushTerm (Group (capturing top) (close top)) parent) stack'
            end
        | "|"%char => parseLoop fuel' p' (nextAlt top) stack
        | "*"%char => quantified 0 None p'
        | "+"%char => quantified 1 None p'
        | "?"%char => quantified 0 (Some 1) p'
        | "{"%char =>
            match bracedQuantifier p' with
            | Some (min, max, rest) =>
                if maxBelow max min
                then SyntaxError "numbers out of order in {} quantifier"
                else quantified min max rest
            | None => parseLoop fuel' p' (pushTerm (Char c) top) stack
            end
        | "."%char => parseLoop fuel' p' (pushTerm Dot top) stack
        | "^"%char => parseLoop fuel' p' (pushTerm Bol top) stack
        | "$"%char => parseLoop fuel' p' (pushTerm Eol top) stack
        | "\"%char =>
            match p' with
            | [] => SyntaxError "\ at end of pattern"
            | e :: p'' =>
                match escapeAtom e with
                | Some t => parseLoop fuel' p'' (pushTerm t top) stack
                | None => Unsupported
                end
            end
        | _ => Unsupported
        end
    end
  end.

Definition parse (pattern : text) : parse_result :=
  parseLoop (S (length pattern)) pattern (newFrame false) [].

End Parser.

Definition new_RegExp (pattern : text) : parse_result := Parser.parse pattern.

(** ** [String.prototype.replace] with a global pattern and a string *)

(** [GetSubstitution]: the replacement template expanded for one match.
    [ncap] is the number of capturing groups of the pattern; the captures
    themselves are not tracked, so a numbered reference that could name one
    gives [None]. *)
Fixpoint getSubstitution (ncap : nat) (matched before after : text)
    (template : text) : option text :=
  match template with
  | [] => Some []
  | "$"%char :: t1 =>
      match t1 with
      | "$"%char :: t2 =>
          option_map (cons "$"%char) (getSubstitution ncap matched before after t2)
      | "&"%char :: t2 =>
          option_map (app matched) (getSubstitution ncap matched before after t2)
      | "`"%char :: t2 =>
          option_map (app before) (getSubstitution ncap matched before after t2)
      | "'"%char :: t2 =>
          option_map (app after) (getSubstitution ncap matched before after t2)
      | d :: _ =>
          if isDigit d && negb (ncap =? 0) then None
          else option_map (cons "$"%char) (getSubstitution ncap matched before after t1)
      | [] => Some ["$"%char]
      end
  | c :: t1 => option_map (cons c) (getSubstitution ncap matched before after t1)
  end.

(** [RegExpBuiltinExec] for a global pattern: the first position at or after
    [lastIndex] where the pattern matches.  Returns the text skipped, the
    state where the match starts and the state where it ends. *)
Fixpoint regExpExec (r : regex) (before after : text)
    : option (text * State * State) :=
  match matchR r (before, after) with
  | y :: _ => Some ([], (before, after), y)
  | [] =>
      match after with
      | [] => None
      | c :: after' =>
          match regExpExec r (c :: before) after' with
          | Some (skipped, s, y) => Some (c :: skipped, s, y)
          | None => None
          end
      end
  end.

Definition matchedText (s y : State) : text :=
  firstn (length (snd s) - length (snd y)) (snd s).

(** The loop of [RegExp.prototype[Symbol.replace]]: every match from
    [lastIndex] on is replaced; after an empty match [lastIndex] advances by
    one code unit.  [None] when the model gives no answer. *)
Fixpoint replaceLoop (r : regex) (template : text) (fuel : nat) (x : State)
    : option text :=
  match fuel with
  | 0 => None
  | S fuel' =>
    match regExpExec r (fst x) (snd x) with
    | None => Some (snd x)
    | Some (skipped, s, y) =>
        let matched := matchedText s y in
        match getSubstitution (countGroups r) matched (rev (fst s)) (snd y) template with
        | None => None
        | Some replacement =>
            let continue :=
              match matched, snd y with
              | [], [] => Some []
              | [], c :: rest =>
                  option_map (cons c) (replaceLoop r template fuel' (c :: fst y, rest))
              | _ :: _, _ => replaceLoop r template fuel' y
              end in
            option_map (fun tail => skipped ++ replacement ++ tail) continue
        end
    end
  end.

Definition replace (r : regex) (template input : text) : option text :=
  replaceLoop r template (S (length input)) ([], input).

(** ** Values thrown and results *)

Inductive exn :=
| JsError (message : string)
| JsSyntaxError (message : string)
| JsTypeError (message : string)
| Rejected (reason : string).

(** What an expression of the pipeline evaluates to: a value, a thrown
    error (or rejected promise), or no answer from the model. *)
Inductive outcome (A : Type) :=
| Ok (a : A)
| Throw (e : exn)
| Unmodelled.
Arguments Ok {A} a.
Arguments Throw {A} e.
Arguments Unmodelled {A}.

(** How a promise of an external service settles. *)
Inductive answer (A : Type) :=
| Resolve (a : A)
| Reject (e : exn).
Arguments Resolve {A} a.
Arguments Reject {A} e.

(** ** Dictionary replacements (App.tsx, lines 160-165) *)

Record DictionaryEntry := mkEntry {
  word : text;
  replacement : text;
  entry_user_id : option text
}.

(** The body of the [forEach] callback: build the pattern from the entry's
    word, replace every match in the text processed so far. *)
Definition replaceEntry (processedText : text) (entry : DictionaryEntry)
    : outcome text :=
  match new_RegExp (str "\b" ++ word entry ++ str "\b") with
  | SyntaxError msg => Throw (JsSyntaxError msg)
  | Unsupported => Unmodelled
  | Parsed regex =>
      match replace regex (replacement entry) processedText with
      | Some t => Ok t
      | None => Unmodelled
      end
  end.

Fixpoint applyDictionary (dictionary : list DictionaryEntry)
    (processedText : text) : outcome text :=
  match dictionary with
  | [] => Ok processedText
  | entry :: more =>
      match replaceEntry processedText entry with
      | Ok t => applyDictionary more t
      | Throw e => Throw e
      | Unmodelled => Unmodelled
      end
  end.

(** ** Small string functions of the runtime *)

Definition LF : ascii := "010"%char.
Definition DQUOTE : ascii := "034"%char.

(** [String.prototype.split] with a one-character separator. *)
Fixpoint split (sep : ascii) (s : text) : list text :=
  match s with
  | [] => [[]]
  | c :: s' =>
      if Ascii.eqb c sep then [] :: split sep s'
      else match split sep s' with
           | piece :: pieces => (c :: piece) :: pieces
           | [] => [[c]]
           end
  end.

Fixpoint trimStart (s : text) : text :=
  match s with
  | c :: s' => if isSpace c then trimStart s' else s
  | [] => []
  end.

Definition trim (s : text) : text := rev (trimStart (rev (trimStart s))).

(** [Array.prototype.join]. *)
Fixpoint join (sep : text) (parts : list text) : text :=
  match parts with
  | [] => []
  | [p] => p
  | p :: more => p ++ sep ++ join sep more
  end.

Definition lines (ls : list string) : text := join [LF] (map str ls).

(** [Number.prototype.toString] on an integer. *)
Definition toString (n : Z) : text := str (NilZero.string_of_int (Z.to_int n)).

(** Strict equality of two strings. *)
Fixpoint eqbText (a b : text) : bool :=
  match a, b with
  | [], [] => true
  | x :: a', y :: b' => Ascii.eqb x y && eqbText a' b'
  | _, _ => false
  end.

(** ** The component: state, effects and handlers

    The two source files are two variants of one component.  They share
    everything but the dictionary entry and what is made of it; [Variant]
    collects what differs, and the component is written once over it. *)

Definition Blob := list ascii.

Definition size (b : Blob) : nat := length b.

(** [new Blob(parts)]: the parts one after the other. *)
Definition new_Blob (parts : list Blob) : Blob := concat parts.

Record VoiceNote := mkVoiceNote {
  id : text;
  text_ : text;
  original_text : text;
  timestamp : Z;
  duration : Z
}.

Record User := mkUser {
  user_id : text;
  email : text
}.

(** What differs between the two variants: the word of an entry; lines
    156-180 of [processRecording], from the dictionary and the transcript
    to the prompt of the text-generation call; the guard of
    [addDictionaryEntry], the entry it sends to the store and the one it
    keeps in memory; whether it clears a replacement field; the messages
    of the dictionary handlers. *)
Record Variant (Entry : Type) := mkVariant {
  entryWord : Entry -> text;
  composePrompt : list Entry -> text -> outcome text;
  formFilled : text -> text -> bool;
  formEntry : text -> text -> text -> Entry * Entry;
  clearsReplacement : bool;
  toastAdded : string;
  labelAddError : string;
  toastAddError : string;
  toastDeleted : string;
  labelDeleteError : string;
  toastDeleteError : string
}.
Arguments entryWord {Entry} _ _.
Arguments composePrompt {Entry} _ _ _.
Arguments formFilled {Entry} _ _ _.
Arguments formEntry {Entry} _ _ _ _.
Arguments clearsReplacement {Entry} _.
Arguments toastAdded {Entry} _.
Arguments labelAddError {Entry} _.
Arguments toastAddError {Entry} _.
Arguments toastDeleted {Entry} _.
Arguments labelDeleteError {Entry} _.
Arguments toastDeleteError {Entry} _.

(** The dictionary step of the source always ends, with a text or with an
    exception.  The model of the pattern language has no answer on a
    pattern outside its fragment; [completed V beyond] is the variant in
    which the step then ends as [beyond] says.  What holds for every
    [beyond] holds whatever the engine does on such a pattern. *)
Definition completed {Entry} (V : Variant Entry)
    (beyond : list Entry -> text -> text + exn) : Variant Entry :=
  mkVariant Entry (entryWord V)
    (fun dictionary originalText =>
       match composePrompt V dictionary originalText with
       | Unmodelled =>
           match beyond dictionary originalText with
           | inl prompt => Ok prompt
           | inr e => Throw e
           end
       | ended => ended
       end)
    (formFilled V) (formEntry V) (clearsReplacement V)
    (toastAdded V) (labelAddError V) (toastAddError V)
    (toastDeleted V) (labelDeleteError V) (toastDeleteError V).

Section Component.

Variable Entry : Type.
Variable V : Variant Entry.

(** The [MediaRecorder] with what its handlers close over: the chunk array
    they share, and the values of the render in which [startRecording]
    ran. *)
Record Recorder := mkRecorder {
  recording : bool;
  chunks : list Blob;
  closure_recordingStart : Z;
  closure_dictionary : list Entry;
  closure_user : option User
}.

(** The [useState] cells of the component. *)
Record AppState := mkAppState {
  isRecording : bool;
  isTranscribing : bool;
  currentNote : text;
  voiceNotes : list VoiceNote;
  dictionary : list Entry;
  newWord : text;
  newReplacement : text;
  mediaRecorder : option Recorder;
  recordingStart : Z;
  user : option User
}.

(** The external services: each answers a call with a value or a
    rejection; [clock] gives the successive readings of [Date.now()]. *)
Record Services := mkServices {
  getUserMedia : answer unit;
  readAsDataURL : Blob -> answer text;
  transcribeAudio : text -> text -> answer text;
  generateText : text -> answer text;
  voice_notes_create : VoiceNote -> text -> answer unit;
  voice_notes_delete : text -> answer unit;
  dictionary_entries_create : Entry -> answer unit;
  dictionary_entries_delete : text -> answer unit;
  clock : nat -> Z
}.

Inductive event :=
| CallGetUserMedia
| CallReadAsDataURL (blob : Blob)
| CallTranscribeAudio (audio language : text)
| CallGenerateText (prompt : text)
| CallCreateNote (note : VoiceNote) (uid : text)
| CallDeleteNote (noteId : text)
| CallCreateEntry (entry : Entry)
| CallDeleteEntry (w : text)
| ConsoleLog (label : string) (n : nat)
| ConsoleError (label : string) (e : exn)
| ToastSuccess (message : string)
| ToastError (message : string).

Record World := mkWorld {
  state : AppState;
  log : list event;
  ticks : nat
}.

(** *** The monad of handlers: state, log and exceptions *)

Definition M (A : Type) : Type := World -> outcome A * World.

Definition ret {A} (a : A) : M A := fun w => (Ok a, w).

Definition bind {A B} (c : M A) (k : A -> M B) : M B :=
  fun w =>
    match c w with
    | (Ok a, w') => k a w'
    | (Throw e, w') => (Throw e, w')
    | (Unmodelled, w') => (Unmodelled, w')
    end.

Definition throw {A} (e : exn) : M A := fun w => (Throw e, w).

Definition lift {A} (o : outcome A) : M A := fun w => (o, w).

Definition tryCatch (c : M unit) (handler : exn -> M unit) : M unit :=
  fun w =>
    match c w with
    | (Throw e, w') => handler e w'
    | r => r
    end.

Definition emit (ev : event) : M unit :=
  fun w => (Ok tt, mkWorld (state w) (log w ++ [ev]) (ticks w)).

Definition modify (f : AppState -> AppState) : M unit :=
  fun w => (Ok tt, mkWorld (f (state w)) (log w) (ticks w)).

Definition get : M AppState := fun w => (Ok (state w), w).

Variable sv : Services.

(** [Date.now()]: the next reading of the clock. *)
Definition Date_now : M Z :=
  fun w => (Ok (clock sv (ticks w)), mkWorld (state w) (log w) (S (ticks w))).

(** A call to an external service: logged, then settled. *)
Definition await {A} (ev : event) (settled : answer A) : M A :=
  bind (emit ev)
    (fun _ => match settled with
              | Resolve a => ret a
              | Reject e => throw e
              end).

Notation "x <- c ;; k" := (bind c (fun x => k))
  (at level 61, c at next level, right associativity).
Notation "c ;; k" := (bind c (fun _ => k))
  (at level 61, right associativity).

(** *** The setters *)

Definition setIsRecording (b : bool) : M unit :=
  modify (fun s => mkAppState b (isTranscribing s) (currentNote s) (voiceNotes s)
    (dictionary s) (newWord s) (newReplacement s) (mediaRecorder s)
    (recordingStart s) (user s)).

Definition setIsTranscribing (b : bool) : M unit :=
  modify (fun s => mkAppState (isRecording s) b (currentNote s) (voiceNotes s)
    (dictionary s) (newWord s) (newReplacement s) (mediaRecorder s)
    (recordingStart s) (user s)).

Definition setCurrentNote (t : text) : M unit :=
  modify (fun s => mkAppState (isRecording s) (isTranscribing s) t (voiceNotes s)
    (dictionary s) (newWord s) (newReplacement s) (mediaRecorder s)
    (recordingStart s) (user s)).

Definition setVoiceNotes (f : list VoiceNote -> list VoiceNote) : M unit :=
  modify (fun s => mkAppState (isRecording s) (isTranscribing s) (currentNote s)
    (f (voiceNotes s)) (dictionary s) (newWord s) (newReplacement s)
    (mediaRecorder s) (recordingStart s) (user s)).

Definition setDictionary (f : list Entry -> list Entry) : M unit :=
  modify (fun s => mkAppState (isRecording s) (isTranscribing s) (currentNote s)
    (voiceNotes s) (f (dictionary s)) (newWord s) (newReplacement s)
    (mediaRecorder s) (recordingStart s) (user s)).

Definition setNewWord (t : text) : M unit :=
  modify (fun s => mkAppState (isRecording s) (isTranscribing s) (currentNote s)
    (voiceNotes s) (dictionary s) t (newReplacement s) (mediaRecorder s)
    (recordingStart s) (user s)).

Definition setNewReplacement (t : text) : M unit :=
  modify (fun s => mkAppState (isRecording s) (isTranscribing s) (currentNote s)
    (voiceNotes s) (dictionary s) (newWord s) t (mediaRecorder s)
    (recordingStart s) (user s)).

Definition setMediaRecorder (r : option Recorder) : M unit :=
  modify (fun s => mkAppState (isRecording s) (isTranscribing s) (currentNote s)
    (voiceNotes s) (dictionary s) (newWord s) (newReplacement s) r
    (recordingStart s) (user s)).

Definition setRecordingStart (t : Z) : M unit :=
  modify (fun s => mkAppState (isRecording s) (isTranscribing s) (currentNote s)
    (voiceNotes s) (dictionary s) (newWord s) (newReplacement s)
    (mediaRecorder s) t (user s)).

(** The [MediaRecorder] object is shared by the state cell and the
    handlers: a change to it is a change to the one object. *)
Definition updateRecorder (f : Recorder -> Recorder) : M unit :=
  modify (fun s => mkAppState (isRecording s) (isTranscribing s) (currentNote s)
    (voiceNotes s) (dictionary s) (newWord s) (newReplacement s)
    (option_map f (mediaRecorder s)) (recordingStart s) (user s)).

Definition setRecorderState (b : bool) (r : Recorder) : Recorder :=
  mkRecorder b (chunks r) (closure_recordingStart r) (closure_dictionary r)
    (closure_user r).

(** [user.id]: a [TypeError] when [user] is [null]. *)
Definition userId (u : option User) : M text :=
  match u with
  | Some u' => ret (user_id u')
  | None => throw (JsTypeError "Cannot read properties of null (reading 'id')")
  end.

(** *** The recorder's handlers *)

(** [recorder.ondataavailable]: a chunk is kept when its size is positive. *)
Definition ondataavailable (data : Blob) (r : Recorder) : Recorder :=
  if 0 <? size data
  then mkRecorder (recording r) (chunks r ++ [data]) (closure_recordingStart r)
         (closure_dictionary r) (closure_user r)
  else r.

(** The promise around the [FileReader]: the part of the data URL after the
    first comma, rejected when it is missing or empty. *)
Definition toBase64 (audioBlob : Blob) : M text :=
  dataUrl <- await (CallReadAsDataURL audioBlob) (readAsDataURL sv audioBlob) ;;
  let base64Data := nth_error (split ","%char dataUrl) 1 in
  match base64Data with
  | None | Some [] => throw (JsError "Failed to convert audio to base64")
  | Some data => ret data
  end.

(** The [try] block of [processRecording], run with the [dictionary] and
    [user] of the render its closure belongs to. *)
Definition processRecordingTry (dictionary_ : list Entry) (user_ : option User)
    (audioChunks : list Blob) (duration_ : Z) : M unit :=
  match audioChunks with
  | [] => throw (JsError "No audio data recorded")
  | _ :: _ =>
    let audioBlob := new_Blob audioChunks in
    if size audioBlob =? 0 then throw (JsError "Audio recording is empty")
    else
      emit (ConsoleLog "Audio blob size:" (size audioBlob)) ;;
      emit (ConsoleLog "Number of chunks:" (length audioChunks)) ;;
      base64 <- toBase64 audioBlob ;;
      emit (ConsoleLog "Base64 length:" (length base64)) ;;
      originalText <- await (CallTranscribeAudio base64 (str "en"))
                        (transcribeAudio sv base64 (str "en")) ;;
      prompt <- lift (composePrompt V dictionary_ originalText) ;;
      correctedText <- await (CallGenerateText prompt) (generateText sv prompt) ;;
      idTime <- Date_now ;;
      stampTime <- Date_now ;;
      let newNote :=
        mkVoiceNote (toString idTime) correctedText originalText stampTime duration_ in
      uid <- userId user_ ;;
      await (CallCreateNote newNote uid) (voice_notes_create sv newNote uid) ;;
      setCurrentNote correctedText ;;
      setVoiceNotes (fun prev => newNote :: prev) ;;
      setIsTranscribing false ;;
      emit (ToastSuccess "Transcription completed!")
  end.

(** Its [catch] block. *)
Definition processRecordingCatch (error : exn) : M unit :=
  emit (ConsoleError "Error processing recording:" error) ;;
  emit (ToastError "Failed to process recording") ;;
  setIsTranscribing false.

Definition processRecording (dictionary_ : list Entry) (user_ : option User)
    (audioChunks : list Blob) (duration_ : Z) : M unit :=
  tryCatch (processRecordingTry dictionary_ user_ audioChunks duration_)
    processRecordingCatch.

(** [recorder.onstop]: the duration is taken against the [recordingStart] of
    the closure. *)
Definition onstop (r : Recorder) : M unit :=
  now <- Date_now ;;
  processRecording (closure_dictionary r) (closure_user r) (chunks r)
    (now - closure_recordingStart r).

(** [startRecording], run from a render of the current state: the handlers
    it installs close over that render's [recordingStart], [dictionary] and
    [user]. *)
Definition startRecording : M unit :=
  render <- get ;;
  tryCatch
    (await CallGetUserMedia (getUserMedia sv) ;;
     let recorder :=
       mkRecorder false [] (recordingStart render) (dictionary render) (user render) in
     setMediaRecorder (Some recorder) ;;
     now <- Date_now ;;
     setRecordingStart now ;;
     updateRecorder (setRecorderState true) ;;
     setIsRecording true ;;
     emit (ToastSuccess "Recording started"))
    (fun error =>
       emit (ConsoleError "Error starting recording:" error) ;;
       emit (ToastError "Failed to start recording")).

(** A [dataavailable] event delivered to the recorder. *)
Definition dataavailable (data : Blob) : M unit :=
  updateRecorder (ondataavailable data).

(** The [stop] event: [onstop] on the recorder as it is then. *)
Definition stopEvent : M unit :=
  s <- get ;;
  match mediaRecorder s with
  | Some r => onstop r
  | None => ret tt
  end.

(** [stopRecording].  [mediaRecorder.stop()] makes the recorder inactive and
    queues a last [dataavailable] event with the data left ([lastData]),
    then the [stop] event; both run after the handler's own statements. *)
Definition stopRecording (lastData : Blob) : M unit :=
  render <- get ;;
  match mediaRecorder render with
  | Some r =>
      if recording r then
        updateRecorder (setRecorderState false) ;;
        setIsRecording false ;;
        setIsTranscribing true ;;
        emit (ToastSuccess "Recording stopped, transcribing...") ;;
        dataavailable lastData ;;
        stopEvent
      else ret tt
  | None => ret tt
  end.

(** *** The store operations *)

Definition addDictionaryEntry : M unit :=
  render <- get ;;
  if negb (formFilled V (newWord render) (newReplacement render)) then ret tt
  else
    tryCatch
      (uid <- userId (user render) ;;
       let (entry, kept) :=
         formEntry V (newWord render) (newReplacement render) uid in
       await (CallCreateEntry entry) (dictionary_entries_create sv entry) ;;
       setDictionary (fun prev => prev ++ [kept]) ;;
       setNewWord [] ;;
       (if clearsReplacement V then setNewReplacement [] else ret tt) ;;
       emit (ToastSuccess (toastAdded V)))
      (fun error =>
         emit (ConsoleError (labelAddError V) error) ;;
         emit (ToastError (toastAddError V))).

Definition deleteDictionaryEntry (w : text) : M unit :=
  tryCatch
    (await (CallDeleteEntry w) (dictionary_entries_delete sv w) ;;
     setDictionary
       (fun prev => filter (fun entry => negb (eqbText (entryWord V entry) w)) prev) ;;
     emit (ToastSuccess (toastDeleted V)))
    (fun error =>
       emit (ConsoleError (labelDeleteError V) error) ;;
       emit (ToastError (toastDeleteError V))).

Definition deleteNote (noteId : text) : M unit :=
  tryCatch
    (await (CallDeleteNote noteId) (voice_notes_delete sv noteId) ;;
     setVoiceNotes
       (fun prev => filter (fun note => negb (eqbText (id note) noteId)) prev) ;;
     emit (ToastSuccess "Note deleted!"))
    (fun error =>
       emit (ConsoleError "Error deleting note:" error) ;;
       emit (ToastError "Failed to delete note")).

End Component.

Arguments mkRecorder {Entry} _ _ _ _ _.
Arguments mkAppState {Entry} _ _ _ _ _ _ _ _ _ _.
Arguments mkWorld {Entry} _ _ _.
Arguments mkServices {Entry} _ _ _ _ _ _ _ _ _.
Arguments CallGetUserMedia {Entry}.
Arguments CallReadAsDataURL {Entry} _.
Arguments CallTranscribeAudio {Entry} _ _.
Arguments CallGenerateText {Entry} _.
Arguments CallCreateNote {Entry} _ _.
Arguments CallDeleteNote {Entry} _.
Arguments CallCreateEntry {Entry} _.
Arguments CallDeleteEntry {Entry} _.
Arguments ConsoleLog {Entry} _ _.
Arguments ConsoleError {Entry} _ _.
Arguments ToastSuccess {Entry} _.
Arguments ToastError {Entry} _.
Arguments getUserMedia {Entry} _.
Arguments readAsDataURL {Entry} _ _.
Arguments transcribeAudio {Entry} _ _ _.
Arguments generateText {Entry} _ _.
Arguments voice_notes_create {Entry} _ _ _.
Arguments voice_notes_delete {Entry} _ _.
Arguments dictionary_entries_create {Entry} _ _.
Arguments dictionary_entries_delete {Entry} _ _.
Arguments clock {Entry} _ _.
Arguments recording {Entry} _.
Arguments chunks {Entry} _.
Arguments closure_recordingStart {Entry} _.
Arguments closure_dictionary {Entry} _.
Arguments closure_user {Entry} _.
Arguments isRecording {Entry} _.
Arguments isTranscribing {Entry} _.
Arguments currentNote {Entry} _.
Arguments voiceNotes {Entry} _.
Arguments dictionary {Entry} _.
Arguments newWord {Entry} _.
Arguments newReplacement {Entry} _.
Arguments mediaRecorder {Entry} _.
Arguments recordingStart {Entry} _.
Arguments user {Entry} _.
Arguments state {Entry} _.
Arguments log {Entry} _.
Arguments ticks {Entry} _.
Arguments ondataavailable {Entry} _ _.
Arguments processRecording {Entry} _ _ _ _ _ _ _.
Arguments processRecordingTry {Entry} _ _ _ _ _ _ _.
Arguments processRecordingCatch {Entry} _ _.
Arguments onstop {Entry} _ _ _ _.
Arguments startRecording {Entry} _ _.
Arguments dataavailable {Entry} _ _.
Arguments stopRecording {Entry} _ _ _ _.
Arguments stopEvent {Entry} _ _ _.
Arguments addDictionaryEntry {Entry} _ _ _.
Arguments deleteDictionaryEntry {Entry} _ _ _ _.
Arguments deleteNote {Entry} _ _ _.
Arguments toBase64 {Entry} _ _ _.
Arguments bind {Entry A B} _ _ _.
Arguments ret {Entry A} _ _.

(** ** The variant of [src/App.tsx]: entries with a replacement *)

Module App.

Definition rules : text :=
  lines [ "Rules:";
          "- Fix grammar and spelling errors";
          "- Improve sentence structure";
          "- Add proper punctuation";
          "- Make it more professional but keep the original tone";
          "- Don't change the core meaning";
          "- Return only the corrected text without explanations" ]%string.

Definition promptHead : text :=
  str "Please correct grammar, improve formatting, and make this text more professional while preserving the original meaning and intent:"
  ++ [LF; LF; DQUOTE].

Definition promptTail : text := [DQUOTE; LF; LF] ++ rules.

(** The template literal of the [generateText] call. *)
Definition prompt (processedText : text) : text :=
  promptHead ++ processedText ++ promptTail.

(** Lines 160-180: the dictionary replacements, then the prompt. *)
Definition composePrompt (dictionary : list DictionaryEntry)
    (originalText : text) : outcome text :=
  match applyDictionary dictionary originalText with
  | Ok processedText => Ok (prompt processedText)
  | Throw e => Throw e
  | Unmodelled => Unmodelled
  end.

(** [!newWord.trim() || !newReplacement.trim()] returns early. *)
Definition formFilled (newWord newReplacement : text) : bool :=
  negb (eqbText (trim newWord) []) && negb (eqbText (trim newReplacement) []).

Definition formEntry (newWord newReplacement uid : text)
    : DictionaryEntry * DictionaryEntry :=
  let entry := mkEntry (trim newWord) (trim newReplacement) (Some uid) in
  (entry, entry).

Definition variant : Variant DictionaryEntry :=
  mkVariant DictionaryEntry word composePrompt formFilled formEntry true
    "Dictionary entry added!"
    "Error adding dictionary entry:" "Failed to add dictionary entry"
    "Dictionary entry deleted!"
    "Error deleting dictionary entry:" "Failed to delete dictionary entry".

End App.

(** ** The variant of the second source file: preferred words *)

Module Preferred.

Record DictionaryEntry := mkEntry {
  word : text;
  entry_user_id : option text
}.

Definition rules : text :=
  lines [ "Rules:";
          "- Fix grammar and spelling errors";
          "- Improve sentence structure";
          "- Add proper punctuation";
          "- Make it more professional but keep the original tone";
          "- Use the user's preferred words above if they fit the context";
          "- Don't change the core meaning";
          "- Return only the corrected text without explanations." ]%string.

(** [dictionary.map(entry => entry.word).filter(Boolean)]. *)
Definition preferredWords (dictionary : list DictionaryEntry) : list text :=
  filter (fun w => negb (eqbText w [])) (map word dictionary).

Definition prompt (preferred : list text) (processedText : text) : text :=
  str "You are transcribing a voice note for a user. Please correct grammar, improve formatting, and make this text more professional while preserving the original meaning and intent."
  ++ [LF] ++ str "Here is the raw transcript:"
  ++ [LF; DQUOTE] ++ processedText ++ [DQUOTE; LF]
  ++ str "The user has provided a list of special words and spellings they frequently use. When possible, prioritize using these words in the transcript:"
  ++ [LF]
  ++ (match preferred with
      | [] => str "[none]"
      | _ => join (str ", ") preferred
      end)
  ++ [LF] ++ rules.

Definition composePrompt (dictionary : list DictionaryEntry)
    (originalText : text) : outcome text :=
  Ok (prompt (preferredWords dictionary) originalText).

Definition formFilled (newWord newReplacement : text) : bool :=
  negb (eqbText (trim newWord) []).

Definition formEntry (newWord newReplacement uid : text)
    : DictionaryEntry * DictionaryEntry :=
  (mkEntry (trim newWord) (Some uid), mkEntry (trim newWord) None).

Definition variant : Variant DictionaryEntry :=
  mkVariant DictionaryEntry word composePrompt formFilled formEntry false
    "Word added!"
    "Error adding dictionary word:" "Failed to add word"
    "Word deleted!"
    "Error deleting dictionary word:" "Failed to delete word".

End Preferred.

(** ** The steps of the pipeline that call a service *)

Inductive stage := Encoding | Transcription | Correction | StoreWrite.

Definition pipeline : list stage :=
  [Encoding; Transcription; Correction; StoreWrite].

Definition stageOf {Entry} (ev : event Entry) : option stage :=
  match ev with
  | CallReadAsDataURL _ => Some Encoding
  | CallTranscribeAudio _ _ => Some Transcription
  | CallGenerateText _ => Some Correction
  | CallCreateNote _ _ => Some StoreWrite
  | _ => None
  end.

(** The steps a log shows, in the order they ran. *)
Fixpoint stagesOf {Entry} (l : list (event Entry)) : list stage :=
  match l with
  | [] => []
  | ev :: l' =>
      match stageOf ev with
      | Some st => st :: stagesOf l'
      | None => stagesOf l'
      end
  end.

Definition isCall {Entry} (ev : event Entry) : bool :=
  match ev with
  | ConsoleLog _ _ | ConsoleError _ _ | ToastSuccess _ | ToastError _ => false
  | _ => true
  end.

(** The state with the transcribing flag cleared. *)
Definition notTranscribing {Entry} (s : AppState Entry) : AppState Entry :=
  mkAppState (isRecording s) false (currentNote s) (voiceNotes s) (dictionary s)
    (newWord s) (newReplacement s) (mediaRecorder s) (recordingStart s) (user s).

(** The chunk array after a sequence of [dataavailable] events. *)
Definition recorded {Entry} (events : list Blob) (r : Recorder Entry)
    : Recorder Entry :=
  fold_left (fun r' data => ondataavailable data r') events r.

(** ** A recording session against services that all answer

    The component just after [initializeApp]: every cell at its initial
    value, the user signed in.  The clock reads 1700000000000 when the
    recording starts and 1700000003000 when the [stop] event is handled,
    three seconds later. *)

Module Session.

Definition readings : list Z :=
  [1700000000000; 1700000003000; 1700000003500; 1700000003500]%Z.

Definition services : Services DictionaryEntry :=
  mkServices
    (Resolve tt)
    (fun _ => Resolve (str "data:audio/webm;base64,GkXfo59ChoEB"))
    (fun _ _ => Resolve (str "im gonna go"))
    (fun _ => Resolve (str "I am going to go."))
    (fun _ _ => Resolve tt)
    (fun _ => Resolve tt)
    (fun _ => Resolve tt)
    (fun _ => Resolve tt)
    (fun n => nth n readings 0%Z).

Definition signedIn : AppState DictionaryEntry :=
  mkAppState false false [] []
    [mkEntry (str "gonna") (str "going to") None] [] [] None 0%Z
    (Some (mkUser (str "u1") (str "user@example.com"))).

Definition world : World DictionaryEntry := mkWorld signedIn [] 0.

(** Start, one slice of data, stop with a last slice. *)
Definition session : M DictionaryEntry unit :=
  bind (startRecording services)
    (fun _ => bind (dataavailable (str "abc"))
       (fun _ => stopRecording App.variant services (str "de"))).

End Session.

(** ** Whole words: what the substitution is meant to do

    A word is a maximal run of word characters of the text; a key that is
    itself a word occurs as a whole word exactly where it equals one of
    them, up to case. *)

Inductive token :=
| Word (w : text)
| Sep (c : ascii).

Definition tokenText (t : token) : text :=
  match t with
  | Word w => w
  | Sep c => [c]
  end.

(** The words of a text and the characters between them, in order. *)
Fixpoint tokenize (s : text) : list token :=
  match s with
  | [] => []
  | c :: s' =>
      if isWordChar c then
        match tokenize s' with
        | Word w :: ts => Word (c :: w) :: ts
        | ts => Word [c] :: ts
        end
      else Sep c :: tokenize s'
  end.

Fixpoint wordsOf (ts : list token) : list text :=
  match ts with
  | [] => []
  | Word w :: ts' => w :: wordsOf ts'
  | Sep _ :: ts' => wordsOf ts'
  end.

(** Equality of two texts up to case. *)
Fixpoint eqCI (a b : text) : bool :=
  match a, b with
  | [], [] => true
  | x :: a', y :: b' => sameCI x y && eqCI a' b'
  | _, _ => false
  end.

(** The text with every word rewritten by [g]. *)
Definition mapWords (g : text -> text) (s : text) : text :=
  flat_map (fun t => match t with Word w => g w | Sep c => [c] end) (tokenize s).

(** One word against one entry: the replacement when the word is the key,
    up to case. *)
Definition replaceWord (k r w : text) : text := if eqCI k w then r else w.

(** The replacement of the first entry whose key is the word, up to case;
    the word itself when there is none. *)
Fixpoint lookupWord (dictionary : list DictionaryEntry) (w : text) : text :=
  match dictionary with
  | [] => w
  | entry :: more =>
      if eqCI (word entry) w then replacement entry else lookupWord more w
  end.

(** Whole-word, case-insensitive replacement of word keys. *)
Definition replaceWholeWords (dictionary : list DictionaryEntry) (s : text) : text :=
  mapWords (lookupWord dictionary) s.

(** A key that is one word: not empty, word characters only. *)
Definition isWordKey (k : text) : bool :=
  negb (eqbText k []) && forallb isWordChar k.

Definition wordKeys (dictionary : list DictionaryEntry) : bool :=
  forallb (fun e => isWordKey (word e)) dictionary.

(** A replacement without a dollar sign stands for itself. *)
Definition plainText (r : text) : bool :=
  negb (existsb (Ascii.eqb "$"%char) r).

Definition plainReplacements (dictionary : list DictionaryEntry) : bool :=
  forallb (fun e => plainText (replacement e)) dictionary.

(** The words used by the replacements. *)
Definition vocabulary (dictionary : list DictionaryEntry) : list text :=
  flat_map (fun e => wordsOf (tokenize (replacement e))) dictionary.

Definition isKey (dictionary : list DictionaryEntry) (w : text) : bool :=
  existsb (fun e => eqCI (word e) w) dictionary.

(** No word of a replacement is a key, up to case. *)
Definition vocabularyDisjoint (dictionary : list DictionaryEntry) : bool :=
  forallb (fun w => negb (isKey dictionary w)) (vocabulary dictionary).

(** No word of the replacement of an entry is the key of a later entry. *)
Fixpoint chainFree (d : list DictionaryEntry) : Prop :=
  match d with
  | [] => True
  | e :: more =>
      (forall w, In w (wordsOf (tokenize (replacement e))) -> isKey more w = false)
      /\ chainFree more
  end.

(** No two entries have the same key, up to case. *)
Fixpoint distinctKeys (dictionary : list DictionaryEntry) : bool :=
  match dictionary with
  | [] => true
  | e :: more => negb (isKey more (word e)) && distinctKeys more
  end.

(** No two entries have keys with a character in common, up to case. *)
Definition shareNoChar (a b : text) : bool :=
  forallb (fun x => forallb (fun y => negb (sameCI x y)) b) a.

Fixpoint keysShareNoChar (dictionary : list DictionaryEntry) : bool :=
  match dictionary with
  | [] => true
  | e :: more =>
      forallb (fun e' => shareNoChar (word e) (word e')) more
      && keysShareNoChar more
  end.

(** The pattern built for a key made of word characters. *)
Definition keyPattern (k : text) : regex :=
  Parser.seqOf (WordB false :: map Char k ++ [WordB false]).

(** A result of a matcher is a position of the same input, not before the
    position it started from. *)
Definition advances (x y : State) : Prop :=
  length (snd y) <= length (snd x)
  /\ length (fst y) + length (snd y) = length (fst x) + length (snd x).

Definition forward (m : State -> list State) : Prop :=
  forall x y, In y (m x) -> advances x y.

(** The canonical forms of the word characters. *)
Definition wordCanon (n : N) : bool :=
  between 65 90 n || between 48 57 n || (n =? 95)%N.

(** ** The rest of the component: display, main button, initial loading *)

(** [String.prototype.padStart]: the filler is the pad string repeated and
    cut to the missing length. *)
Fixpoint repeatTo (fill cur : text) (n : nat) : text :=
  match n with
  | 0 => []
  | S n' =>
      match cur with
      | c :: cur' => c :: repeatTo fill cur' n'
      | [] =>
          match fill with
          | c :: fill' => c :: repeatTo fill fill' n'
          | [] => []
          end
      end
  end.

Definition padStart (targetLength : nat) (padString s : text) : text :=
  if targetLength <=? length s then s
  else repeatTo padString padString (targetLength - length s) ++ s.

(** The integers that a number of the source holds exactly, with all the
    integers between them and zero. *)
Definition safeInteger (n : Z) : bool := ((- 2 ^ 53 <? n) && (n <? 2 ^ 53))%Z.

(** [formatDuration] on an integer number of milliseconds.  The numbers of
    the source are doubles.  On an integer of magnitude below [2^53] its
    arithmetic is that of the integers: the quotient by 1000 has a
    magnitude below [2^44], so it is rounded by [2^-10] at most, less
    than the thousandth that separates a quotient that is no integer from
    the integers, and [Math.floor] of it is the floor of the exact
    quotient; the same holds of the quotient by 60; [%] is exact and has
    the sign of the dividend; [toString] gives all the digits of an
    integer of that size.  On other numbers there is no answer here. *)
Definition formatDuration (ms : Z) : option text :=
  if safeInteger ms then
    let seconds := (ms / 1000)%Z in
    let minutes := (seconds / 60)%Z in
    let remainingSeconds := Z.rem seconds 60 in
    Some (toString minutes ++ [":"%char]
          ++ padStart 2 (str "0") (toString remainingSeconds))
  else None.

(** A decimal digit. *)
Definition digit (n : Z) : ascii := ascii_of_N (48 + Z.to_N n).

(** What is rendered: the spinner while [user] is [null], the application
    otherwise. *)
Inductive Screen := LoadingScreen | MainScreen.

Definition screen {Entry} (s : AppState Entry) : Screen :=
  match user s with
  | None => LoadingScreen
  | Some _ => MainScreen
  end.

(** A word of the transcript against the dictionary, when the
    replacements are templates over the matched word. *)
Definition expandWord (k template w : text) : text :=
  if eqCI k w
  then match getSubstitution 0 w [] [] template with
       | Some expansion => expansion
       | None => w
       end
  else w.

(** A template whose expansion depends on the matched text only: no
    reference to the text before or after the match. *)
Fixpoint localTemplate (t : text) : bool :=
  match t with
  | [] => true
  | "$"%char :: t1 =>
      match t1 with
      | "`"%char :: _ => false
      | "'"%char :: _ => false
      | "$"%char :: t2 => localTemplate t2
      | "&"%char :: t2 => localTemplate t2
      | _ => localTemplate t1
      end
  | _ :: t1 => localTemplate t1
  end.

Section Rest.

Context {Entry : Type}.
Variable V : Variant Entry.
Variable sv : Services Entry.

Notation "x <- c ;; k" := (bind c (fun x => k))
  (at level 61, c at next level, right associativity).
Notation "c ;; k" := (bind c (fun _ => k))
  (at level 61, right associativity).

(** The main button: absent on the loading screen, disabled while
    transcribing, [stopRecording] while recording and [startRecording]
    otherwise.  [lastData] is the data the recorder has left when it is
    stopped. *)
Definition mainButton (lastData : Blob) : M Entry unit :=
  render <- get Entry ;;
  match screen render with
  | LoadingScreen => ret tt
  | MainScreen =>
      if isTranscribing render then ret tt
      else if isRecording render then stopRecording V sv lastData
      else startRecording sv
  end.

(** A control of the main screen: it is not there while the loading
    screen is shown. *)
Definition onMainScreen (handler : M Entry unit) : M Entry unit :=
  render <- get Entry ;;
  match screen render with
  | LoadingScreen => ret tt
  | MainScreen => handler
  end.

(** What the user and the recorder do.  The user presses the main button,
    types in the fields of the dictionary dialog (the replacement field
    exists in the variant with replacements only), presses the add button,
    the delete button of an entry of the dictionary or of a note of the
    history; the recorder delivers a slice of data. *)
Inductive action :=
| Press (lastData : Blob)
| Data (data : Blob)
| TypeWord (value : text)
| TypeReplacement (value : text)
| PressAdd
| PressDeleteEntry (w : text)
| PressDeleteNote (noteId : text).

Definition act (a : action) : M Entry unit :=
  match a with
  | Press lastData => mainButton lastData
  | Data data => dataavailable data
  | TypeWord value => onMainScreen (setNewWord Entry value)
  | TypeReplacement value =>
      onMainScreen
        (if clearsReplacement V then setNewReplacement Entry value else ret tt)
  | PressAdd => onMainScreen (addDictionaryEntry V sv)
  | PressDeleteEntry w =>
      onMainScreen
        (render <- get Entry ;;
         if existsb (fun entry => eqbText (entryWord V entry) w) (dictionary render)
         then deleteDictionaryEntry V sv w
         else ret tt)
  | PressDeleteNote noteId =>
      onMainScreen
        (render <- get Entry ;;
         if existsb (fun note => eqbText (id note) noteId) (voiceNotes render)
         then deleteNote sv noteId
         else ret tt)
  end.

Fixpoint acts (l : list action) : M Entry unit :=
  match l with
  | [] => ret tt
  | a :: more => act a ;; acts more
  end.

Definition isPress (a : action) : bool :=
  match a with
  | Press _ => true
  | _ => false
  end.

(** The slices of data delivered by a sequence of actions. *)
Fixpoint dataOf (l : list action) : list Blob :=
  match l with
  | [] => []
  | Data data :: more => data :: dataOf more
  | _ :: more => dataOf more
  end.

(** The world with another recorder in the state cell. *)
Definition withRecorder (r : option (Recorder Entry)) (w : World Entry)
    : World Entry :=
  mkWorld
    (mkAppState (isRecording (state w)) (isTranscribing (state w))
       (currentNote (state w)) (voiceNotes (state w)) (dictionary (state w))
       (newWord (state w)) (newReplacement (state w)) r
       (recordingStart (state w)) (user (state w)))
    (log w) (ticks w).

(** The flag [isRecording] says what the recorder does, and nothing is
    being transcribed. *)
Definition settled (s : AppState Entry) : Prop :=
  isTranscribing s = false
  /\ isRecording s
     = match mediaRecorder s with
       | Some r => recording r
       | None => false
       end.

(** The read calls of the backend, as they settle. *)
Record Reads := mkReads {
  auth_me : answer User;
  voice_notes_list : answer (list VoiceNote);
  dictionary_entries_list : answer (list Entry)
}.

Definition settle {A} (a : answer A) : M Entry A :=
  match a with
  | Resolve v => ret v
  | Reject e => throw Entry e
  end.

Definition setUser (u : option User) : M Entry unit :=
  modify Entry (fun s => mkAppState (isRecording s) (isTranscribing s)
    (currentNote s) (voiceNotes s) (dictionary s) (newWord s)
    (newReplacement s) (mediaRecorder s) (recordingStart s) u).

Variable rd : Reads.

Definition loadVoiceNotes : M Entry unit :=
  tryCatch Entry
    (notes <- settle (voice_notes_list rd) ;;
     setVoiceNotes Entry (fun _ => notes))
    (fun error => emit Entry (ConsoleError "Error loading voice notes:" error)).

Definition loadDictionary : M Entry unit :=
  tryCatch Entry
    (entries <- settle (dictionary_entries_list rd) ;;
     setDictionary Entry (fun _ => entries))
    (fun error => emit Entry (ConsoleError "Error loading dictionary:" error)).

(** [initializeApp], the effect run once when the component mounts.  It
    starts the two loads without waiting for them; each has its own
    [catch] and writes its own cell, so they are run here one after the
    other. *)
Definition initializeApp : M Entry unit :=
  tryCatch Entry
    (currentUser <- settle (auth_me rd) ;;
     setUser (Some currentUser) ;;
     loadVoiceNotes ;;
     loadDictionary)
    (fun error => emit Entry (ConsoleError "Auth error:" error)).

End Rest.

(** The add form of a variant: the entry kept in the state has the
    trimmed word as its key, and the form is submitted only when the
    trimmed word is not empty. *)
Definition keepsTrimmedWord {Entry} (V : Variant Entry) : Prop :=
  forall nw nr uid,
    entryWord V (snd (formEntry V nw nr uid)) = trim nw
    /\ (formFilled V nw nr = true -> trim nw <> []).

(** A clock that does not go back, and whose reading has changed when it
    is read for the second time after a reading: one reading may be that
    of the reading before, as the time stamp of a note is read right after
    its identifier. *)
Definition steady (readings : nat -> Z) : Prop :=
  (forall i, (readings i <= readings (S i))%Z)
  /\ (forall i, (readings i < readings (S (S i)))%Z).

(** The identifiers of the notes are different readings of a clock, all
    before the next reading of the clock of the services. *)
Definition idsBefore {Entry} (sv : Services Entry) (w : World Entry) : Prop :=
  NoDup (map id (voiceNotes (state w)))
  /\ forall note, In note (voiceNotes (state w)) ->
       exists z, id note = toString z /\ (z < clock sv (ticks w))%Z.

(** The services with another clock. *)
Definition withClock {Entry} (readings : nat -> Z) (sv : Services Entry)
    : Services Entry :=
  mkServices (getUserMedia sv) (readAsDataURL sv) (transcribeAudio sv)
    (generateText sv) (voice_notes_create sv) (voice_notes_delete sv)
    (dictionary_entries_create sv) (dictionary_entries_delete sv) readings.

(** The services with the microphone refused. *)
Definition withoutMicrophone {Entry} (e : exn) (sv : Services Entry)
    : Services Entry :=
  mkServices (Reject e) (readAsDataURL sv) (transcribeAudio sv)
    (generateText sv) (voice_notes_create sv) (voice_notes_delete sv)
    (dictionary_entries_create sv) (dictionary_entries_delete sv) (clock sv).

(** The state of the component when it mounts. *)
Definition initialState {Entry} : AppState Entry :=
  mkAppState false false [] [] [] [] [] None 0%Z None.

Definition isToast {Entry} (ev : event Entry) : bool :=
  match ev with
  | ToastSuccess _ | ToastError _ => true
  | _ => false
  end.

(** ** The handlers between their awaits

    A handler of the source runs up to an [await], and goes on when what
    it awaits has settled; other handlers run in between.  Here each
    handler is cut at its awaits: what runs at once, and what runs when
    the awaited call has settled.  The [MediaRecorder] objects are kept by
    identity: the cell [mediaRecorder] refers to one of them, the others
    go on recording. *)

Section Segments.

Context {Entry : Type}.
Variable V : Variant Entry.
Variable sv : Services Entry.

Notation "x <- c ;; k" := (bind c (fun x => k))
  (at level 61, c at next level, right associativity).
Notation "c ;; k" := (bind c (fun _ => k))
  (at level 61, right associativity).

(** The await at which a run of [processRecording] is suspended, with the
    values it needs to go on. *)
Inductive Waiting :=
| ForReader (audioBlob : Blob)
| ForTranscription (base64 : text)
| ForCorrection (originalText prompt : text)
| ForStore (newNote : VoiceNote) (correctedText uid : text).

(** The [try] block of [processRecording] up to the promise around the
    reader. *)
Definition processRecording_first (audioChunks : list Blob) : M Entry Waiting :=
  match audioChunks with
  | [] => throw Entry (JsError "No audio data recorded")
  | _ :: _ =>
    let audioBlob := new_Blob audioChunks in
    if size audioBlob =? 0 then throw Entry (JsError "Audio recording is empty")
    else
      emit Entry (ConsoleLog "Audio blob size:" (size audioBlob)) ;;
      emit Entry (ConsoleLog "Number of chunks:" (length audioChunks)) ;;
      emit Entry (CallReadAsDataURL audioBlob) ;;
      ret (ForReader audioBlob)
  end.

(** The [try] block from one await to the next; [None] at its end. *)
Definition processRecording_next (dictionary_ : list Entry)
    (user_ : option User) (duration_ : Z) (at_ : Waiting)
    : M Entry (option Waiting) :=
  match at_ with
  | ForReader audioBlob =>
      dataUrl <- settle (readAsDataURL sv audioBlob) ;;
      match nth_error (split ","%char dataUrl) 1 with
      | None | Some [] => throw Entry (JsError "Failed to convert audio to base64")
      | Some base64 =>
          emit Entry (ConsoleLog "Base64 length:" (length base64)) ;;
          emit Entry (CallTranscribeAudio base64 (str "en")) ;;
          ret (Some (ForTranscription base64))
      end
  | ForTranscription base64 =>
      originalText <- settle (transcribeAudio sv base64 (str "en")) ;;
      prompt <- lift Entry (composePrompt V dictionary_ originalText) ;;
      emit Entry (CallGenerateText prompt) ;;
      ret (Some (ForCorrection originalText prompt))
  | ForCorrection originalText prompt =>
      correctedText <- settle (generateText sv prompt) ;;
      idTime <- Date_now Entry sv ;;
      stampTime <- Date_now Entry sv ;;
      let newNote :=
        mkVoiceNote (toString idTime) correctedText originalText stampTime duration_ in
      uid <- userId Entry user_ ;;
      emit Entry (CallCreateNote newNote uid) ;;
      ret (Some (ForStore newNote correctedText uid))
  | ForStore newNote correctedText uid =>
      settle (voice_notes_create sv newNote uid) ;;
      setCurrentNote Entry correctedText ;;
      setVoiceNotes Entry (fun prev => newNote :: prev) ;;
      setIsTranscribing Entry false ;;
      emit Entry (ToastSuccess "Transcription completed!") ;;
      ret None
  end.

(** A part of the [try] block under the [catch] block of
    [processRecording]. *)
Definition underCatch (part : M Entry (option Waiting)) : M Entry (option Waiting) :=
  fun w =>
    match part w with
    | (Throw error, w') => (processRecordingCatch error ;; ret None) w'
    | ended => ended
    end.

(** The parts one after the other, each await settling at once. *)
Fixpoint processRecording_through (dictionary_ : list Entry)
    (user_ : option User) (duration_ : Z) (awaits : nat)
    (at_ : option Waiting) : M Entry unit :=
  match at_, awaits with
  | None, _ => ret tt
  | Some _, 0 => ret tt
  | Some a, S awaits' =>
      next <- underCatch (processRecording_next dictionary_ user_ duration_ a) ;;
      processRecording_through dictionary_ user_ duration_ awaits' next
  end.

(** The rest of [addDictionaryEntry], [deleteDictionaryEntry] and
    [deleteNote], when the call to the store has settled. *)
Definition addDictionaryEntry_rest (entry kept : Entry) : M Entry unit :=
  tryCatch Entry
    (settle (dictionary_entries_create sv entry) ;;
     setDictionary Entry (fun prev => prev ++ [kept]) ;;
     setNewWord Entry [] ;;
     (if clearsReplacement V then setNewReplacement Entry [] else ret tt) ;;
     emit Entry (ToastSuccess (toastAdded V)))
    (fun error =>
       emit Entry (ConsoleError (labelAddError V) error) ;;
       emit Entry (ToastError (toastAddError V))).

Definition deleteDictionaryEntry_rest (w : text) : M Entry unit :=
  tryCatch Entry
    (settle (dictionary_entries_delete sv w) ;;
     setDictionary Entry
       (fun prev => filter (fun entry => negb (eqbText (entryWord V entry) w)) prev) ;;
     emit Entry (ToastSuccess (toastDeleted V)))
    (fun error =>
       emit Entry (ConsoleError (labelDeleteError V) error) ;;
       emit Entry (ToastError (toastDeleteError V))).

Definition deleteNote_rest (noteId : text) : M Entry unit :=
  tryCatch Entry
    (settle (voice_notes_delete sv noteId) ;;
     setVoiceNotes Entry
       (fun prev => filter (fun note => negb (eqbText (id note) noteId)) prev) ;;
     emit Entry (ToastSuccess "Note deleted!"))
    (fun error =>
       emit Entry (ConsoleError "Error deleting note:" error) ;;
       emit Entry (ToastError "Failed to delete note")).

(** What is suspended: [startRecording] at [getUserMedia], with the render
    it was called in; the task that [stop()] queues for a recorder, which
    fires [dataavailable] with the data left and then [stop];
    [processRecording] at one of its awaits, with the dictionary, the user
    and the duration of its closure; the three store handlers at their
    call. *)
Inductive Task :=
| Starting (render : AppState Entry)
| Stopping (recorder : nat) (lastData : Blob)
| Processing (dictionary_ : list Entry) (user_ : option User)
    (duration_ : Z) (at_ : Waiting)
| Creating (entry kept : Entry)
| DeletingEntry (w : text)
| DeletingNote (noteId : text).

(** The component, the recorders made so far, the one the cell
    [mediaRecorder] refers to, and what is suspended. *)
Record Shared := mkShared {
  world : World Entry;
  recorders : list (Recorder Entry);
  current : option nat;
  pending : list Task
}.

Definition referred (s : Shared) : option (Recorder Entry) :=
  match current s with
  | Some rid => nth_error (recorders s) rid
  | None => None
  end.

End Segments.


Arguments Task : clear implicits.
Arguments Shared : clear implicits.

Section Overlap.

Context {Entry : Type}.
Variable V : Variant Entry.
Variable sv : Services Entry.

(** Handlers on the component with its recorders and what is suspended. *)
Definition Run (A : Type) : Type := Shared Entry -> outcome A * Shared Entry.

Definition sret {A} (a : A) : Run A := fun s => (Ok a, s).

Definition sbind {A B} (c : Run A) (k : A -> Run B) : Run B :=
  fun s =>
    match c s with
    | (Ok a, s') => k a s'
    | (Throw e, s') => (Throw e, s')
    | (Unmodelled, s') => (Unmodelled, s')
    end.

Definition stryCatch (c : Run unit) (handler : exn -> Run unit) : Run unit :=
  fun s =>
    match c s with
    | (Throw e, s') => handler e s'
    | r => r
    end.

Definition look : Run (Shared Entry) := fun s => (Ok s, s).

(** A handler of the component alone. *)
Definition inWorld {A} (c : M Entry A) : Run A :=
  fun s =>
    let (r, w') := c (world s) in
    (r, mkShared w' (recorders s) (current s) (pending s)).

Definition suspend (t : Task Entry) : Run unit :=
  fun s => (Ok tt, mkShared (world s) (recorders s) (current s) (pending s ++ [t])).

(** [new MediaRecorder(stream)]. *)
Definition new_MediaRecorder (r : Recorder Entry) : Run nat :=
  fun s =>
    (Ok (length (recorders s)),
     mkShared (world s) (recorders s ++ [r]) (current s) (pending s)).

(** [setMediaRecorder(recorder)]. *)
Definition setMediaRecorderTo (recorder : nat) : Run unit :=
  fun s => (Ok tt, mkShared (world s) (recorders s) (Some recorder) (pending s)).

Fixpoint change {A} (n : nat) (f : A -> A) (l : list A) : list A :=
  match l, n with
  | [], _ => []
  | a :: l', 0 => f a :: l'
  | a :: l', S n' => a :: change n' f l'
  end.

(** A change to one recorder. *)
Definition onRecorder (recorder : nat) (f : Recorder Entry -> Recorder Entry)
    : Run unit :=
  fun s =>
    (Ok tt,
     mkShared (world s) (change recorder f (recorders s)) (current s) (pending s)).

Notation "x <- c ;; k" := (sbind c (fun x => k))
  (at level 61, c at next level, right associativity).
Notation "c ;; k" := (sbind c (fun _ => k))
  (at level 61, right associativity).

(** [startRecording] up to its await. *)
Definition startRecording_call : Run unit :=
  render <- inWorld (get Entry) ;;
  inWorld (emit Entry CallGetUserMedia) ;;
  suspend (Starting render).

(** The rest of [startRecording], when [getUserMedia] has settled. *)
Definition startRecording_rest (render : AppState Entry) : Run unit :=
  stryCatch
    (inWorld (settle (getUserMedia sv)) ;;
     recorder <-
       new_MediaRecorder
         (mkRecorder false [] (recordingStart render) (dictionary render)
            (user render)) ;;
     setMediaRecorderTo recorder ;;
     now <- inWorld (Date_now Entry sv) ;;
     inWorld (setRecordingStart Entry now) ;;
     onRecorder recorder (setRecorderState Entry true) ;;
     inWorld (setIsRecording Entry true) ;;
     inWorld (emit Entry (ToastSuccess "Recording started")))
    (fun error =>
       inWorld (emit Entry (ConsoleError "Error starting recording:" error)) ;;
       inWorld (emit Entry (ToastError "Failed to start recording"))).

(** [stopRecording]: [stop()] makes the recorder inactive and queues its
    last task. *)
Definition stopRecording_call (lastData : Blob) : Run unit :=
  render <- look ;;
  match current render with
  | Some recorder =>
      match nth_error (recorders render) recorder with
      | Some r =>
          if recording r then
            onRecorder recorder (setRecorderState Entry false) ;;
            suspend (Stopping recorder lastData) ;;
            inWorld (setIsRecording Entry false) ;;
            inWorld (setIsTranscribing Entry true) ;;
            inWorld (emit Entry (ToastSuccess "Recording stopped, transcribing..."))
          else sret tt
      | None => sret tt
      end
  | None => sret tt
  end.

(** A part of [processRecording], and its suspension at the next await. *)
Definition processRecording_part (dictionary_ : list Entry)
    (user_ : option User) (duration_ : Z)
    (part : M Entry (option Waiting)) : Run unit :=
  next <- inWorld (underCatch part) ;;
  match next with
  | Some at_ => suspend (Processing dictionary_ user_ duration_ at_)
  | None => sret tt
  end.

(** A [dataavailable] event: a recorder that records fires it. *)
Definition dataavailableAt (recorder : nat) (data : Blob) : Run unit :=
  onRecorder recorder
    (fun r => if recording r then ondataavailable data r else r).

(** The last task of a recorder: [dataavailable] with the data left, then
    [stop], whose handler [onstop] calls [processRecording]. *)
Definition stopped (recorder : nat) (lastData : Blob) : Run unit :=
  onRecorder recorder (ondataavailable lastData) ;;
  s <- look ;;
  match nth_error (recorders s) recorder with
  | Some r =>
      now <- inWorld (Date_now Entry sv) ;;
      processRecording_part (closure_dictionary r) (closure_user r)
        (now - closure_recordingStart r)
        (bind (processRecording_first (chunks r)) (fun at_ => ret (Some at_)))
  | None => sret tt
  end.

(** [addDictionaryEntry], [deleteDictionaryEntry] and [deleteNote] up to
    their await. *)
Definition addDictionaryEntry_call : Run unit :=
  render <- inWorld (get Entry) ;;
  if negb (formFilled V (newWord render) (newReplacement render)) then sret tt
  else
    stryCatch
      (uid <- inWorld (userId Entry (user render)) ;;
       let (entry, kept) :=
         formEntry V (newWord render) (newReplacement render) uid in
       inWorld (emit Entry (CallCreateEntry entry)) ;;
       suspend (Creating entry kept))
      (fun error =>
         inWorld (emit Entry (ConsoleError (labelAddError V) error)) ;;
         inWorld (emit Entry (ToastError (toastAddError V)))).

Definition deleteDictionaryEntry_call (w : text) : Run unit :=
  inWorld (emit Entry (CallDeleteEntry w)) ;;
  suspend (DeletingEntry w).

Definition deleteNote_call (noteId : text) : Run unit :=
  inWorld (emit Entry (CallDeleteNote noteId)) ;;
  suspend (DeletingNote noteId).

(** A suspended handler goes on. *)
Definition resume (t : Task Entry) : Run unit :=
  match t with
  | Starting render => startRecording_rest render
  | Stopping recorder lastData => stopped recorder lastData
  | Processing dictionary_ user_ duration_ at_ =>
      processRecording_part dictionary_ user_ duration_
        (processRecording_next V sv dictionary_ user_ duration_ at_)
  | Creating entry kept => inWorld (addDictionaryEntry_rest V sv entry kept)
  | DeletingEntry w => inWorld (deleteDictionaryEntry_rest V sv w)
  | DeletingNote noteId => inWorld (deleteNote_rest sv noteId)
  end.

Definition onMainScreenS (handler : Run unit) : Run unit :=
  render <- inWorld (get Entry) ;;
  match screen render with
  | LoadingScreen => sret tt
  | MainScreen => handler
  end.

(** What occurs: the user does something; a recorder delivers a slice of
    data ([Data] of the user's list is the recorder the cell refers to);
    what the [n]-th suspended handler awaits settles, in any order. *)
Inductive occurrence :=
| Does (a : action)
| DataFrom (recorder : nat) (data : Blob)
| Settles (n : nat).

Definition occur (o : occurrence) : Run unit :=
  match o with
  | Does (Press lastData) =>
      onMainScreenS
        (render <- inWorld (get Entry) ;;
         if isTranscribing render then sret tt
         else if isRecording render then stopRecording_call lastData
         else startRecording_call)
  | Does (Data data) =>
      s <- look ;;
      match current s with
      | Some recorder => dataavailableAt recorder data
      | None => sret tt
      end
  | Does (TypeWord value) => inWorld (onMainScreen (setNewWord Entry value))
  | Does (TypeReplacement value) =>
      inWorld
        (onMainScreen
           (if clearsReplacement V then setNewReplacement Entry value else ret tt))
  | Does PressAdd => onMainScreenS addDictionaryEntry_call
  | Does (PressDeleteEntry w) =>
      onMainScreenS
        (render <- inWorld (get Entry) ;;
         if existsb (fun entry => eqbText (entryWord V entry) w) (dictionary render)
         then deleteDictionaryEntry_call w
         else sret tt)
  | Does (PressDeleteNote noteId) =>
      onMainScreenS
        (render <- inWorld (get Entry) ;;
         if existsb (fun note => eqbText (id note) noteId) (voiceNotes render)
         then deleteNote_call noteId
         else sret tt)
  | DataFrom recorder data => dataavailableAt recorder data
  | Settles n =>
      s <- look ;;
      match nth_error (pending s) n with
      | Some t =>
          (fun s' =>
             (Ok tt,
              mkShared (world s') (recorders s') (current s')
                (firstn n (pending s') ++ skipn (S n) (pending s')))) ;;
          resume t
      | None => sret tt
      end
  end.

(** The state shows the recorder the cell refers to as it is now. *)
Definition shown (s : Shared Entry) : Shared Entry :=
  mkShared
    (mkWorld
       (mkAppState (isRecording (state (world s)))
          (isTranscribing (state (world s))) (currentNote (state (world s)))
          (voiceNotes (state (world s))) (dictionary (state (world s)))
          (newWord (state (world s))) (newReplacement (state (world s)))
          (referred s) (recordingStart (state (world s)))
          (user (state (world s))))
       (log (world s)) (ticks (world s)))
    (recorders s) (current s) (pending s).

Fixpoint occurs (l : list occurrence) : Run unit :=
  match l with
  | [] => sret tt
  | o :: more =>
      occur o ;;
      (fun s => (Ok tt, shown s)) ;;
      occurs more
  end.

Definition isProcessing (t : Task Entry) : bool :=
  match t with
  | Stopping _ _ | Processing _ _ _ _ => true
  | _ => false
  end.

(** [isRecording] says what the recorder of the cell does, [isTranscribing]
    is set exactly while one recording is processed, and a recorder that
    is stopping exists. *)
Definition aligned (s : Shared Entry) : Prop :=
  isRecording (state (world s))
  = match referred s with
    | Some r => recording r
    | None => false
    end
  /\ length (filter isProcessing (pending s))
     = (if isTranscribing (state (world s)) then 1 else 0)
  /\ forall recorder lastData,
       In (Stopping recorder lastData) (pending s) ->
       recorder < length (recorders s).

(** And the state shows the recorder of the cell. *)
Definition coherent (s : Shared Entry) : Prop :=
  aligned s /\ mediaRecorder (state (world s)) = referred s.

(** A part of [processRecording] under its [catch] block is suspended at
    the next await with the flags as they were, or has ended with the
    transcribing flag cleared. *)
Definition partEnds (w : World Entry)
    (r : outcome (option Waiting) * World Entry) : Prop :=
  isRecording (state (snd r)) = isRecording (state w)
  /\ ((exists at_, fst r = Ok (Some at_)
                   /\ isTranscribing (state (snd r)) = isTranscribing (state w))
      \/ (fst r = Ok None /\ isTranscribing (state (snd r)) = false)).

End Overlap.

(** * Properties *)

(** ** Code units *)

Ltac each_ascii c :=
  destruct c as [[] [] [] [] [] [] [] []].

Lemma wordChar_not_syntax (c : ascii) :
  isWordChar c = true -> Parser.isSyntaxChar c = false.
Proof. each_ascii c; vm_compute; congruence. Qed.

Lemma isWordChar_canon (c : ascii) : isWordChar c = wordCanon (canonicalize c).
Proof. each_ascii c; reflexivity. Qed.

Lemma sameCI_word (a b : ascii) :
  sameCI a b = true -> isWordChar a = isWordChar b.
Proof.
  unfold sameCI. intros H. apply N.eqb_eq in H.
  now rewrite !isWordChar_canon, H.
Qed.

Lemma sameCI_refl (a : ascii) : sameCI a a = true.
Proof. apply N.eqb_refl. Qed.

Lemma sameCI_sym (a b : ascii) : sameCI a b = sameCI b a.
Proof. apply N.eqb_sym. Qed.

Lemma sameCI_trans (a b c : ascii) :
  sameCI a b = true -> sameCI b c = true -> sameCI a c = true.
Proof.
  unfold sameCI. rewrite !N.eqb_eq. congruence.
Qed.

(** ** The matcher: positions only move forward *)

Section Matcher.

Lemma advances_refl (x : State) : advances x x.
Proof. split; lia. Qed.

Lemma advances_trans (x y z : State) :
  advances x y -> advances y z -> advances x z.
Proof. unfold advances. intros [? ?] [? ?]. split; lia. Qed.

Lemma charSetMatcher_forward (p : ascii -> bool) : forward (charSetMatcher p).
Proof.
  intros [pre suf] y. unfold charSetMatcher. cbn [fst snd].
  destruct suf as [|ch rest]; [intros []|].
  destruct (p ch); [|intros []]. intros [<-|[]].
  unfold advances. cbn. lia.
Qed.

Lemma flat_map_ext_in {A B} (f g : A -> list B) (l : list A) :
  (forall a, In a l -> f a = g a) -> flat_map f l = flat_map g l.
Proof.
  induction l as [|a l IH]; intros H; [reflexivity|].
  cbn. rewrite H by now left. f_equal. apply IH. intros; apply H. now right.
Qed.

Lemma repeatMatcher_forward (m : State -> list State) :
  forward m ->
  forall fuel min max greedy, forward (repeatMatcher m fuel min max greedy).
Proof.
  intros Hm. induction fuel as [|fuel IH]; intros min max greedy x y; [intros []|].
  cbn [repeatMatcher].
  assert (Hiter : forall l,
    (forall z, In z l -> advances x z) ->
    In y (flat_map (fun z =>
            if (min =? 0) && (endIndex z =? endIndex x) then []
            else repeatMatcher m fuel (pred min) (option_map pred max) greedy z) l) ->
    advances x y).
  { intros l Hl Hy. apply in_flat_map in Hy as (z & Hz & Hy).
    destruct ((min =? 0) && (endIndex z =? endIndex x)); [destruct Hy|].
    eapply advances_trans; [apply Hl, Hz|]. eapply IH, Hy. }
  destruct max as [[|max]|].
  - intros [<-|[]]. apply advances_refl.
  - destruct min as [|min]; [destruct greedy|].
    + intros Hy. apply in_app_or in Hy as [Hy|[<-|[]]];
        [eapply Hiter, Hy; apply Hm | apply advances_refl].
    + intros [<-|Hy]; [apply advances_refl | eapply Hiter, Hy; apply Hm].
    + intros Hy. eapply Hiter, Hy; apply Hm.
  - destruct min as [|min]; [destruct greedy|].
    + intros Hy. apply in_app_or in Hy as [Hy|[<-|[]]];
        [eapply Hiter, Hy; apply Hm | apply advances_refl].
    + intros [<-|Hy]; [apply advances_refl | eapply Hiter, Hy; apply Hm].
    + intros Hy. eapply Hiter, Hy; apply Hm.
Qed.

Lemma matchR_forward (r : regex) : forward (matchR r).
Proof.
  induction r; intros x y; cbn [matchR];
    try apply charSetMatcher_forward.
  - intros [<-|[]]. apply advances_refl.
  - destruct (fst x); [|intros []]. intros [<-|[]]. apply advances_refl.
  - destruct (snd x); [|intros []]. intros [<-|[]]. apply advances_refl.
  - destruct (xorb _ _); [|intros []]. intros [<-|[]]. apply advances_refl.
  - intros Hy. apply in_flat_map in Hy as (z & Hz & Hy).
    eapply advances_trans; [apply IHr1, Hz | apply IHr2, Hy].
  - intros Hy. apply in_app_or in Hy as [Hy|Hy]; [apply IHr1, Hy | apply IHr2, Hy].
  - apply IHr.
  - apply repeatMatcher_forward, IHr.
Qed.

(** The iterations of a repetition are bounded by [min] and the input that
    is left: any fuel above that bound gives the same results. *)
Lemma repeatMatcher_fuel (m : State -> list State) :
  forward m ->
  forall fuel1 fuel2 min max greedy x,
    min + length (snd x) < fuel1 ->
    min + length (snd x) < fuel2 ->
    repeatMatcher m fuel1 min max greedy x
    = repeatMatcher m fuel2 min max greedy x.
Proof.
  intros Hm. induction fuel1 as [|fuel1 IH];
    intros fuel2 min max greedy x H1 H2; [lia|].
  destruct fuel2 as [|fuel2]; [lia|]. cbn [repeatMatcher].
  assert (Hiter :
    flat_map (fun y =>
      if (min =? 0) && (endIndex y =? endIndex x) then []
      else repeatMatcher m fuel1 (pred min) (option_map pred max) greedy y) (m x)
    = flat_map (fun y =>
      if (min =? 0) && (endIndex y =? endIndex x) then []
      else repeatMatcher m fuel2 (pred min) (option_map pred max) greedy y) (m x)).
  { apply flat_map_ext_in. intros y Hy. destruct (Hm x y Hy) as [Hle Hsum].
    destruct ((min =? 0) && (endIndex y =? endIndex x)) eqn:E; [reflexivity|].
    apply andb_false_iff in E. unfold endIndex in E.
    rewrite Nat.eqb_neq, Nat.eqb_neq in E.
    apply IH; destruct min; cbn [pred]; lia. }
  now rewrite Hiter.
Qed.

(** The repetition satisfies the equation of [RepeatMatcher]. *)
Lemma matchR_Repeat (min : nat) (max : option nat) (greedy : bool)
    (a : regex) (x : State) :
  matchR (Repeat min max greedy a) x
  = match max with
    | Some 0 => [x]
    | _ =>
      let d (y : State) :=
        if (min =? 0) && (endIndex y =? endIndex x) then []
        else matchR (Repeat (pred min) (option_map pred max) greedy a) y in
      let iter := flat_map d (matchR a x) in
      match min with
      | S _ => iter
      | 0 => if greedy then iter ++ [x] else x :: iter
      end
    end.
Proof.
  cbn [matchR repeatMatcher].
  assert (Hiter :
    flat_map (fun y =>
      if (min =? 0) && (endIndex y =? endIndex x) then []
      else repeatMatcher (matchR a) (min + length (snd x)) (pred min)
             (option_map pred max) greedy y) (matchR a x)
    = flat_map (fun y =>
      if (min =? 0) && (endIndex y =? endIndex x) then []
      else repeatMatcher (matchR a) (S (pred min + length (snd y))) (pred min)
             (option_map pred max) greedy y) (matchR a x)).
  { apply flat_map_ext_in. intros y Hy.
    destruct (matchR_forward a x y Hy) as [Hle Hsum].
    destruct ((min =? 0) && (endIndex y =? endIndex x)) eqn:E; [reflexivity|].
    apply andb_false_iff in E. unfold endIndex in E.
    rewrite Nat.eqb_neq, Nat.eqb_neq in E.
    apply repeatMatcher_fuel; [apply matchR_forward | |];
      destruct min; cbn [pred]; lia. }
  cbv zeta. now rewrite Hiter.
Qed.

End Matcher.

(** ** The pattern reader needs no more fuel than the pattern is long *)

Section ParserFuel.

Import Parser.

Lemma spanDigits_length (p : text) :
  length (snd (spanDigits p)) <= length p.
Proof.
  induction p as [|d p IH]; [reflexivity|].
  cbn [spanDigits]. destruct (isDigit d); [|reflexivity].
  destruct (spanDigits p). cbn in *. lia.
Qed.

Lemma bracedQuantifier_length (p rest : text) (min : nat) (max : option nat) :
  bracedQuantifier p = Some (min, max, rest) -> length rest <= length p.
Proof.
  unfold bracedQuantifier.
  pose proof (spanDigits_length p) as H1.
  destruct (spanDigits p) as [ds r1]. cbn [snd] in H1.
  destruct ds as [|d ds]; [discriminate|].
  destruct r1 as [|c1 r1]; [discriminate|].
  destruct (Ascii.ascii_dec c1 "}") as [->|Hc1].
  { intros H. injection H as _ _ <-. cbn in H1. lia. }
  destruct (Ascii.ascii_dec c1 ",") as [->|Hc1'].
  2:{ revert Hc1 Hc1'. each_ascii c1; try discriminate; congruence. }
  destruct r1 as [|c2 r2].
  { cbn. discriminate. }
  destruct (Ascii.ascii_dec c2 "}") as [->|Hc2].
  { intros H. injection H as _ _ <-. cbn in H1. lia. }
  pose proof (spanDigits_length (c2 :: r2)) as H2.
  assert (E : forall A (x y : A),
    match c2 with "}"%char => x | _ => y end = y).
  { intros A x y. revert Hc2. each_ascii c2; try reflexivity; congruence. }
  rewrite E.
  destruct (spanDigits (c2 :: r2)) as [ds' r3]. cbn [snd] in H2.
  destruct ds' as [|d' ds']; [discriminate|].
  destruct r3 as [|c3 r3]; [discriminate|].
  destruct (Ascii.ascii_dec c3 "}") as [->|Hc3].
  { intros H. injection H as _ _ <-. cbn in H1, H2. lia. }
  revert Hc3. each_ascii c3; try discriminate; congruence.
Qed.

Lemma lazyMark_length (p : text) : length (snd (lazyMark p)) <= length p.
Proof.
  destruct p as [|c p]; [reflexivity|].
  unfold lazyMark. each_ascii c; cbn; lia.
Qed.

(** Every step of the reader takes one character at least. *)
Lemma parseLoop_fuel (fuel1 : nat) :
  forall fuel2 p top stack,
    length p < fuel1 -> length p < fuel2 ->
    parseLoop fuel1 p top stack = parseLoop fuel2 p top stack.
Proof.
  induction fuel1 as [|fuel1 IH]; intros fuel2 p top stack H1 H2; [lia|].
  destruct fuel2 as [|fuel2]; [lia|].
  destruct p as [|c p]; [reflexivity|].
  cbn [length] in H1, H2. cbn [parseLoop].
  destruct (negb (isSyntaxChar c)); [apply IH; lia|].
  assert (Hq : forall min max rest,
    length rest <= length p ->
    (let (greedy, rest') := lazyMark rest in
     match quantify min max greedy top with
     | Some top' => parseLoop fuel1 rest' top' stack
     | None => SyntaxError "Nothing to repeat"
     end)
    = (let (greedy, rest') := lazyMark rest in
       match quantify min max greedy top with
       | Some top' => parseLoop fuel2 rest' top' stack
       | None => SyntaxError "Nothing to repeat"
       end)).
  { intros min max rest Hrest. pose proof (lazyMark_length rest) as Hl.
    destruct (lazyMark rest) as [greedy rest']. cbn [snd] in Hl.
    destruct (quantify min max greedy top); [apply IH; lia|reflexivity]. }
  each_ascii c; try reflexivity; try (apply IH; lia); try (apply Hq; lia).
  all: lazymatch goal with
       | |- context [bracedQuantifier ?q] =>
           pose proof (bracedQuantifier_length q) as Hb;
           destruct (bracedQuantifier q) as [[[min max] rest]|]; [|apply IH; lia];
           specialize (Hb rest min max eq_refl);
           destruct (maxBelow max min); [reflexivity|]; apply Hq; lia
       | |- context [escapeAtom] =>
           destruct p as [|e p']; [reflexivity|];
           destruct (escapeAtom e); [apply IH; cbn in *; lia|reflexivity]
       | |- context [newFrame] =>
           destruct p as [|c1 p1]; [apply IH; cbn; lia|];
           destruct (Ascii.ascii_dec c1 "?") as [->|Hc1];
           [ destruct p1 as [|c2 p2]; [reflexivity|];
             destruct (Ascii.ascii_dec c2 ":") as [->|Hc2];
             [ apply IH; cbn in *; lia
             | revert Hc2; each_ascii c2; try reflexivity; congruence ]
           | revert Hc1; each_ascii c1;
             try (intros _; apply IH; cbn in *; lia); congruence ]
       | |- _ => destruct stack; [reflexivity|apply IH; lia]
       end.
Qed.

(** [new RegExp] reads the whole pattern: more fuel changes nothing. *)
Lemma new_RegExp_fuel (pattern : text) (fuel : nat) :
  length pattern < fuel ->
  new_RegExp pattern = parseLoop fuel pattern (newFrame false) [].
Proof.
  intros H. unfold new_RegExp, parse. apply parseLoop_fuel; lia.
Qed.

End ParserFuel.

(** ** The pattern of a word key *)

Section WordKeyPattern.

Import Parser.

Lemma parseLoop_literal (c : ascii) (p : text) fuel top stack :
  isSyntaxChar c = false ->
  parseLoop (S fuel) (c :: p) top stack
  = parseLoop fuel p (pushTerm (Char c) top) stack.
Proof. intros H. cbn [parseLoop]. now rewrite H. Qed.

Lemma parseLoop_escape (e : ascii) (t : regex) (p : text) fuel top stack :
  escapeAtom e = Some t ->
  parseLoop (S fuel) ("\"%char :: e :: p) top stack
  = parseLoop fuel p (pushTerm t top) stack.
Proof.
  intros H. cbn [parseLoop].
  change (isSyntaxChar "\"%char) with true. cbn [negb]. now rewrite H.
Qed.

Lemma parseLoop_word (k : text) :
  forallb isWordChar k = true ->
  forall fuel rest top stack,
    parseLoop (length k + fuel) (k ++ rest) top stack
    = parseLoop fuel rest
        (mkFrame (capturing top) (alts top) (rev (map Char k) ++ terms top)) stack.
Proof.
  induction k as [|c k IH]; intros Hk fuel rest top stack.
  - now destruct top.
  - simpl in Hk. apply andb_true_iff in Hk as [Hc Hk].
    change (length (c :: k) + fuel) with (S (length k + fuel)).
    change ((c :: k) ++ rest) with (c :: (k ++ rest)).
    rewrite parseLoop_literal by now apply wordChar_not_syntax.
    rewrite IH by assumption. cbn [pushTerm capturing alts terms map rev].
    now rewrite <- app_assoc.
Qed.

(** A key of word characters is read as itself between two word-boundary
    assertions. *)
Lemma new_RegExp_word (k : text) :
  forallb isWordChar k = true ->
  new_RegExp (str "\b" ++ k ++ str "\b") = Parsed (keyPattern k).
Proof.
  intros Hk. unfold new_RegExp, parse.
  replace (S (length (str "\b" ++ k ++ str "\b")))
    with (S (length k + 4))
    by (rewrite !length_app; cbn [str list_ascii_of_string length]; lia).
  change (str "\b" ++ k ++ str "\b")
    with ("\"%char :: "b"%char :: (k ++ "\"%char :: "b"%char :: [])).
  rewrite (parseLoop_escape "b" (WordB false)) by reflexivity.
  rewrite parseLoop_word by assumption.
  change 4 with (S 3).
  rewrite (parseLoop_escape "b" (WordB false)) by reflexivity.
  cbn [parseLoop]. unfold keyPattern. f_equal.
  unfold close, pushTerm. cbn [capturing alts terms rev app].
  rewrite rev_app_distr, rev_involutive. reflexivity.
Qed.

End WordKeyPattern.

(** ** Matching the pattern of a word key *)

Section WordKeyMatch.

Lemma eqCI_trans (a b c : text) :
  eqCI a b = true -> eqCI b c = true -> eqCI a c = true.
Proof.
  revert b c. induction a as [|x a IH]; intros [|y b] [|z c]; cbn; try congruence.
  rewrite !andb_true_iff. intros [Hxy Hab] [Hyz Hbc]. split.
  - eapply sameCI_trans; eassumption.
  - eapply IH; eassumption.
Qed.

Lemma eqCI_sym (a b : text) : eqCI a b = eqCI b a.
Proof.
  revert b. induction a as [|x a IH]; intros [|y b]; cbn; try reflexivity.
  now rewrite sameCI_sym, IH.
Qed.

(** The characters of the key, then the closing boundary: on a run of word
    characters [w] followed by no word character, they match when [w] is
    the key up to case, and take the whole of [w]. *)
Lemma matchR_key_tail (k : text) :
  forallb isWordChar k = true ->
  forall w pre rest,
    forallb isWordChar w = true ->
    startsWord rest = false ->
    k <> [] \/ startsWord pre = true ->
    matchR (fold_right Seq (Seq (WordB false) Empty) (map Char k)) (pre, w ++ rest)
    = if eqCI k w then [(rev w ++ pre, rest)] else [].
Proof.
  induction k as [|c k IH]; intros Hk w pre rest Hw Hrest Hpre.
  - destruct Hpre as [Hpre|Hpre]; [congruence|].
    cbn [map fold_right matchR]. unfold wordBefore, wordAfter. cbn [fst snd].
    rewrite Hpre. destruct w as [|ch w].
    + cbn [app]. rewrite Hrest. reflexivity.
    + cbn in Hw. apply andb_true_iff in Hw as [Hch _].
      cbn [app eqCI startsWord]. rewrite Hch. reflexivity.
  - cbn in Hk. apply andb_true_iff in Hk as [Hc Hk].
    cbn [map fold_right matchR]. unfold charSetMatcher. cbn [fst snd].
    destruct w as [|ch w].
    + cbn [app eqCI]. destruct rest as [|r rest]; [reflexivity|].
      cbn in Hrest. destruct (sameCI c r) eqn:E; [|reflexivity].
      apply sameCI_word in E. congruence.
    + cbn in Hw. apply andb_true_iff in Hw as [Hch Hw].
      cbn [app eqCI]. destruct (sameCI c ch) eqn:E; [|reflexivity].
      cbn [flat_map andb]. rewrite app_nil_r.
      specialize (IH Hk w (ch :: pre) rest Hw Hrest (or_intror Hch)).
      etransitivity; [exact IH|].
      cbn [rev]. now rewrite <- app_assoc.
Qed.

Lemma keyPattern_unfold (k : text) (x : State) :
  matchR (keyPattern k) x
  = if xorb (wordBefore x) (wordAfter x)
    then matchR (fold_right Seq (Seq (WordB false) Empty) (map Char k)) x
    else [].
Proof.
  unfold keyPattern, Parser.seqOf. cbn [fold_right matchR xorb].
  rewrite fold_right_app. cbn [fold_right].
  destruct (xorb (wordBefore x) (wordAfter x)); cbn [flat_map].
  - now rewrite app_nil_r.
  - reflexivity.
Qed.

(** At the start of a word of the text, the pattern matches when the word
    is the key up to case. *)
Lemma matchR_key_at_word (k w pre rest : text) :
  isWordKey k = true ->
  forallb isWordChar w = true -> w <> [] ->
  startsWord pre = false -> startsWord rest = false ->
  matchR (keyPattern k) (pre, w ++ rest)
  = if eqCI k w then [(rev w ++ pre, rest)] else [].
Proof.
  intros Hk Hw Hne Hpre Hrest. apply andb_true_iff in Hk as [Hk1 Hk2].
  rewrite keyPattern_unfold. unfold wordBefore, wordAfter. cbn [fst snd].
  rewrite Hpre.
  destruct w as [|ch w]; [congruence|].
  pose proof Hw as Hw'. cbn in Hw'. apply andb_true_iff in Hw' as [Hch _].
  cbn [app startsWord]. rewrite Hch. cbn [xorb].
  apply (matchR_key_tail k Hk2 (ch :: w) pre rest Hw Hrest).
  left. intros ->. discriminate.
Qed.

(** Inside a word, or before a character that is no word character, the
    pattern does not match. *)
Lemma matchR_key_inside (k : text) (pre suf : text) :
  startsWord pre = true -> startsWord suf = true ->
  matchR (keyPattern k) (pre, suf) = [].
Proof.
  intros Hpre Hsuf. rewrite keyPattern_unfold.
  unfold wordBefore, wordAfter. cbn [fst snd]. now rewrite Hpre, Hsuf.
Qed.

Lemma matchR_key_at_sep (k : text) (pre suf : text) :
  isWordKey k = true ->
  startsWord suf = false ->
  matchR (keyPattern k) (pre, suf) = [].
Proof.
  intros Hk Hsuf. apply andb_true_iff in Hk as [Hk1 Hk2].
  rewrite keyPattern_unfold.
  destruct (xorb _ _); [|reflexivity].
  destruct k as [|c k]; [discriminate|].
  assert (Hne : c :: k <> []) by discriminate.
  exact (matchR_key_tail (c :: k) Hk2 [] pre suf eq_refl Hsuf (or_introl Hne)).
Qed.

End WordKeyMatch.

(** ** Words of a text *)

Section Words.

Lemma untokenize_tokenize (s : text) : flat_map tokenText (tokenize s) = s.
Proof.
  induction s as [|c s IH]; [reflexivity|].
  cbn [tokenize]. destruct (isWordChar c).
  - destruct (tokenize s) as [|[w|c'] ts]; cbn in *; now rewrite IH.
  - cbn. now rewrite IH.
Qed.

Lemma tokenize_sep (c : ascii) (s : text) :
  isWordChar c = false -> tokenize (c :: s) = Sep c :: tokenize s.
Proof. intros H. cbn. now rewrite H. Qed.

(** A text that starts with no word character has no word first. *)
Lemma tokenize_no_word_first (s : text) :
  startsWord s = false ->
  forall c, tokenize (c :: s) =
    if isWordChar c then Word [c] :: tokenize s else Sep c :: tokenize s.
Proof.
  intros Hs c. cbn [tokenize]. destruct (isWordChar c); [|reflexivity].
  destruct s as [|c' s]; [reflexivity|].
  cbn in Hs. cbn [tokenize]. now rewrite Hs.
Qed.

(** A run of word characters followed by none is one word of the text. *)
Lemma tokenize_word_run (w rest : text) :
  w <> [] -> forallb isWordChar w = true -> startsWord rest = false ->
  tokenize (w ++ rest) = Word w :: tokenize rest.
Proof.
  induction w as [|c w IH]; intros Hne Hw Hrest; [congruence|].
  cbn in Hw. apply andb_true_iff in Hw as [Hc Hw].
  destruct w as [|c' w].
  - cbn [app]. rewrite tokenize_no_word_first by assumption. now rewrite Hc.
  - change ((c :: c' :: w) ++ rest) with (c :: ((c' :: w) ++ rest)).
    cbn [tokenize]. rewrite Hc. rewrite IH by (assumption || discriminate).
    reflexivity.
Qed.

(** Every text is a run of word characters followed by a text that starts
    with none. *)
Lemma word_run_split (s : text) :
  exists w rest, s = w ++ rest
    /\ forallb isWordChar w = true /\ startsWord rest = false.
Proof.
  induction s as [|c s (w & rest & -> & Hw & Hrest)].
  - now exists [], [].
  - destruct (isWordChar c) eqn:Hc.
    + exists (c :: w), rest. cbn. now rewrite Hc, Hw.
    + exists [], (c :: w ++ rest). cbn. now rewrite Hc.
Qed.

(** Induction on a text, a separator or a whole word at a time. *)
Lemma text_runs_ind (P : text -> Prop) :
  P [] ->
  (forall c s, isWordChar c = false -> P s -> P (c :: s)) ->
  (forall w rest, w <> [] -> forallb isWordChar w = true ->
     startsWord rest = false -> P rest -> P (w ++ rest)) ->
  forall s, P s.
Proof.
  intros Hnil Hsep Hword s.
  remember (length s) as n eqn:Hn.
  revert s Hn. induction n as [n IH] using lt_wf_ind. intros s Hn.
  destruct s as [|c s]; [exact Hnil|].
  destruct (isWordChar c) eqn:Hc.
  - destruct (word_run_split s) as (w & rest & -> & Hw & Hrest).
    change (c :: w ++ rest) with ((c :: w) ++ rest).
    apply Hword; try assumption; try discriminate.
    + cbn. now rewrite Hc, Hw.
    + apply (IH (length rest)); [|reflexivity].
      subst n. cbn. rewrite length_app. lia.
  - apply Hsep; [assumption|].
    apply (IH (length s)); [subst n; cbn; lia | reflexivity].
Qed.

Lemma mapWords_sep (g : text -> text) (c : ascii) (s : text) :
  isWordChar c = false -> mapWords g (c :: s) = c :: mapWords g s.
Proof. intros H. unfold mapWords. now rewrite tokenize_sep. Qed.

Lemma mapWords_word_run (g : text -> text) (w rest : text) :
  w <> [] -> forallb isWordChar w = true -> startsWord rest = false ->
  mapWords g (w ++ rest) = g w ++ mapWords g rest.
Proof.
  intros. unfold mapWords. now rewrite tokenize_word_run.
Qed.

Lemma mapWords_word (g : text -> text) (w : text) :
  w <> [] -> forallb isWordChar w = true -> mapWords g w = g w.
Proof.
  intros Hne Hw.
  rewrite <- (app_nil_r w) at 1.
  rewrite mapWords_word_run by auto. cbn. apply app_nil_r.
Qed.

Lemma startsWord_mapWords (g : text -> text) (s : text) :
  startsWord s = false -> startsWord (mapWords g s) = false.
Proof.
  destruct s as [|c s]; [reflexivity|]. cbn [startsWord]. intros Hc.
  rewrite mapWords_sep by assumption. exact Hc.
Qed.

(** The words of a text are runs of word characters, none empty. *)
Lemma wordsOf_tokenize (s : text) :
  Forall (fun w => w <> [] /\ forallb isWordChar w = true) (wordsOf (tokenize s)).
Proof.
  induction s as [| c s IH | w rest Hne Hw Hrest IH] using text_runs_ind.
  - constructor.
  - now rewrite tokenize_sep.
  - rewrite tokenize_word_run by assumption. cbn. constructor; auto.
Qed.

(** Rewriting the words of a text depends on the words of the text only. *)
Lemma mapWords_ext (g g' : text -> text) (s : text) :
  (forall w, In w (wordsOf (tokenize s)) -> g w = g' w) ->
  mapWords g s = mapWords g' s.
Proof.
  unfold mapWords. induction (tokenize s) as [|[w|c] ts IH]; intros H.
  - reflexivity.
  - cbn. rewrite H by now left. f_equal. apply IH. intros; apply H. now right.
  - cbn. f_equal. apply IH. exact H.
Qed.

Lemma mapWords_id (g : text -> text) (s : text) :
  (forall w, In w (wordsOf (tokenize s)) -> g w = w) -> mapWords g s = s.
Proof.
  intros H. rewrite (mapWords_ext g (fun w => w)) by assumption.
  rewrite <- (untokenize_tokenize s) at 2. unfold mapWords.
  apply flat_map_ext. now intros [w|c].
Qed.

(** Rewriting the words twice is rewriting each word, then the words of what
    it became. *)
Lemma mapWords_compose (g1 g2 : text -> text) (s : text) :
  mapWords g2 (mapWords g1 s) = mapWords (fun w => mapWords g2 (g1 w)) s.
Proof.
  induction s as [| c s Hc IH | w rest Hne Hw Hrest IH] using text_runs_ind.
  - reflexivity.
  - now rewrite !mapWords_sep, IH by assumption.
  - rewrite (mapWords_word_run g1 w rest) by assumption.
    rewrite (mapWords_word_run (fun w => mapWords g2 (g1 w)) w rest) by assumption.
    rewrite <- IH.
    generalize (startsWord_mapWords g1 rest Hrest).
    generalize (mapWords g1 rest) as tail. generalize (g1 w) as head.
    clear. intros head tail Htail.
    unfold mapWords. rewrite <- flat_map_app. f_equal.
    induction head as [| c s Hc IH | w rest Hne Hw Hrest IH] using text_runs_ind.
    + reflexivity.
    + cbn [app]. rewrite !tokenize_sep by assumption. cbn. now rewrite IH.
    + rewrite <- app_assoc.
      rewrite (tokenize_word_run w rest) by assumption.
      destruct rest as [|c rest].
      * cbn [app] in *. rewrite tokenize_word_run by assumption. reflexivity.
      * rewrite tokenize_word_run by assumption. now rewrite IH.
Qed.

End Words.

(** ** The replace loop *)

Lemma getSubstitution_plain (ncap : nat) (matched before after r : text) :
  plainText r = true ->
  getSubstitution ncap matched before after r = Some r.
Proof.
  unfold plainText. induction r as [|c r IH]; [reflexivity|].
  cbn [existsb]. rewrite negb_orb, andb_true_iff. intros [Hc Hr].
  specialize (IH Hr).
  revert Hc. each_ascii c; cbn [getSubstitution]; rewrite ?IH;
    try reflexivity; intros Hc; discriminate Hc.
Qed.


Section ReplaceLoop.

Variable r : regex.
Variable template : text.

Lemma regExpExec_eq (pre suf : text) :
  regExpExec r pre suf
  = match matchR r (pre, suf) with
    | y :: _ => Some ([], (pre, suf), y)
    | [] =>
        match suf with
        | [] => None
        | c :: suf' =>
            match regExpExec r (c :: pre) suf' with
            | Some (skipped, s, y) => Some (c :: skipped, s, y)
            | None => None
            end
        end
    end.
Proof. destruct suf; reflexivity. Qed.

Lemma replaceLoop_eq (fuel : nat) (x : State) :
  replaceLoop r template (S fuel) x
  = match regExpExec r (fst x) (snd x) with
    | None => Some (snd x)
    | Some (skipped, s, y) =>
        let matched := matchedText s y in
        match getSubstitution (countGroups r) matched (rev (fst s)) (snd y) template with
        | None => None
        | Some replacement =>
            let continue :=
              match matched, snd y with
              | [], [] => Some []
              | [], c :: rest =>
                  option_map (cons c) (replaceLoop r template fuel (c :: fst y, rest))
              | _ :: _, _ => replaceLoop r template fuel y
              end in
            option_map (fun tail => skipped ++ replacement ++ tail) continue
        end
    end.
Proof. reflexivity. Qed.

Lemma regExpExec_forward (suf : text) :
  forall pre skipped s y,
    regExpExec r pre suf = Some (skipped, s, y) ->
    length (snd s) <= length suf /\ advances s y.
Proof.
  induction suf as [|c suf IH]; intros pre skipped s y; rewrite regExpExec_eq.
  - destruct (matchR r (pre, [])) as [|y' l] eqn:E; [discriminate|].
    intros H. injection H as _ <- <-. split; [reflexivity|].
    apply (matchR_forward r (pre, []) y'). rewrite E. now left.
  - destruct (matchR r (pre, c :: suf)) as [|y' l] eqn:E.
    + destruct (regExpExec r (c :: pre) suf) as [[[sk s'] y']|] eqn:E';
        [|discriminate].
      intros H. injection H as _ <- <-.
      destruct (IH _ _ _ _ E') as [H1 H2]. split; [cbn; lia|assumption].
    + intros H. injection H as _ <- <-. split; [reflexivity|].
      apply (matchR_forward r (pre, c :: suf) y'). rewrite E. now left.
Qed.

Lemma matchedText_nil (s y : State) :
  advances s y -> matchedText s y = [] -> length (snd y) = length (snd s).
Proof.
  unfold matchedText, advances. intros [Hle _] H.
  apply (f_equal (@length ascii)) in H. rewrite length_firstn in H.
  cbn in H. lia.
Qed.

(** Every turn of the loop leaves less input: any fuel above the length of
    the input gives the same result. *)
Lemma replaceLoop_fuel (fuel1 : nat) :
  forall fuel2 x,
    length (snd x) < fuel1 -> length (snd x) < fuel2 ->
    replaceLoop r template fuel1 x = replaceLoop r template fuel2 x.
Proof.
  induction fuel1 as [|fuel1 IH]; intros fuel2 x H1 H2; [lia|].
  destruct fuel2 as [|fuel2]; [lia|]. rewrite !replaceLoop_eq.
  destruct (regExpExec r (fst x) (snd x)) as [[[skipped s] y]|] eqn:E;
    [|reflexivity].
  destruct (regExpExec_forward _ _ _ _ _ E) as [Hs Hy]. cbv zeta.
  destruct (getSubstitution _ _ _ _ _); [|reflexivity].
  destruct (matchedText s y) as [|m ms] eqn:Em.
  - pose proof (matchedText_nil s y Hy Em) as Hlen.
    destruct (snd y) as [|c rest] eqn:Ey; [reflexivity|].
    rewrite (IH fuel2); [reflexivity | |]; cbn in *; lia.
  - assert (length (snd y) < length (snd s)).
    { unfold matchedText in Em. destruct Hy as [Hle _].
      destruct (length (snd s) - length (snd y)) eqn:Ed; [discriminate|]. lia. }
    rewrite (IH fuel2); [reflexivity | |]; lia.
Qed.

(** With a template that has no dollar sign, the loop gives a result. *)
Lemma replaceLoop_total (fuel : nat) :
  plainText template = true ->
  forall x, length (snd x) < fuel ->
  exists out, replaceLoop r template fuel x = Some out.
Proof.
  intros Hplain. induction fuel as [|fuel IH]; intros x Hx; [lia|].
  rewrite replaceLoop_eq.
  destruct (regExpExec r (fst x) (snd x)) as [[[skipped s] y]|] eqn:E;
    [|eauto].
  destruct (regExpExec_forward _ _ _ _ _ E) as [Hs Hy]. cbv zeta.
  rewrite getSubstitution_plain by assumption.
  destruct (matchedText s y) as [|m ms] eqn:Em.
  - pose proof (matchedText_nil s y Hy Em) as Hlen.
    destruct (snd y) as [|c rest] eqn:Ey; [cbn; eauto|].
    destruct (IH (c :: fst y, rest)) as [out ->]; [cbn in *; lia|]. cbn. eauto.
  - assert (length (snd y) < length (snd s)).
    { unfold matchedText in Em. destruct Hy as [Hle _].
      destruct (length (snd s) - length (snd y)) eqn:Ed; [discriminate|]. lia. }
    destruct (IH y) as [out ->]; [lia|]. cbn. eauto.
Qed.

(** Where the pattern does not match, the code unit is copied and the
    search goes on. *)
Lemma replaceLoop_skip (fuel : nat) (pre : text) (c : ascii) (rest : text) :
  matchR r (pre, c :: rest) = [] ->
  replaceLoop r template (S fuel) (pre, c :: rest)
  = option_map (cons c) (replaceLoop r template (S fuel) (c :: pre, rest)).
Proof.
  intros Hm. rewrite !replaceLoop_eq. cbn [fst snd].
  rewrite (regExpExec_eq pre), Hm.
  destruct (regExpExec r (c :: pre) rest) as [[[skipped s] y]|]; [|reflexivity].
  cbv zeta.
  destruct (getSubstitution _ _ _ _ _); [|reflexivity].
  match goal with |- option_map _ ?k = _ => destruct k end; reflexivity.
Qed.

Lemma replaceLoop_end (fuel : nat) (pre : text) :
  matchR r (pre, []) = [] ->
  replaceLoop r template (S fuel) (pre, []) = Some [].
Proof.
  intros Hm. rewrite replaceLoop_eq. cbn [fst snd].
  now rewrite regExpExec_eq, Hm.
Qed.

(** Where the pattern matches a text that is not empty, the expanded
    template takes its place and the search goes on after it. *)
Lemma replaceLoop_hit (fuel : nat) (pre m rest : text) (others : list State)
    (expansion : text) :
  m <> [] ->
  matchR r (pre, m ++ rest) = (rev m ++ pre, rest) :: others ->
  getSubstitution (countGroups r) m (rev pre) rest template = Some expansion ->
  replaceLoop r template (S fuel) (pre, m ++ rest)
  = option_map (app expansion) (replaceLoop r template fuel (rev m ++ pre, rest)).
Proof.
  intros Hne Hm Hsub. rewrite replaceLoop_eq. cbn [fst snd].
  rewrite regExpExec_eq, Hm. cbv zeta.
  unfold matchedText. cbn [fst snd].
  replace (length (m ++ rest) - length rest) with (length m)
    by (rewrite length_app; lia).
  rewrite firstn_app, Nat.sub_diag, firstn_all. cbn [firstn]. rewrite app_nil_r.
  rewrite Hsub. destruct m as [|c m]; [congruence|].
  cbn [app]. destruct (replaceLoop r template fuel _); reflexivity.
Qed.

(** [replace] with a template that has no dollar sign gives a result for
    every pattern and every input. *)
Lemma replace_total (input : text) :
  plainText template = true ->
  exists out, replace r template input = Some out.
Proof.
  intros H. unfold replace. apply replaceLoop_total; [assumption|cbn; lia].
Qed.

End ReplaceLoop.

(** ** One entry with a word key *)

Section WordKeyReplace.

Variable k : text.
Variable r : text.
Hypothesis Hk : isWordKey k = true.
Hypothesis Hr : plainText r = true.

Lemma replaceLoop_through_word (w : text) :
  forallb isWordChar w = true ->
  forall fuel pre rest,
    startsWord pre = true ->
    replaceLoop (keyPattern k) r (S fuel) (pre, w ++ rest)
    = option_map (app w) (replaceLoop (keyPattern k) r (S fuel) (rev w ++ pre, rest)).
Proof.
  induction w as [|c w IH]; intros Hw fuel pre rest Hpre.
  - cbn [app rev].
    now destruct (replaceLoop (keyPattern k) r (S fuel) (pre, rest)).
  - cbn in Hw. apply andb_true_iff in Hw as [Hc Hw].
    change ((c :: w) ++ rest) with (c :: (w ++ rest)).
    rewrite replaceLoop_skip by (apply matchR_key_inside; assumption).
    rewrite IH by assumption.
    cbn [rev]. rewrite <- app_assoc. cbn [app].
    now destruct (replaceLoop (keyPattern k) r (S fuel) (rev w ++ c :: pre, rest)).
Qed.

Lemma replaceLoop_word_key (s : text) :
  forall fuel pre,
    length s < fuel ->
    startsWord pre = false \/ startsWord s = false ->
    replaceLoop (keyPattern k) r fuel (pre, s) = Some (mapWords (replaceWord k r) s).
Proof.
  induction s as [| c s Hc IH | w rest Hne Hw Hrest IH] using text_runs_ind;
    intros fuel pre Hfuel Hpre.
  - destruct fuel as [|fuel]; [inversion Hfuel|].
    apply replaceLoop_end. now apply matchR_key_at_sep.
  - destruct fuel as [|fuel]; [inversion Hfuel|].
    rewrite replaceLoop_skip by (apply matchR_key_at_sep; [exact Hk|exact Hc]).
    rewrite IH; [ | cbn in Hfuel; lia | left; exact Hc ].
    now rewrite mapWords_sep.
  - assert (Hstart : startsWord (w ++ rest) = true).
    { destruct w as [|c w]; [congruence|]. cbn in Hw |- *.
      now apply andb_true_iff in Hw as [-> _]. }
    destruct Hpre as [Hpre|Hpre]; [|congruence].
    destruct fuel as [|fuel]; [inversion Hfuel|].
    rewrite length_app in Hfuel.
    assert (0 < length w) by (destruct w; [congruence|cbn; lia]).
    rewrite mapWords_word_run by assumption.
    pose proof (matchR_key_at_word k w pre rest Hk Hw Hne Hpre Hrest) as Hm.
    unfold replaceWord. destruct (eqCI k w) eqn:E.
    + rewrite (replaceLoop_hit (keyPattern k) r fuel pre w rest [] r Hne Hm)
        by now apply getSubstitution_plain.
      rewrite IH; [reflexivity | lia | now right].
    + destruct w as [|c w]; [congruence|].
      cbn in Hw. apply andb_true_iff in Hw as [Hc Hw].
      change ((c :: w) ++ rest) with (c :: (w ++ rest)) in *.
      rewrite replaceLoop_skip by exact Hm.
      rewrite replaceLoop_through_word by assumption.
      rewrite IH; [ | cbn in Hfuel; lia | now right ].
      reflexivity.
Qed.

(** The replace call of an entry whose key is a word rewrites the words of
    the text that are the key, up to case. *)
Lemma replace_word_key (s : text) :
  replace (keyPattern k) r s = Some (mapWords (replaceWord k r) s).
Proof.
  unfold replace. apply replaceLoop_word_key; [lia | now left].
Qed.

End WordKeyReplace.

(** ** The dictionary pass on word keys *)

Section WordKeyDictionary.

Lemma replaceEntry_word_key (entry : DictionaryEntry) (s : text) :
  isWordKey (word entry) = true ->
  plainText (replacement entry) = true ->
  replaceEntry s entry
  = Ok (mapWords (replaceWord (word entry) (replacement entry)) s).
Proof.
  intros Hk Hr. unfold replaceEntry.
  pose proof Hk as Hk'. apply andb_true_iff in Hk' as [_ Hw].
  rewrite new_RegExp_word by assumption.
  now rewrite replace_word_key.
Qed.

Lemma isKey_false (d : list DictionaryEntry) (w : text) :
  isKey d w = false <-> forall e, In e d -> eqCI (word e) w = false.
Proof.
  unfold isKey. split.
  - intros H e He. destruct (eqCI (word e) w) eqn:E; [|reflexivity].
    rewrite <- H. symmetry. apply existsb_exists. now exists e.
  - intros H. destruct (existsb _ d) eqn:E; [|reflexivity].
    apply existsb_exists in E as (e & He & E). now rewrite H in E.
Qed.

Lemma lookupWord_not_key (d : list DictionaryEntry) (w : text) :
  isKey d w = false -> lookupWord d w = w.
Proof.
  induction d as [|e d IH]; [reflexivity|].
  cbn. intros H. apply orb_false_iff in H as [-> H]. auto.
Qed.

(** What a word becomes: itself when it is no key, the replacement of an
    entry with that key otherwise. *)
Lemma lookupWord_cases (d : list DictionaryEntry) (w : text) :
  (isKey d w = false /\ lookupWord d w = w)
  \/ exists e, In e d /\ eqCI (word e) w = true /\ lookupWord d w = replacement e.
Proof.
  induction d as [|e d IH]; [now left|].
  change (isKey (e :: d) w) with (eqCI (word e) w || isKey d w).
  cbn [lookupWord In]. destruct (eqCI (word e) w) eqn:E.
  - right. exists e. auto.
  - destruct IH as [[H1 H2]|(e' & H1 & H2 & H3)].
    + left. now rewrite H1.
    + right. exists e'. auto.
Qed.

Lemma vocabularyDisjoint_spec (d : list DictionaryEntry) :
  vocabularyDisjoint d = true <->
  forall e w, In e d -> In w (wordsOf (tokenize (replacement e))) ->
    isKey d w = false.
Proof.
  unfold vocabularyDisjoint, vocabulary. rewrite forallb_forall. split.
  - intros H e w He Hw. apply negb_true_iff, H. apply in_flat_map. now exists e.
  - intros H w Hw. apply in_flat_map in Hw as (e & He & Hw).
    apply negb_true_iff. eauto.
Qed.

Lemma isKey_cons_false (e : DictionaryEntry) (d : list DictionaryEntry) (w : text) :
  isKey (e :: d) w = false -> isKey d w = false.
Proof. cbn. intros H. now apply orb_false_iff in H. Qed.

Lemma disjoint_chainFree (d : list DictionaryEntry) :
  (forall e w, In e d -> In w (wordsOf (tokenize (replacement e))) ->
     isKey d w = false) ->
  chainFree d.
Proof.
  induction d as [|e d IH]; [constructor|]. intros H. split.
  - intros w Hw. apply (isKey_cons_false e). apply (H e); [now left|assumption].
  - apply IH. intros e' w He' Hw. apply (isKey_cons_false e).
    apply (H e'); [now right|assumption].
Qed.

(** On word keys whose replacements do not chain, the dictionary pass is the
    whole-word replacement of each word by the first entry with that key. *)
Lemma applyDictionary_whole_words (d : list DictionaryEntry) :
  wordKeys d = true -> plainReplacements d = true -> chainFree d ->
  forall s, applyDictionary d s = Ok (replaceWholeWords d s).
Proof.
  unfold replaceWholeWords.
  induction d as [|e d IH]; intros Hk Hr Hc s.
  - cbn. f_equal. symmetry. now apply mapWords_id.
  - cbn in Hk, Hr. apply andb_true_iff in Hk as [Hke Hk].
    apply andb_true_iff in Hr as [Hre Hr]. destruct Hc as [Hce Hc].
    cbn [applyDictionary]. rewrite replaceEntry_word_key by assumption.
    rewrite IH by assumption. f_equal.
    rewrite mapWords_compose. apply mapWords_ext. intros w Hw.
    pose proof (wordsOf_tokenize s) as Hwf. rewrite Forall_forall in Hwf.
    destruct (Hwf w Hw) as [Hne Hww].
    cbn [lookupWord]. unfold replaceWord. destruct (eqCI (word e) w).
    + apply mapWords_id. intros w' Hw'. apply lookupWord_not_key. auto.
    + now apply mapWords_word.
Qed.

(** Whole-word replacement twice is whole-word replacement once, when no
    word of a replacement is a key. *)
Lemma replaceWholeWords_idempotent (d : list DictionaryEntry) (s : text) :
  vocabularyDisjoint d = true ->
  replaceWholeWords d (replaceWholeWords d s) = replaceWholeWords d s.
Proof.
  intros Hv. rewrite vocabularyDisjoint_spec in Hv.
  unfold replaceWholeWords. rewrite mapWords_compose.
  apply mapWords_ext. intros w Hw.
  pose proof (wordsOf_tokenize s) as Hwf. rewrite Forall_forall in Hwf.
  destruct (Hwf w Hw) as [Hne Hww].
  destruct (lookupWord_cases d w) as [[_ H]|(e & He & _ & ->)].
  - rewrite H. rewrite mapWords_word by assumption. exact H.
  - apply mapWords_id. intros w' Hw'. apply lookupWord_not_key. eauto.
Qed.

(** With keys that differ up to case, a word has one entry at most. *)
Lemma lookupWord_unique (d : list DictionaryEntry) (e : DictionaryEntry) (w : text) :
  distinctKeys d = true -> In e d -> eqCI (word e) w = true ->
  lookupWord d w = replacement e.
Proof.
  induction d as [|e0 d IH]; intros Hd He Hw; [destruct He|].
  cbn in Hd. apply andb_true_iff in Hd as [Hd0 Hd].
  apply negb_true_iff in Hd0. destruct He as [->|He].
  - cbn. now rewrite Hw.
  - cbn. destruct (eqCI (word e0) w) eqn:E; [|auto].
    rewrite isKey_false in Hd0. specialize (Hd0 e He).
    rewrite eqCI_sym in E.
    now rewrite (eqCI_trans _ _ _ Hw E) in Hd0.
Qed.

Lemma isKey_perm (d d' : list DictionaryEntry) (w : text) :
  Permutation d d' -> isKey d w = false -> isKey d' w = false.
Proof.
  rewrite !isKey_false. intros Hp H e He. apply H.
  eapply Permutation_in; [symmetry|]; eassumption.
Qed.

Lemma lookupWord_perm (d d' : list DictionaryEntry) (w : text) :
  distinctKeys d = true -> Permutation d d' ->
  lookupWord d' w = lookupWord d w.
Proof.
  intros Hd Hp.
  destruct (lookupWord_cases d' w) as [[Hn ->]|(e & He & Hw & ->)].
  - symmetry. apply lookupWord_not_key.
    apply (isKey_perm d' d); [now symmetry|assumption].
  - symmetry. apply lookupWord_unique; try assumption.
    eapply Permutation_in; [symmetry|]; eassumption.
Qed.

Lemma forallb_perm {A} (p : A -> bool) (l l' : list A) :
  Permutation l l' -> forallb p l = true -> forallb p l' = true.
Proof.
  rewrite !forallb_forall. intros Hp H x Hx. apply H.
  eapply Permutation_in; [symmetry|]; eassumption.
Qed.

Lemma vocabularyDisjoint_perm (d d' : list DictionaryEntry) :
  Permutation d d' -> vocabularyDisjoint d = true -> vocabularyDisjoint d' = true.
Proof.
  rewrite !vocabularyDisjoint_spec. intros Hp H e w He Hw.
  apply (isKey_perm d d' w Hp). apply (H e); [|assumption].
  eapply Permutation_in; [symmetry|]; eassumption.
Qed.

End WordKeyDictionary.

(** ** The substitution step: claims *)

(** C1.  The key of an entry is spliced into the pattern as it is, so a key
    with a metacharacter is read as a pattern: the entry with key [a.c]
    replaces the word [abc], in which the key does not occur, and the key
    [c++] is no pattern at all, so that the [forEach] of
    [processRecording] throws a [SyntaxError]. *)
Theorem metacharacter_key_is_read_as_pattern :
  applyDictionary [mkEntry (str "a.c") (str "X") None] (str "abc")
  = Ok (str "X")
  /\ applyDictionary [mkEntry (str "c++") (str "C plus plus") None]
       (str "I like c++")
     = Throw (JsSyntaxError "Nothing to repeat").
Proof. split; vm_compute; reflexivity. Qed.

(** C3 as stated fails: the entry that replaces the phrase [rock & roll] by
    [&] has a replacement with no word at all, and a second pass finds the
    phrase that the first pass made. *)
Lemma substitution_not_idempotent :
  ~ (forall d s s1,
       vocabularyDisjoint d = true ->
       applyDictionary d s = Ok s1 ->
       applyDictionary d s1 = Ok s1).
Proof.
  intros H.
  specialize (H [mkEntry (str "rock & roll") (str "&") None]
                (str "rock rock & roll roll") (str "rock & roll")
                eq_refl eq_refl).
  vm_compute in H. discriminate H.
Qed.

(** The same with a replacement that has a word: the key [a--] has the
    word [a], its replacement [-q] the word [q], and the second pass finds
    the key made of the text before the match and the first character of
    the replacement. *)
Lemma second_pass_meets_a_new_key :
  vocabularyDisjoint [mkEntry (str "a--") (str "-q") None] = true
  /\ applyDictionary [mkEntry (str "a--") (str "-q") None] (str "a-a--z")
     = Ok (str "a--qz")
  /\ applyDictionary [mkEntry (str "a--") (str "-q") None] (str "a--qz")
     = Ok (str "-qqz").
Proof. repeat split; vm_compute; reflexivity. Qed.

(** C3, amended.  When every key is a single word, no replacement has a
    dollar sign and no word of a replacement is a key (up to case), the
    substitution step succeeds and applying it to its result gives the
    result again. *)
Theorem substitution_idempotent_on_word_keys (d : list DictionaryEntry) (s : text) :
  wordKeys d = true ->
  plainReplacements d = true ->
  vocabularyDisjoint d = true ->
  exists s1, applyDictionary d s = Ok s1 /\ applyDictionary d s1 = Ok s1.
Proof.
  intros Hk Hr Hv.
  assert (Hc : chainFree d)
    by now apply disjoint_chainFree, vocabularyDisjoint_spec.
  exists (replaceWholeWords d s).
  rewrite !applyDictionary_whole_words by assumption.
  now rewrite replaceWholeWords_idempotent.
Qed.

Lemma substitution_idempotent_on_word_keys_witness :
  exists s1,
    applyDictionary [mkEntry (str "gonna") (str "going to") None;
                     mkEntry (str "wanna") (str "want to") None]
      (str "im gonna go") = Ok s1
    /\ applyDictionary [mkEntry (str "gonna") (str "going to") None;
                        mkEntry (str "wanna") (str "want to") None] s1 = Ok s1.
Proof.
  apply substitution_idempotent_on_word_keys; reflexivity.
Defined.

(** C4 as stated fails: the keys [a] and [b] have no character in common,
    and the text [a] becomes [c] when the entry for [a] comes first, [b]
    when it comes last. *)
Lemma substitution_depends_on_order :
  ~ (forall d d' s,
       keysShareNoChar d = true ->
       Permutation d d' ->
       applyDictionary d s = applyDictionary d' s).
Proof.
  intros H.
  specialize (H [mkEntry (str "a") (str "b") None; mkEntry (str "b") (str "c") None]
                [mkEntry (str "b") (str "c") None; mkEntry (str "a") (str "b") None]
                (str "a") eq_refl (perm_swap _ _ _)).
  vm_compute in H. discriminate H.
Qed.

(** C4, amended.  When every key is a single word, the keys differ up to
    case, no replacement has a dollar sign and no word of a replacement is
    a key, the substitution step gives the same text for every order of the
    entries, and the prompt of the correction call is that text between the
    two fixed parts of the template. *)
Theorem substitution_independent_of_order (d d' : list DictionaryEntry) (s : text) :
  wordKeys d = true ->
  plainReplacements d = true ->
  vocabularyDisjoint d = true ->
  distinctKeys d = true ->
  Permutation d d' ->
  exists p,
    applyDictionary d s = Ok p
    /\ applyDictionary d' s = Ok p
    /\ App.composePrompt d s = Ok (App.promptHead ++ p ++ App.promptTail)
    /\ App.composePrompt d' s = Ok (App.promptHead ++ p ++ App.promptTail).
Proof.
  intros Hk Hr Hv Hd Hp.
  assert (Hc : chainFree d)
    by now apply disjoint_chainFree, vocabularyDisjoint_spec.
  assert (Hc' : chainFree d').
  { apply disjoint_chainFree, vocabularyDisjoint_spec.
    now apply (vocabularyDisjoint_perm d). }
  assert (E : applyDictionary d' s = Ok (replaceWholeWords d s)).
  { rewrite applyDictionary_whole_words;
      [ | now apply (forallb_perm _ d) | now apply (forallb_perm _ d) | assumption ].
    f_equal. apply mapWords_ext. intros w _. now apply lookupWord_perm. }
  exists (replaceWholeWords d s). unfold App.composePrompt.
  rewrite E, applyDictionary_whole_words by assumption.
  repeat split.
Qed.

Lemma substitution_independent_of_order_witness :
  exists p,
    applyDictionary [mkEntry (str "gonna") (str "going to") None;
                     mkEntry (str "wanna") (str "want to") None]
      (str "I wanna say im gonna go") = Ok p
    /\ applyDictionary [mkEntry (str "wanna") (str "want to") None;
                        mkEntry (str "gonna") (str "going to") None]
         (str "I wanna say im gonna go") = Ok p
    /\ App.composePrompt [mkEntry (str "gonna") (str "going to") None;
                          mkEntry (str "wanna") (str "want to") None]
         (str "I wanna say im gonna go")
       = Ok (App.promptHead ++ p ++ App.promptTail)
    /\ App.composePrompt [mkEntry (str "wanna") (str "want to") None;
                          mkEntry (str "gonna") (str "going to") None]
         (str "I wanna say im gonna go")
       = Ok (App.promptHead ++ p ++ App.promptTail).
Proof.
  apply substitution_independent_of_order;
    try reflexivity; apply perm_swap.
Defined.

(** ** The recording pipeline *)

Section PipelineProperties.

Context {Entry : Type}.
Variable V : Variant Entry.
Variable sv : Services Entry.

Lemma new_Blob_size (parts : list Blob) :
  size (new_Blob parts) = list_sum (map size parts).
Proof.
  unfold new_Blob, size. induction parts as [|b parts IH]; [reflexivity|].
  cbn. now rewrite length_app, IH.
Qed.

Lemma stagesOf_app (a b : list (event Entry)) :
  stagesOf (a ++ b) = stagesOf a ++ stagesOf b.
Proof.
  induction a as [|ev a IH]; [reflexivity|].
  cbn. destruct (stageOf ev); cbn; now rewrite IH.
Qed.

(** C2.  On an empty chunk list the [try] block of [processRecording]
    throws the error [No audio data recorded] and leaves the world as it
    was: nothing is logged, so no service was called.  [processRecording]
    then logs that error and clears the transcribing flag; the calls in its
    log are the calls that were there before. *)
Theorem empty_recording_fails_before_any_call
    (d : list Entry) (u : option User) (dur : Z) (w : World Entry) :
  processRecordingTry V sv d u [] dur w
  = (Throw (JsError "No audio data recorded"), w)
  /\ exists w',
       processRecording V sv d u [] dur w = (Ok tt, w')
       /\ filter isCall (log w') = filter isCall (log w)
       /\ stagesOf (log w') = stagesOf (log w)
       /\ In (ConsoleError "Error processing recording:"
                (JsError "No audio data recorded")) (log w')
       /\ state w' = notTranscribing (state w).
Proof.
  split; [reflexivity|].
  eexists. split; [reflexivity|]. cbn [log state].
  repeat split.
  - rewrite !filter_app. cbn. now rewrite !app_nil_r.
  - rewrite !stagesOf_app. cbn. now rewrite !app_nil_r.
  - rewrite !in_app_iff. left. right. now left.
Qed.

(** The chunks a recorder keeps all have a positive size. *)
Lemma ondataavailable_positive (data : Blob) (r : Recorder Entry) :
  Forall (fun b => 0 < size b) (chunks r) ->
  Forall (fun b => 0 < size b) (chunks (ondataavailable data r)).
Proof.
  intros H. unfold ondataavailable. destruct (0 <? size data) eqn:E; [|exact H].
  cbn. apply Forall_app. split; [exact H|].
  constructor; [now apply Nat.ltb_lt|constructor].
Qed.

Lemma recorded_positive (events : list Blob) (r : Recorder Entry) :
  Forall (fun b => 0 < size b) (chunks r) ->
  Forall (fun b => 0 < size b) (chunks (recorded events r)).
Proof.
  revert r. induction events as [|data events IH]; intros r H; [exact H|].
  cbn. apply IH. now apply ondataavailable_positive.
Qed.

(** What is thrown in the [try] block on the way to the first service
    call. *)
Lemma processRecordingTry_checks (d : list Entry) (u : option User)
    (cs : list Blob) (dur : Z) (w : World Entry) :
  (cs = [] /\ processRecordingTry V sv d u cs dur w
              = (Throw (JsError "No audio data recorded"), w))
  \/ (cs <> [] /\ size (new_Blob cs) = 0
      /\ processRecordingTry V sv d u cs dur w
         = (Throw (JsError "Audio recording is empty"), w))
  \/ (cs <> [] /\ 0 < size (new_Blob cs)).
Proof.
  destruct cs as [|c cs]; [now left|]. right.
  destruct (size (new_Blob (c :: cs))) as [|n] eqn:E.
  - left. repeat split; [discriminate|].
    unfold processRecordingTry. now rewrite E.
  - right. split; [discriminate|lia].
Qed.

(** The runs of [processRecording]: one goal for each way the services
    answer. *)
Ltac pipeline_step :=
  cbn -[toString str new_Blob size split nth_error firstn] in *.

Ltac run_processRecording d u cs w :=
  unfold processRecording, tryCatch, processRecordingTry,
    toBase64, await, processRecordingCatch, setCurrentNote,
    setVoiceNotes, setIsTranscribing, userId, Date_now, modify, emit,
    lift, throw, ret, bind;
  remember (str "en") as en eqn:?Hen;
  destruct cs as [|?c ?cs];
  [ pipeline_step
  | match goal with
    | |- context [new_Blob ?l] =>
        remember (new_Blob l) as audioBlob eqn:?Hblob
    end;
    match goal with
    | |- context [size ?l =? 0] =>
        destruct (size l =? 0) eqn:?Hsize;
        [ pipeline_step
        | pipeline_step;
          match goal with
          | |- context [readAsDataURL ?s ?b] =>
              destruct (readAsDataURL s b) as [?dataUrl|?e] eqn:?Hread
          end; pipeline_step;
          [ match goal with
            | |- context [nth_error (split ?c ?url) 1] =>
                destruct (nth_error (split c url) 1) as [[|?b0 ?b]|] eqn:?Hsplit
            end; pipeline_step;
            [ |
              match goal with
              | |- context [transcribeAudio ?s ?a ?l] =>
                  destruct (transcribeAudio s a l) as [?originalText|?e] eqn:?Htrans
              end; pipeline_step;
              [ match goal with
                | |- context [composePrompt ?v ?dd ?t] =>
                    destruct (composePrompt v dd t) as [?prompt|?e|] eqn:?Hprompt
                end; pipeline_step;
                [ match goal with
                  | |- context [generateText ?s ?p] =>
                      destruct (generateText s p) as [?corrected|?e] eqn:?Hgen
                  end; pipeline_step;
                  [ destruct u as [?u|]; pipeline_step;
                    [ match goal with
                      | |- context [voice_notes_create ?s ?n ?i] =>
                          destruct (voice_notes_create s n i) as [[]|?e] eqn:?Hcreate
                      end; pipeline_step
                    | ]
                  | ]
                | | ]
              | ]
            | ]
          | ]
        ]
    end
  ].

Ltac split_in :=
  repeat match goal with
  | H : In _ (_ ++ _) |- _ => apply in_app_or in H; destruct H as [H|H]
  | H : In _ (_ :: _) |- _ => destruct H as [H|H]
  | H : In _ [] |- _ => destruct H
  end.

Ltac same_answer :=
  repeat match goal with
  | H1 : ?f = Resolve _, H2 : ?f = Resolve _ |- _ =>
      rewrite H1 in H2; injection H2 as ?; subst
  | H1 : ?f = Resolve _, H2 : ?f = Reject _ |- _ =>
      rewrite H1 in H2; discriminate H2
  | H : _ \/ _ |- _ => destruct H
  end;
  congruence.

Ltac same_call :=
  match goal with
  | H : @eq (event _) _ _ |- _ => first [discriminate H | injection H as ?; subst]
  end.

Lemma completed_ends (beyond : list Entry -> text -> text + exn)
    (d : list Entry) (originalText : text) :
  composePrompt (completed V beyond) d originalText <> Unmodelled.
Proof.
  cbn. destruct (composePrompt V d originalText); try discriminate.
  destruct (beyond d originalText); discriminate.
Qed.


(** Once both checks have passed, the [try] block logs something. *)
Lemma processRecordingTry_logs (d : list Entry) (u : option User)
    (cs : list Blob) (dur : Z) (w : World Entry) :
  cs <> [] -> 0 < size (new_Blob cs) ->
  exists new, log (snd (processRecordingTry V sv d u cs dur w)) = log w ++ new
              /\ new <> [].
Proof.
  intros Hcs Hpos.
  run_processRecording d u cs w; try congruence.
  1: apply Nat.eqb_eq in Hsize; subst audioBlob; lia.
  all: eexists; split; [cbn [snd log]; rewrite <- ?app_assoc; reflexivity|].
  all: discriminate.
Qed.

Lemma world_log_grows (w : World Entry) (new : list (event Entry)) :
  new <> [] -> log w ++ new <> log w.
Proof.
  intros Hne E. apply Hne.
  apply (app_inv_head (log w)). now rewrite app_nil_r.
Qed.

(** C10.  The handler of the recorder keeps a chunk only when its size is
    positive.  So the chunks of a recorder that started with none all have
    a positive size; when there is one at least, the blob made of them has
    a positive size; and the [try] block of [processRecording] never ends
    the way its zero-size branch ends it, with the error
    [Audio recording is empty] and nothing logged. *)
Theorem recorder_chunks_make_a_blob_with_content
    (events : list Blob) (r : Recorder Entry)
    (d : list Entry) (u : option User) (dur : Z) (w : World Entry) :
  chunks r = [] ->
  let cs := chunks (recorded events r) in
  Forall (fun b => 0 < size b) cs
  /\ (cs <> [] -> 0 < size (new_Blob cs))
  /\ (cs <> [] -> (size (new_Blob cs) =? 0) = false)
  /\ processRecordingTry V sv d u cs dur w
     <> (Throw (JsError "Audio recording is empty"), w).
Proof.
  intros Hr cs.
  assert (Hall : Forall (fun b => 0 < size b) cs).
  { apply recorded_positive. rewrite Hr. constructor. }
  assert (Hpos : cs <> [] -> 0 < size (new_Blob cs)).
  { rewrite new_Blob_size. destruct Hall as [|b l Hb _]; [congruence|].
    intros _. cbn. lia. }
  repeat split; try assumption.
  - intros Hne. apply Nat.eqb_neq. specialize (Hpos Hne). lia.
  - destruct (processRecordingTry_checks d u cs dur w)
      as [[_ E]|[(Hne & Hz & _)|[Hne Hp]]].
    + rewrite E. discriminate.
    + specialize (Hpos Hne). lia.
    + destruct (processRecordingTry_logs d u cs dur w Hne Hp) as (new & Hlog & Hnew).
      intros E. rewrite E in Hlog. cbn [snd] in Hlog.
      symmetry in Hlog. now apply world_log_grows in Hlog.
Qed.

(** C8.  The [try] block fails with [No audio data recorded] on an empty
    chunk list and with [Audio recording is empty] on a blob of size zero,
    both before anything is logged; it fails with
    [Failed to convert audio to base64] when the reader gives a data URL
    with nothing after the first comma.  The error of the third condition
    differs from the errors of the first two, and the [catch] block logs
    the error it was given, so the log tells the conditions apart. *)
Theorem encoder_conditions_have_distinct_errors
    (d : list Entry) (u : option User) (cs : list Blob) (dur : Z)
    (w : World Entry) :
  (cs = [] ->
     processRecordingTry V sv d u cs dur w
     = (Throw (JsError "No audio data recorded"), w))
  /\ (cs <> [] -> size (new_Blob cs) = 0 ->
      processRecordingTry V sv d u cs dur w
      = (Throw (JsError "Audio recording is empty"), w))
  /\ (forall dataUrl,
        cs <> [] -> size (new_Blob cs) <> 0 ->
        readAsDataURL sv (new_Blob cs) = Resolve dataUrl ->
        nth_error (split ","%char dataUrl) 1 = None
        \/ nth_error (split ","%char dataUrl) 1 = Some [] ->
        fst (processRecordingTry V sv d u cs dur w)
        = Throw (JsError "Failed to convert audio to base64"))
  /\ JsError "Failed to convert audio to base64" <> JsError "No audio data recorded"
  /\ JsError "Failed to convert audio to base64" <> JsError "Audio recording is empty"
  /\ (forall e (w0 : World Entry),
        In (ConsoleError "Error processing recording:" e)
           (log (snd (processRecordingCatch e w0)))).
Proof.
  split; [intros ->; reflexivity|].
  split.
  { intros Hne Hz. destruct cs as [|c l]; [congruence|].
    unfold processRecordingTry. now rewrite Hz. }
  split.
  { intros dataUrl Hne Hz Hr Hs.
    run_processRecording d u cs w; try congruence.
    all: try (apply Nat.eqb_eq in Hsize; congruence).
    all: same_answer. }
  split; [discriminate|]. split; [discriminate|].
  intros e w0. cbn. rewrite !in_app_iff. left. right. now left.
Qed.

(** *** The store operations *)

Lemma eqbText_eq (a b : text) : eqbText a b = true <-> a = b.
Proof.
  revert b. induction a as [|x a IH]; intros [|y b]; cbn; try easy.
  rewrite andb_true_iff, Ascii.eqb_eq, IH. split.
  - now intros [-> ->].
  - intros H. now injection H.
Qed.

Ltac run_handler :=
  unfold addDictionaryEntry, deleteDictionaryEntry, deleteNote, tryCatch,
    await, setDictionary, setVoiceNotes, setNewWord, setNewReplacement,
    userId, get, modify, emit, throw, ret, bind;
  cbn -[filter].

(** C6.  A store operation whose remote call is rejected leaves the
    collection in memory as it was, and a collection that changed was
    changed after a call that resolved: for the note created by
    [processRecording], for [deleteNote], for [addDictionaryEntry] and for
    [deleteDictionaryEntry]. *)
Theorem rejected_store_call_leaves_memory
    (d : list Entry) (u : option User) (cs : list Blob) (dur : Z)
    (noteId w0 : text) (w : World Entry) :
  (let w' := snd (processRecording V sv d u cs dur w) in
   exists new,
     log w' = log w ++ new
     /\ (forall note uid e,
           In (CallCreateNote note uid) new ->
           voice_notes_create sv note uid = Reject e ->
           voiceNotes (state w') = voiceNotes (state w))
     /\ (voiceNotes (state w') <> voiceNotes (state w) ->
         exists note uid,
           In (CallCreateNote note uid) new
           /\ voice_notes_create sv note uid = Resolve tt))
  /\ (let w' := snd (deleteNote sv noteId w) in
      (forall e, voice_notes_delete sv noteId = Reject e ->
         voiceNotes (state w') = voiceNotes (state w))
      /\ (voiceNotes (state w') <> voiceNotes (state w) ->
          voice_notes_delete sv noteId = Resolve tt))
  /\ (let w' := snd (addDictionaryEntry V sv w) in
      exists new,
        log w' = log w ++ new
        /\ (forall entry e,
              In (CallCreateEntry entry) new ->
              dictionary_entries_create sv entry = Reject e ->
              dictionary (state w') = dictionary (state w))
        /\ (dictionary (state w') <> dictionary (state w) ->
            exists entry,
              In (CallCreateEntry entry) new
              /\ dictionary_entries_create sv entry = Resolve tt))
  /\ (let w' := snd (deleteDictionaryEntry V sv w0 w) in
      (forall e, dictionary_entries_delete sv w0 = Reject e ->
         dictionary (state w') = dictionary (state w))
      /\ (dictionary (state w') <> dictionary (state w) ->
          dictionary_entries_delete sv w0 = Resolve tt)).
Proof.
  split; [|split; [|split]].
  - run_processRecording d u cs w.
    all: eexists; split; [rewrite <- ?app_assoc; reflexivity|].
    all: split;
      [ intros; split_in; try same_call; try reflexivity; same_answer
      | intros Hchanged; try (now contradiction Hchanged) ].
    do 2 eexists. split; [|eassumption].
    rewrite ?in_app_iff; cbn [In]; tauto.
  - run_handler. destruct (voice_notes_delete sv noteId) as [[]|e0] eqn:Hd;
      cbn -[filter]; split; intros; try congruence; try reflexivity;
      now contradiction H.
  - run_handler.
    destruct (formFilled V (newWord (state w)) (newReplacement (state w)));
      cbn -[filter].
    2:{ exists []. split; [now rewrite app_nil_r|].
        split; intros; [now split_in | now contradiction H]. }
    destruct (user (state w)) as [usr|]; cbn -[filter].
    2:{ eexists; split; [rewrite <- ?app_assoc; reflexivity|].
        split; intros; [now split_in | now contradiction H]. }
    destruct (formEntry V (newWord (state w)) (newReplacement (state w))
                (user_id usr)) as [entry kept].
    cbn -[filter].
    destruct (dictionary_entries_create sv entry) as [[]|e0] eqn:Hc;
      cbn -[filter].
    + destruct (clearsReplacement V); cbn -[filter].
      all: eexists; split; [rewrite <- ?app_assoc; reflexivity|].
      all: split; intros; [split_in; try same_call; same_answer|].
      all: exists entry; split; [now left|assumption].
    + eexists; split; [rewrite <- ?app_assoc; reflexivity|].
      split; intros; [reflexivity | now contradiction H].
  - run_handler. destruct (dictionary_entries_delete sv w0) as [[]|e0] eqn:Hd;
      cbn -[filter]; split; intros; try congruence; try reflexivity;
      now contradiction H.
Qed.

Lemma filter_other_keys (key : Entry -> text) (w0 : text) (l : list Entry) :
  ~ In w0 (map key l) ->
  filter (fun entry => negb (eqbText (key entry) w0)) l = l.
Proof.
  induction l as [|e l IH]; [reflexivity|]. cbn. intros H.
  destruct (eqbText (key e) w0) eqn:E.
  - apply eqbText_eq in E. tauto.
  - cbn. f_equal. tauto.
Qed.

(** C7.  When the keys of the dictionary in memory are all different and
    the word is one of them, a [deleteDictionaryEntry] whose remote call
    resolves removes the one entry with that word: the entries before it
    and after it stay, in their order, and none of them has the word. *)
Theorem delete_removes_the_one_entry (w0 : text) (w : World Entry) :
  dictionary_entries_delete sv w0 = Resolve tt ->
  NoDup (map (entryWord V) (dictionary (state w))) ->
  In w0 (map (entryWord V) (dictionary (state w))) ->
  exists before entry after,
    dictionary (state w) = before ++ entry :: after
    /\ entryWord V entry = w0
    /\ dictionary (state (snd (deleteDictionaryEntry V sv w0 w))) = before ++ after
    /\ ~ In w0 (map (entryWord V) (before ++ after))
    /\ length (dictionary (state (snd (deleteDictionaryEntry V sv w0 w))))
       + 1 = length (dictionary (state w)).
Proof.
  intros Hd Hnodup Hin. run_handler. rewrite Hd. cbn -[filter].
  apply in_map_iff in Hin as (entry & Hkey & Hin).
  apply in_split in Hin as (before & after & Hsplit).
  rewrite Hsplit in *. clear Hsplit.
  exists before, entry, after.
  rewrite map_app in Hnodup. cbn [map] in Hnodup.
  pose proof (NoDup_remove_2 _ _ _ Hnodup) as Hnot.
  rewrite Hkey in Hnot. rewrite <- map_app in Hnot.
  assert (Hfilter :
    filter (fun e => negb (eqbText (entryWord V e) w0)) (before ++ entry :: after)
    = before ++ after).
  { rewrite filter_app. cbn [filter].
    replace (eqbText (entryWord V entry) w0) with true
      by (symmetry; now apply eqbText_eq).
    cbn [negb]. rewrite <- filter_app. now apply filter_other_keys. }
  repeat split; try assumption.
  rewrite Hfilter, !length_app. cbn. lia.
Qed.

End PipelineProperties.

(** ** Instances *)

Lemma delete_removes_the_one_entry_witness :
  let w := mkWorld
             (mkAppState false false [] []
                [mkEntry (str "gonna") (str "going to") None;
                 mkEntry (str "wanna") (str "want to") None]
                [] [] None 0%Z None) [] 0 in
  exists before entry after,
    dictionary (state w) = before ++ entry :: after
    /\ entryWord App.variant entry = str "gonna"
    /\ dictionary (state (snd (deleteDictionaryEntry App.variant Session.services
                                 (str "gonna") w))) = before ++ after
    /\ ~ In (str "gonna") (map (entryWord App.variant) (before ++ after))
    /\ length (dictionary (state (snd (deleteDictionaryEntry App.variant
                                         Session.services (str "gonna") w))))
       + 1 = length (dictionary (state w)).
Proof.
  apply delete_removes_the_one_entry.
  - reflexivity.
  - cbn. repeat constructor; cbn; intuition discriminate.
  - cbn. now left.
Defined.

Lemma encoder_conditions_have_distinct_errors_witness :
  processRecordingTry App.variant Session.services [] None [] 0%Z Session.world
  = (Throw (JsError "No audio data recorded"), Session.world)
  /\ processRecordingTry App.variant Session.services [] None [[]] 0%Z Session.world
     = (Throw (JsError "Audio recording is empty"), Session.world).
Proof.
  split.
  - apply (proj1 (encoder_conditions_have_distinct_errors App.variant
                    Session.services [] None [] 0%Z Session.world)).
    reflexivity.
  - apply (proj1 (proj2 (encoder_conditions_have_distinct_errors App.variant
                           Session.services [] None [[]] 0%Z Session.world)));
      [discriminate | reflexivity].
Defined.

Lemma recorder_chunks_make_a_blob_with_content_witness :
  let r := mkRecorder (Entry:=DictionaryEntry) true [] 0%Z [] None in
  let cs := chunks (recorded [str "abc"; []; str "de"] r) in
  Forall (fun b => 0 < size b) cs
  /\ (cs <> [] -> 0 < size (new_Blob cs))
  /\ (cs <> [] -> (size (new_Blob cs) =? 0) = false)
  /\ processRecordingTry App.variant Session.services [] None cs 0%Z Session.world
     <> (Throw (JsError "Audio recording is empty"), Session.world).
Proof.
  intros r.
  apply (recorder_chunks_make_a_blob_with_content App.variant Session.services
           [str "abc"; []; str "de"] r [] None 0%Z Session.world).
  reflexivity.
Defined.

(** ** The duration of a recording *)

(** [startRecording] gives the handlers of the recorder the
    [recordingStart] of the render it ran in, and stores the reading of the
    clock in the state cell, which that render does not see. *)
Lemma startRecording_closure (Entry : Type) (sv : Services Entry) (w : World Entry) :
  getUserMedia sv = Resolve tt ->
  let w' := snd (startRecording sv w) in
  recordingStart (state w') = clock sv (ticks w)
  /\ option_map closure_recordingStart (mediaRecorder (state w'))
     = Some (recordingStart (state w)).
Proof.
  intros H. unfold startRecording, tryCatch, await, setMediaRecorder,
    setRecordingStart, updateRecorder, setIsRecording, Date_now, get, modify,
    emit, throw, ret, bind.
  cbn. rewrite H. cbn. split; reflexivity.
Qed.

(** C5.  The first recording of a session: the clock reads 1700000000000
    when [startRecording] runs and 1700000003000 when the [stop] event is
    handled, three seconds later; every service answers.  The note created
    has the duration 1700000003000, the stop time less the initial value 0
    of [recordingStart], and not the 3000 that separate stop and start:
    [onstop] closes over the [recordingStart] of the render in which
    [startRecording] ran, not over the value [setRecordingStart] stored. *)
Theorem first_recording_has_the_stop_time_as_duration :
  let w' := snd (Session.session Session.world) in
  map duration (voiceNotes (state w')) = [1700000003000%Z]
  /\ recordingStart (state w') = 1700000000000%Z
  /\ (1700000003000 - recordingStart (state w') = 3000)%Z
  /\ stagesOf (log w') = pipeline.
Proof. vm_compute. repeat split. Qed.

(** * Further properties of the component *)

(** ** The dictionary pass *)

Section DictionaryPass.

Lemma eqCI_refl (a : text) : eqCI a a = true.
Proof. induction a as [|x a IH]; cbn; [reflexivity|]. now rewrite sameCI_refl. Qed.

Lemma mapWords_separators (g : text -> text) (a : text) :
  forallb (fun c => negb (isWordChar c)) a = true -> mapWords g a = a.
Proof.
  induction a as [|c a IH]; [reflexivity|]. cbn [forallb].
  rewrite andb_true_iff, negb_true_iff. intros [Hc Ha].
  rewrite mapWords_sep by assumption. now rewrite IH.
Qed.

Lemma mapWords_after_separators (g : text -> text) (a s : text) :
  forallb (fun c => negb (isWordChar c)) a = true ->
  mapWords g (a ++ s) = a ++ mapWords g s.
Proof.
  induction a as [|c a IH]; [reflexivity|]. cbn [forallb].
  rewrite andb_true_iff, negb_true_iff. intros [Hc Ha].
  cbn [app]. rewrite mapWords_sep by assumption. now rewrite IH.
Qed.

Lemma separators_start (a : text) :
  forallb (fun c => negb (isWordChar c)) a = true -> startsWord a = false.
Proof.
  destruct a as [|c a]; [reflexivity|]. cbn.
  rewrite andb_true_iff, negb_true_iff. now intros [Hc _].
Qed.

(** X1.  On a dictionary whose keys are single words, whose replacements
    have no dollar sign and where no word of a replacement is the key of a
    later entry, the [forEach] of [processRecording] gives the text in
    which every word that is a key, up to case, has become the replacement
    of the first entry with that key, and everything else stays. *)
Theorem dictionary_pass_replaces_whole_words (d : list DictionaryEntry) (s : text) :
  wordKeys d = true -> plainReplacements d = true -> chainFree d ->
  applyDictionary d s = Ok (replaceWholeWords d s).
Proof. intros. now apply applyDictionary_whole_words. Qed.

Lemma dictionary_pass_replaces_whole_words_witness :
  applyDictionary [mkEntry (str "gonna") (str "going to") None]
    (str "Gonna go, gonnas gonna_ GONNA.")
  = Ok (str "going to go, gonnas gonna_ going to.").
Proof.
  apply (dictionary_pass_replaces_whole_words
           [mkEntry (str "gonna") (str "going to") None]
           (str "Gonna go, gonnas gonna_ GONNA.")); try reflexivity.
  cbn. split; [|exact I]. intros w _. reflexivity.
Defined.

(** X2.  On such a dictionary, a text none of whose words is a key comes
    out as it went in. *)
Theorem text_without_keys_is_unchanged (d : list DictionaryEntry) (s : text) :
  wordKeys d = true -> plainReplacements d = true -> chainFree d ->
  (forall w, In w (wordsOf (tokenize s)) -> isKey d w = false) ->
  applyDictionary d s = Ok s.
Proof.
  intros Hk Hr Hc Hs. rewrite applyDictionary_whole_words by assumption.
  f_equal. apply mapWords_id. intros w Hw. apply lookupWord_not_key. auto.
Qed.

Lemma text_without_keys_is_unchanged_witness :
  applyDictionary [mkEntry (str "gonna") (str "going to") None]
    (str "the gonnas are going") = Ok (str "the gonnas are going").
Proof.
  apply text_without_keys_is_unchanged; try reflexivity.
  - cbn. split; [|exact I]. intros w _. reflexivity.
  - cbn. intros w H.
    repeat (destruct H as [<-|H]; [reflexivity|]). destruct H.
Defined.

Lemma isWordChar_ascii (c : ascii) :
  isWordChar c = true -> (code c < 128)%N.
Proof. each_ascii c; vm_compute; congruence. Qed.

Lemma beyond_ascii_separators (a : text) :
  Forall (fun c => (128 <= code c)%N) a ->
  forallb (fun c => negb (isWordChar c)) a = true.
Proof.
  induction 1 as [|c a Hc _ IH]; [reflexivity|]. cbn. rewrite IH, andb_true_r.
  apply negb_true_iff. destruct (isWordChar c) eqn:E; [|reflexivity].
  apply isWordChar_ascii in E. lia.
Qed.

(** X3.  The pattern has no [u] flag, so a letter outside ASCII is no word
    character: a key that stands between such letters, as [ber] in a word
    that starts with u-umlaut or [caf] in one that ends with e-acute, is
    taken for a whole word and replaced. *)
Theorem letters_beyond_ascii_end_a_word (k r a b : text) (u : option text) :
  isWordKey k = true -> plainText r = true ->
  Forall (fun c => (128 <= code c)%N) a ->
  Forall (fun c => (128 <= code c)%N) b ->
  applyDictionary [mkEntry k r u] (a ++ k ++ b) = Ok (a ++ r ++ b).
Proof.
  intros Hk Hr Ha Hb.
  apply beyond_ascii_separators in Ha, Hb.
  rewrite applyDictionary_whole_words.
  - f_equal. unfold replaceWholeWords.
    rewrite mapWords_after_separators by assumption.
    apply andb_true_iff in Hk as [Hne Hw].
    rewrite mapWords_word_run;
      [ | intros ->; discriminate | assumption | now apply separators_start ].
    rewrite mapWords_separators by assumption.
    cbn [lookupWord word replacement]. now rewrite eqCI_refl.
  - cbn. now rewrite Hk.
  - cbn. now rewrite Hr.
  - cbn. split; [|exact I]. reflexivity.
Qed.

Lemma letters_beyond_ascii_end_a_word_witness :
  applyDictionary [mkEntry (str "caf") (str "coffee") None]
    (str "caf" ++ ["233"%char])
  = Ok (str "coffee" ++ ["233"%char]).
Proof.
  apply (letters_beyond_ascii_end_a_word (str "caf") (str "coffee") []
           ["233"%char] None); try reflexivity.
  - constructor.
  - repeat constructor. vm_compute. discriminate.
Defined.

End DictionaryPass.

(** ** Keys and replacements that are not plain words *)

Section EdgeEntries.

(** Where the pattern matches the empty text, the expanded template is put
    in, the next code unit is copied and the search goes on after it. *)
Lemma replaceLoop_empty_hit (r : regex) (template : text) (fuel : nat)
    (pre suf : text) (others : list State) (expansion : text) :
  matchR r (pre, suf) = (pre, suf) :: others ->
  getSubstitution (countGroups r) [] (rev pre) suf template = Some expansion ->
  replaceLoop r template (S fuel) (pre, suf)
  = match suf with
    | [] => Some expansion
    | c :: rest =>
        option_map (fun tail => expansion ++ c :: tail)
          (replaceLoop r template fuel (c :: pre, rest))
    end.
Proof.
  intros Hm Hsub. rewrite replaceLoop_eq. cbn [fst snd].
  rewrite regExpExec_eq, Hm. cbv zeta. unfold matchedText. cbn [fst snd].
  rewrite Nat.sub_diag. cbn [firstn]. rewrite Hsub.
  destruct suf as [|c rest]; cbn; [now rewrite app_nil_r|].
  now destruct (replaceLoop r template fuel (c :: pre, rest)).
Qed.

(** The pattern of the empty key matches the empty text at the word
    boundaries, and nowhere else. *)
Lemma matchR_empty_key (x : State) :
  matchR (keyPattern []) x
  = if xorb (wordBefore x) (wordAfter x) then [x] else [].
Proof.
  rewrite keyPattern_unfold. cbn [map fold_right matchR xorb flat_map].
  destruct (xorb (wordBefore x) (wordAfter x)); reflexivity.
Qed.

Lemma replaceLoop_empty_key (r : text) :
  plainText r = true ->
  forall s fuel pre,
    length s < fuel ->
    (startsWord pre = false ->
     replaceLoop (keyPattern []) r fuel (pre, s)
     = Some (mapWords (fun w => r ++ w ++ r) s))
    /\ (startsWord pre = true -> startsWord s = false ->
        replaceLoop (keyPattern []) r fuel (pre, s)
        = Some (r ++ mapWords (fun w => r ++ w ++ r) s)).
Proof.
  intros Hr s.
  induction s as [| c s Hc IH | w rest Hne Hw Hrest IH] using text_runs_ind;
    intros fuel pre Hfuel; (destruct fuel as [|fuel]; [inversion Hfuel|]).
  - split.
    + intros Hpre. apply replaceLoop_end. rewrite matchR_empty_key.
      unfold wordBefore, wordAfter. cbn [fst snd startsWord]. now rewrite Hpre.
    + intros Hpre _.
      rewrite (replaceLoop_empty_hit _ _ _ _ _ [] r).
      * cbn. now rewrite app_nil_r.
      * rewrite matchR_empty_key. unfold wordBefore, wordAfter.
        cbn [fst snd startsWord]. now rewrite Hpre.
      * now apply getSubstitution_plain.
  - cbn [length] in Hfuel.
    assert (Hpre' : startsWord (c :: pre) = false) by exact Hc.
    split.
    + intros Hpre. rewrite replaceLoop_skip.
      * destruct (IH (S fuel) (c :: pre)) as [IH1 _]; [lia|].
        rewrite IH1 by assumption. now rewrite mapWords_sep.
      * rewrite matchR_empty_key. unfold wordBefore, wordAfter.
        cbn [fst snd startsWord]. now rewrite Hpre, Hc.
    + intros Hpre _.
      rewrite (replaceLoop_empty_hit _ _ _ _ _ [] r).
      * destruct (IH fuel (c :: pre)) as [IH1 _]; [lia|].
        rewrite IH1 by assumption. cbn [option_map]. now rewrite mapWords_sep.
      * rewrite matchR_empty_key. unfold wordBefore, wordAfter.
        cbn [fst snd startsWord]. now rewrite Hpre, Hc.
      * now apply getSubstitution_plain.
  - destruct w as [|c w]; [congruence|].
    pose proof Hw as Hw'. cbn in Hw'. apply andb_true_iff in Hw' as [Hc Hw'].
    split.
    2:{ intros _ Hs. cbn in Hs. congruence. }
    intros Hpre. rewrite mapWords_word_run by assumption.
    change ((c :: w) ++ rest) with (c :: (w ++ rest)).
    rewrite length_app in Hfuel. cbn [length] in Hfuel.
    rewrite (replaceLoop_empty_hit _ _ _ _ _ [] r).
    + destruct fuel as [|fuel]; [lia|].
      rewrite replaceLoop_through_word by assumption.
      destruct (IH (S fuel) (rev w ++ c :: pre)) as [_ IH2]; [lia|].
      rewrite IH2.
      * cbn [option_map]. f_equal. rewrite <- !app_assoc. reflexivity.
      * destruct (rev w) eqn:E; [exact Hc|].
        assert (Hin : In a (rev w)) by (rewrite E; now left).
        apply in_rev in Hin. rewrite forallb_forall in Hw'. cbn. auto.
      * assumption.
    + rewrite matchR_empty_key. unfold wordBefore, wordAfter.
      cbn [fst snd startsWord]. now rewrite Hpre, Hc.
    + now apply getSubstitution_plain.
Qed.

(** X4.  An entry whose word is empty puts its replacement at every word
    boundary of the text: before and after each word. *)
Theorem empty_key_wraps_every_word (r s : text) (u : option text) :
  plainText r = true ->
  replaceEntry s (mkEntry [] r u) = Ok (mapWords (fun w => r ++ w ++ r) s).
Proof.
  intros Hr. unfold replaceEntry. cbn [word replacement].
  rewrite (new_RegExp_word []) by reflexivity.
  unfold replace.
  destruct (replaceLoop_empty_key r Hr s (S (length s)) []) as [H _]; [lia|].
  now rewrite H.
Qed.

Lemma empty_key_wraps_every_word_witness :
  replaceEntry (str "ab, cd") (mkEntry [] (str "X") None)
  = Ok (str "XabX, XcdX").
Proof.
  apply (empty_key_wraps_every_word (str "X") (str "ab, cd") None).
  reflexivity.
Defined.

End EdgeEntries.

(** ** Replacements with a dollar sign *)

Section Templates.

Lemma countGroups_keyPattern (k : text) : countGroups (keyPattern k) = 0.
Proof.
  unfold keyPattern, Parser.seqOf. cbn [fold_right countGroups].
  rewrite fold_right_app. cbn [fold_right].
  induction k as [|c k IH]; cbn; auto.
Qed.

(** Without capturing groups every template expands, and a template with
    no reference to the text around the match expands the same way
    wherever the match is. *)
Lemma getSubstitution_local (m : text) (n : nat) :
  forall t, length t <= n -> localTemplate t = true ->
  forall b a,
    exists e, getSubstitution 0 m b a t = Some e
              /\ getSubstitution 0 m [] [] t = Some e.
Proof.
  induction n as [|n IH]; intros t Hn Ht b a.
  - destruct t; [|cbn in Hn; lia]. exists []. now split.
  - destruct t as [|c t1]; [exists []; now split|].
    cbn [length] in Hn.
    destruct (Ascii.ascii_dec c "$") as [->|Hc].
    + destruct t1 as [|d t2]; [exists ["$"%char]; now split|].
      cbn [length] in Hn. revert Ht.
      each_ascii d; cbn [localTemplate]; intros Ht; try discriminate Ht.
      all: destruct (IH t2 ltac:(lia) Ht b a) as (e2 & E2 & E2').
      all: cbn; rewrite E2, E2'; cbn; eexists; split; reflexivity.
    + destruct (IH t1 ltac:(lia)) with (b := b) (a := a) as (e1 & E1 & E1').
      { revert Ht Hc. each_ascii c; cbn [localTemplate]; congruence. }
      exists (c :: e1). revert Hc.
      each_ascii c; cbn [getSubstitution]; rewrite ?E1, ?E1';
        try (intros _; split; reflexivity); congruence.
Qed.

Lemma replaceLoop_template (k t : text) :
  isWordKey k = true -> localTemplate t = true ->
  forall s fuel pre,
    length s < fuel ->
    startsWord pre = false \/ startsWord s = false ->
    replaceLoop (keyPattern k) t fuel (pre, s) = Some (mapWords (expandWord k t) s).
Proof.
  intros Hk Ht s.
  induction s as [| c s Hc IH | w rest Hne Hw Hrest IH] using text_runs_ind;
    intros fuel pre Hfuel Hpre.
  - destruct fuel as [|fuel]; [inversion Hfuel|].
    apply replaceLoop_end. now apply matchR_key_at_sep.
  - destruct fuel as [|fuel]; [inversion Hfuel|].
    rewrite replaceLoop_skip by (apply matchR_key_at_sep; [exact Hk|exact Hc]).
    rewrite IH; [ | cbn in Hfuel; lia | left; exact Hc ].
    now rewrite mapWords_sep.
  - assert (Hstart : startsWord (w ++ rest) = true).
    { destruct w as [|c w]; [congruence|]. cbn in Hw |- *.
      now apply andb_true_iff in Hw as [-> _]. }
    destruct Hpre as [Hpre|Hpre]; [|congruence].
    destruct fuel as [|fuel]; [inversion Hfuel|].
    rewrite length_app in Hfuel.
    assert (0 < length w) by (destruct w; [congruence|cbn; lia]).
    rewrite mapWords_word_run by assumption.
    pose proof (matchR_key_at_word k w pre rest Hk Hw Hne Hpre Hrest) as Hm.
    unfold expandWord. destruct (eqCI k w) eqn:E.
    + destruct (getSubstitution_local w (length t) t (le_n _) Ht (rev pre) rest)
        as (e & E1 & E2).
      rewrite E2.
      rewrite (replaceLoop_hit (keyPattern k) t fuel pre w rest [] e Hne Hm)
        by now rewrite countGroups_keyPattern.
      rewrite IH; [reflexivity | lia | now right].
    + destruct w as [|c w]; [congruence|].
      cbn in Hw. apply andb_true_iff in Hw as [Hc Hw].
      change ((c :: w) ++ rest) with (c :: (w ++ rest)) in *.
      rewrite replaceLoop_skip by exact Hm.
      rewrite replaceLoop_through_word by assumption.
      rewrite IH; [ | cbn in Hfuel; lia | now right ].
      reflexivity.
Qed.

Lemma replaceEntry_template (k t s : text) (u : option text) :
  isWordKey k = true -> localTemplate t = true ->
  replaceEntry s (mkEntry k t u) = Ok (mapWords (expandWord k t) s).
Proof.
  intros Hk Ht. unfold replaceEntry. cbn [word replacement].
  pose proof Hk as Hk'. apply andb_true_iff in Hk' as [_ Hw].
  rewrite new_RegExp_word by assumption. unfold replace.
  rewrite replaceLoop_template; auto.
Qed.

(** X5.  The replacement of an entry is read as a template.  With a key
    that is a single word, the replacement [$&] stands for the word that
    was matched, so the entry changes nothing; the replacement [$$] stands
    for one dollar sign. *)
Theorem dollar_replacements_are_templates (k s : text) (u : option text) :
  isWordKey k = true ->
  replaceEntry s (mkEntry k (str "$&") u) = Ok s
  /\ replaceEntry s (mkEntry k (str "$$") u)
     = Ok (mapWords (replaceWord k (str "$")) s).
Proof.
  intros Hk. split.
  - rewrite replaceEntry_template by (assumption || reflexivity).
    f_equal. apply mapWords_id. intros w _. unfold expandWord.
    cbn. rewrite app_nil_r. now destruct (eqCI k w).
  - rewrite replaceEntry_template by (assumption || reflexivity).
    apply f_equal, mapWords_ext. intros w _. reflexivity.
Qed.

Lemma dollar_replacements_are_templates_witness :
  replaceEntry (str "a price tag") (mkEntry (str "price") (str "$&") None)
  = Ok (str "a price tag")
  /\ replaceEntry (str "a price tag") (mkEntry (str "price") (str "$$") None)
     = Ok (mapWords (replaceWord (str "price") (str "$")) (str "a price tag")).
Proof.
  apply (dollar_replacements_are_templates (str "price") (str "a price tag") None).
  reflexivity.
Defined.

End Templates.

(** ** Tactics for the runs of the handlers *)

Ltac handler_step :=
  cbn -[toString str new_Blob size split nth_error firstn] in *.

Ltac run_pipeline d u cs w :=
  unfold processRecording, tryCatch, processRecordingTry,
    toBase64, await, processRecordingCatch, setCurrentNote,
    setVoiceNotes, setIsTranscribing, userId, Date_now, modify, emit,
    lift, throw, ret, bind;
  remember (str "en") as en eqn:?Hen;
  destruct cs as [|?c ?cs];
  [ handler_step
  | match goal with
    | |- context [new_Blob ?l] =>
        remember (new_Blob l) as audioBlob eqn:?Hblob
    end;
    match goal with
    | |- context [size ?l =? 0] =>
        destruct (size l =? 0) eqn:?Hsize;
        [ handler_step
        | handler_step;
          match goal with
          | |- context [readAsDataURL ?s ?b] =>
              destruct (readAsDataURL s b) as [?dataUrl|?e] eqn:?Hread
          end; handler_step;
          [ match goal with
            | |- context [nth_error (split ?c ?url) 1] =>
                destruct (nth_error (split c url) 1) as [[|?b0 ?b]|] eqn:?Hsplit
            end; handler_step;
            [ |
              match goal with
              | |- context [transcribeAudio ?s ?a ?l] =>
                  destruct (transcribeAudio s a l) as [?originalText|?e] eqn:?Htrans
              end; handler_step;
              [ match goal with
                | |- context [composePrompt ?v ?dd ?t] =>
                    destruct (composePrompt v dd t) as [?prompt|?e|] eqn:?Hprompt
                end; handler_step;
                [ match goal with
                  | |- context [generateText ?s ?p] =>
                      destruct (generateText s p) as [?corrected|?e] eqn:?Hgen
                  end; handler_step;
                  [ destruct u as [?u|]; handler_step;
                    [ match goal with
                      | |- context [voice_notes_create ?s ?n ?i] =>
                          destruct (voice_notes_create s n i) as [[]|?e] eqn:?Hcreate
                      end; handler_step
                    | ]
                  | ]
                | | ]
              | ]
            | ]
          | ]
        ]
    end
  ].

Ltac in_cases :=
  repeat match goal with
  | H : In _ (_ ++ _) |- _ => apply in_app_or in H; destruct H as [H|H]
  | H : In _ (_ :: _) |- _ => destruct H as [H|H]
  | H : In _ [] |- _ => destruct H
  end.

Ltac one_answer :=
  repeat match goal with
  | H1 : ?f = Resolve _, H2 : ?f = Resolve _ |- _ =>
      rewrite H1 in H2; injection H2 as ?; subst
  | H1 : ?f = Resolve _, H2 : ?f = Reject _ |- _ =>
      rewrite H1 in H2; discriminate H2
  | H : _ \/ _ |- _ => destruct H
  end;
  congruence.

Ltac one_call :=
  match goal with
  | H : @eq (event _) _ _ |- _ => first [discriminate H | injection H as ?; subst]
  end.

Ltac run_store :=
  unfold addDictionaryEntry, deleteDictionaryEntry, deleteNote, tryCatch,
    await, setDictionary, setVoiceNotes, setNewWord, setNewReplacement,
    userId, get, modify, emit, throw, ret, bind;
  cbn -[filter].


(** ** Entries that hide or break the others *)

Section EntryInteraction.

Lemma isKey_app (d1 d2 : list DictionaryEntry) (w : text) :
  isKey (d1 ++ d2) w = isKey d1 w || isKey d2 w.
Proof. unfold isKey. apply existsb_app. Qed.

Lemma lookupWord_skip (d1 d2 : list DictionaryEntry) (e : DictionaryEntry) (w : text) :
  eqCI (word e) w = false \/ isKey d1 w = true ->
  lookupWord (d1 ++ e :: d2) w = lookupWord (d1 ++ d2) w.
Proof.
  induction d1 as [|e1 d1 IH]; intros H.
  - destruct H as [H|H]; [|discriminate]. cbn. now rewrite H.
  - cbn [app lookupWord]. destruct (eqCI (word e1) w) eqn:E1; [reflexivity|].
    apply IH. destruct H as [H|H]; [now left|right].
    change (isKey (e1 :: d1) w) with (eqCI (word e1) w || isKey d1 w) in H.
    now rewrite E1 in H.
Qed.

Lemma isKey_eqCI (d : list DictionaryEntry) (k w : text) :
  isKey d k = true -> eqCI k w = true -> isKey d w = true.
Proof.
  unfold isKey. rewrite !existsb_exists. intros (e & He & Hk) Hw.
  exists e. split; [assumption|]. eapply eqCI_trans; eassumption.
Qed.

Lemma chainFree_remove (d1 d2 : list DictionaryEntry) (e : DictionaryEntry) :
  chainFree (d1 ++ e :: d2) -> chainFree (d1 ++ d2).
Proof.
  induction d1 as [|e1 d1 IH]; cbn [app chainFree].
  - now intros [_ H].
  - intros [H1 H2]. split; [|auto].
    intros w Hw. specialize (H1 w Hw).
    rewrite isKey_app in *. apply orb_false_iff in H1 as [Ha Hb].
    apply isKey_cons_false in Hb. now rewrite Ha, Hb.
Qed.

Lemma forallb_remove {A} (p : A -> bool) (l1 l2 : list A) (a : A) :
  forallb p (l1 ++ a :: l2) = true -> forallb p (l1 ++ l2) = true.
Proof.
  rewrite !forallb_app. cbn. rewrite !andb_true_iff. tauto.
Qed.

(** X6.  Keys are compared up to case, and the first entry with the key of
    a word decides: an entry whose key is, up to case, the key of an
    earlier entry never has an effect, the dictionary works as if it were
    not there. *)
Theorem later_entry_with_the_same_key_is_dead
    (d1 d2 : list DictionaryEntry) (e : DictionaryEntry) (s : text) :
  wordKeys (d1 ++ e :: d2) = true ->
  plainReplacements (d1 ++ e :: d2) = true ->
  chainFree (d1 ++ e :: d2) ->
  isKey d1 (word e) = true ->
  applyDictionary (d1 ++ e :: d2) s = applyDictionary (d1 ++ d2) s.
Proof.
  intros Hk Hr Hc He.
  rewrite !applyDictionary_whole_words;
    try assumption;
    try (now apply (forallb_remove _ d1 d2 e));
    try (now apply (chainFree_remove d1 d2 e)).
  f_equal. apply mapWords_ext. intros w _. apply lookupWord_skip.
  destruct (eqCI (word e) w) eqn:E; [right|now left].
  now apply (isKey_eqCI d1 (word e)).
Qed.

Lemma later_entry_with_the_same_key_is_dead_witness :
  applyDictionary ([mkEntry (str "gonna") (str "going to") None]
                   ++ mkEntry (str "Gonna") (str "about to") None :: [])
    (str "Gonna go")
  = applyDictionary ([mkEntry (str "gonna") (str "going to") None] ++ [])
      (str "Gonna go").
Proof.
  apply later_entry_with_the_same_key_is_dead; try reflexivity.
  cbn. repeat split; intros w H;
    repeat (destruct H as [<-|H]; [reflexivity|]); destruct H.
Defined.

(** The pass over two dictionaries, one after the other. *)
Lemma applyDictionary_app (d1 d2 : list DictionaryEntry) (s : text) :
  applyDictionary (d1 ++ d2) s
  = match applyDictionary d1 s with
    | Ok t => applyDictionary d2 t
    | Throw e => Throw e
    | Unmodelled => Unmodelled
    end.
Proof.
  revert s. induction d1 as [|e d1 IH]; intros s; [reflexivity|].
  cbn [app applyDictionary]. destruct (replaceEntry s e); auto.
Qed.

Lemma applyDictionary_word_keys_ok (d : list DictionaryEntry) :
  wordKeys d = true -> plainReplacements d = true ->
  forall s, exists t, applyDictionary d s = Ok t.
Proof.
  induction d as [|e d IH]; intros Hk Hr s; [now exists s|].
  cbn in Hk, Hr. apply andb_true_iff in Hk as [Hke Hk].
  apply andb_true_iff in Hr as [Hre Hr].
  cbn [applyDictionary]. rewrite replaceEntry_word_key by assumption. auto.
Qed.

Lemma applyDictionary_invalid_pattern
    (d1 d2 : list DictionaryEntry) (e : DictionaryEntry) (msg : string) (s : text) :
  wordKeys d1 = true -> plainReplacements d1 = true ->
  new_RegExp (str "\b" ++ word e ++ str "\b") = SyntaxError msg ->
  applyDictionary (d1 ++ e :: d2) s = Throw (JsSyntaxError msg).
Proof.
  intros Hk Hr He. rewrite applyDictionary_app.
  destruct (applyDictionary_word_keys_ok d1 Hk Hr s) as [t ->].
  cbn [applyDictionary]. unfold replaceEntry. now rewrite He.
Qed.

End EntryInteraction.

(** A run of [processRecording] whose prompt cannot be built. *)
Lemma processRecording_without_prompt {Entry} (V : Variant Entry)
    (sv : Services Entry) (d : list Entry) (u : option User) (cs : list Blob)
    (dur : Z) (w : World Entry) :
  (forall t, exists e, composePrompt V d t = Throw e) ->
  let '(res, w') := processRecording V sv d u cs dur w in
  res = Ok tt
  /\ voiceNotes (state w') = voiceNotes (state w)
  /\ currentNote (state w') = currentNote (state w)
  /\ isTranscribing (state w') = false
  /\ exists new,
       log w' = log w ++ new
       /\ In (ToastError "Failed to process recording") new
       /\ (forall p, ~ In (CallGenerateText p) new)
       /\ (forall note uid, ~ In (CallCreateNote note uid) new).
Proof.
  intros Hthrow.
  run_pipeline d u cs w.
  all: try match goal with
       | H : composePrompt _ _ ?t = Ok _ |- _ =>
           destruct (Hthrow t) as [? Hc]; congruence
       | H : composePrompt _ _ ?t = Unmodelled |- _ =>
           destruct (Hthrow t) as [? Hc]; congruence
       end.
  all: repeat split; try reflexivity.
  all: eexists; split; [rewrite <- ?app_assoc; reflexivity|].
  all: split; [rewrite ?in_app_iff; cbn [In]; tauto|].
  all: split; intros; intros Hin; in_cases; discriminate.
Qed.

(** X7.  An entry whose word is no valid pattern breaks every recording:
    when the entries before it have word keys, the substitution throws a
    [SyntaxError], whatever the transcript, so [processRecording] shows its
    error toast, calls neither the correction nor the store, and keeps no
    note. *)
Theorem invalid_pattern_entry_fails_every_recording
    (d1 d2 : list DictionaryEntry) (e : DictionaryEntry) (msg : string)
    (sv : Services DictionaryEntry) (u : option User) (cs : list Blob)
    (dur : Z) (w : World DictionaryEntry) :
  wordKeys d1 = true -> plainReplacements d1 = true ->
  new_RegExp (str "\b" ++ word e ++ str "\b") = SyntaxError msg ->
  (forall s, applyDictionary (d1 ++ e :: d2) s = Throw (JsSyntaxError msg))
  /\ let '(res, w') := processRecording App.variant sv (d1 ++ e :: d2) u cs dur w in
     res = Ok tt
     /\ voiceNotes (state w') = voiceNotes (state w)
     /\ currentNote (state w') = currentNote (state w)
     /\ isTranscribing (state w') = false
     /\ exists new,
          log w' = log w ++ new
          /\ In (ToastError "Failed to process recording") new
          /\ (forall p, ~ In (CallGenerateText p) new)
          /\ (forall note uid, ~ In (CallCreateNote note uid) new).
Proof.
  intros Hk Hr He. split.
  - intros s. now apply applyDictionary_invalid_pattern.
  - apply processRecording_without_prompt. intros t.
    exists (JsSyntaxError msg). cbn [composePrompt App.variant].
    unfold App.composePrompt.
    now rewrite (applyDictionary_invalid_pattern d1 d2 e msg t).
Qed.

Lemma invalid_pattern_entry_fails_every_recording_witness :
  (forall s,
     applyDictionary ([mkEntry (str "gonna") (str "going to") None]
                      ++ mkEntry (str "c++") (str "C plus plus") None :: [])
       s = Throw (JsSyntaxError "Nothing to repeat"))
  /\ let '(res, w') :=
       processRecording App.variant Session.services
         ([mkEntry (str "gonna") (str "going to") None]
          ++ mkEntry (str "c++") (str "C plus plus") None :: [])
         (user Session.signedIn) [str "abc"] 3000%Z Session.world in
     res = Ok tt
     /\ voiceNotes (state w') = voiceNotes (state Session.world)
     /\ currentNote (state w') = currentNote (state Session.world)
     /\ isTranscribing (state w') = false
     /\ exists new,
          log w' = log Session.world ++ new
          /\ In (ToastError "Failed to process recording") new
          /\ (forall p, ~ In (CallGenerateText p) new)
          /\ (forall note uid, ~ In (CallCreateNote note uid) new).
Proof.
  apply (invalid_pattern_entry_fails_every_recording
           [mkEntry (str "gonna") (str "going to") None] []
           (mkEntry (str "c++") (str "C plus plus") None) "Nothing to repeat"
           Session.services (user Session.signedIn) [str "abc"] 3000%Z
           Session.world); reflexivity.
Defined.

(** ** What a run of [processRecording] changes *)

(** The cells a run never writes, the flag it clears, and the note it may
    add. *)
Lemma processRecording_effect {Entry} (V : Variant Entry) (sv : Services Entry)
    (d : list Entry) (u : option User) (cs : list Blob) (dur : Z)
    (w : World Entry) :
  let '(res, w') := processRecording V sv d u cs dur w in
  (isRecording (state w') = isRecording (state w)
   /\ dictionary (state w') = dictionary (state w)
   /\ newWord (state w') = newWord (state w)
   /\ newReplacement (state w') = newReplacement (state w)
   /\ mediaRecorder (state w') = mediaRecorder (state w)
   /\ recordingStart (state w') = recordingStart (state w)
   /\ user (state w') = user (state w)
   /\ ticks w <= ticks w')
  /\ (res = Unmodelled \/ (res = Ok tt /\ isTranscribing (state w') = false))
  /\ ((voiceNotes (state w') = voiceNotes (state w)
       /\ currentNote (state w') = currentNote (state w))
      \/ exists note,
           voiceNotes (state w') = note :: voiceNotes (state w)
           /\ ticks w' = S (S (ticks w))
           /\ currentNote (state w') = text_ note
           /\ duration note = dur
           /\ id note = toString (clock sv (ticks w))
           /\ timestamp note = clock sv (S (ticks w))
           /\ (exists audio language,
                 transcribeAudio sv audio language = Resolve (original_text note))
           /\ (exists prompt,
                 composePrompt V d (original_text note) = Ok prompt
                 /\ generateText sv prompt = Resolve (text_ note)))
  /\ exists new,
       log w' = log w ++ new
       /\ (forall blob, In (CallReadAsDataURL blob) new -> blob = new_Blob cs)
       /\ (forall prompt, In (CallGenerateText prompt) new ->
             exists audio language transcript,
               In (CallTranscribeAudio audio language) new
               /\ transcribeAudio sv audio language = Resolve transcript
               /\ composePrompt V d transcript = Ok prompt)
       /\ (forall note uid, In (CallCreateNote note uid) new ->
             duration note = dur /\ option_map user_id u = Some uid).
Proof.
  run_pipeline d u cs w.
  all: split; [repeat split; lia|].
  all: split; [first [left; reflexivity | right; split; reflexivity]|].
  all: split;
    [ first
        [ left; split; reflexivity
        | right; eexists; repeat split; try reflexivity;
          [ do 2 eexists; eassumption
          | eexists; split; eassumption ] ]
    | ].
  all: eexists; split; [rewrite <- ?app_assoc; reflexivity|].
  all: split; [|split].
  all: try (intros blob Hin; in_cases; try discriminate; try one_call;
            try reflexivity; congruence).
  all: try (intros p Hin; in_cases; try discriminate; one_call;
            do 3 eexists; (split; [|split; eassumption]);
            rewrite !in_app_iff; cbn; tauto).
  all: intros note uid Hin; in_cases; try discriminate; one_call;
    split; reflexivity.
Qed.

(** ** The main button and the recorder *)

Ltac run_recorder :=
  unfold act, mainButton, startRecording, stopRecording, stopEvent,
    dataavailable, onstop, tryCatch, await, setMediaRecorder,
    setRecordingStart, updateRecorder, setIsRecording, setIsTranscribing,
    Date_now, get, modify, emit, throw, ret, bind, screen;
  cbn -[processRecording ondataavailable].

Section Lifecycle.

Context {Entry : Type}.
Variable V : Variant Entry.
Variable sv : Services Entry.




Lemma new_Blob_app (a b : list Blob) :
  new_Blob (a ++ b) = new_Blob a ++ new_Blob b.
Proof. unfold new_Blob. apply concat_app. Qed.


End Lifecycle.

(** ** Sessions: the main button, the recorder and the other controls *)

Ltac run_action :=
  unfold act, onMainScreen, screen, dataavailable, updateRecorder,
    addDictionaryEntry, deleteDictionaryEntry, deleteNote, tryCatch,
    await, setDictionary, setVoiceNotes, setNewWord, setNewReplacement,
    userId, get, modify, emit, throw, ret, bind;
  cbn -[filter existsb ondataavailable];
  cbn [state log ticks isRecording isTranscribing currentNote voiceNotes
       dictionary newWord newReplacement mediaRecorder recordingStart user].

Ltac quiet_close :=
  do 2 eexists; (split; [reflexivity|]); cbn -[filter ondataavailable];
  repeat match goal with |- _ /\ _ => split end;
  first
    [ reflexivity
    | eexists; reflexivity
    | exists (fun _ => true); symmetry; apply filter_true
    | symmetry; apply app_nil_r
    | rewrite <- ?app_assoc; reflexivity
    | match goal with |- context [option_map _ ?mr] => now destruct mr end ].

Section Sessions.

Context {Entry : Type}.
Variable V : Variant Entry.
Variable sv : Services Entry.

Lemma acts_cons (a : action) (l : list action) (w w1 : World Entry) :
  act V sv a w = (Ok tt, w1) -> acts V sv (a :: l) w = acts V sv l w1.
Proof. intros H. cbn [acts]. unfold bind. now rewrite H. Qed.



(** An action other than the main button: the flags, the clock and the
    start of the recording stay; the recorder gets the data, if any; no
    step of the pipeline runs and no note is added. *)
Lemma quiet_act (a : action) (w : World Entry) :
  isPress a = false ->
  exists w1 extra,
    act V sv a w = (Ok tt, w1)
    /\ isRecording (state w1) = isRecording (state w)
    /\ isTranscribing (state w1) = isTranscribing (state w)
    /\ user (state w1) = user (state w)
    /\ recordingStart (state w1) = recordingStart (state w)
    /\ ticks w1 = ticks w
    /\ mediaRecorder (state w1)
       = option_map (recorded (dataOf [a])) (mediaRecorder (state w))
    /\ (exists keep,
          voiceNotes (state w1) = filter keep (voiceNotes (state w)))
    /\ log w1 = log w ++ extra
    /\ stagesOf extra = [].
Proof.
  intros Ha. destruct w as [s l t].
  destruct s as [ir it cn vn di nw nr mr rs [u|]].
  2: destruct a; try discriminate Ha; run_action; quiet_close.
  destruct a as [x|data|value|value| |k|noteId]; try discriminate Ha;
    run_action.
  - quiet_close.
  - quiet_close.
  - destruct (clearsReplacement V); quiet_close.
  - destruct (formFilled V nw nr) eqn:E; run_action; [|quiet_close].
    destruct (formEntry V nw nr (user_id u)) as [entry kept]. run_action.
    destruct (dictionary_entries_create sv entry) as [[]|e];
      [destruct (clearsReplacement V)|]; run_action; quiet_close.
  - destruct (existsb (fun entry => eqbText (entryWord V entry) k) di);
      [destruct (dictionary_entries_delete sv k) as [[]|e]|];
      run_action; quiet_close.
  - destruct (existsb (fun note => eqbText (id note) noteId) vn);
      [destruct (voice_notes_delete sv noteId) as [[]|e]|];
      run_action; quiet_close.
Qed.



(** The main button on an idle component, the microphone granted. *)
Lemma press_starts (x : Blob) (w : World Entry) :
  screen (state w) = MainScreen ->
  isTranscribing (state w) = false ->
  isRecording (state w) = false ->
  getUserMedia sv = Resolve tt ->
  act V sv (Press x) w
  = (Ok tt,
     mkWorld
       (mkAppState true false (currentNote (state w)) (voiceNotes (state w))
          (dictionary (state w)) (newWord (state w)) (newReplacement (state w))
          (Some (mkRecorder true [] (recordingStart (state w))
                   (dictionary (state w)) (user (state w))))
          (clock sv (ticks w)) (user (state w)))
       (log w ++ [CallGetUserMedia; ToastSuccess "Recording started"])
       (S (ticks w))).
Proof.
  intros Hs Ht Hr Hg. destruct w as [s l t]. destruct s as [ir it cn vn di nw nr mr rs us]. cbn in *.
  unfold screen in Hs. cbn in Hs. subst.
  run_recorder. destruct us; [|discriminate].
  rewrite Hg. cbn. now rewrite <- app_assoc.
Qed.

(** The main button while recording. *)
Lemma press_stops (last : Blob) (w : World Entry) (r : Recorder Entry) :
  screen (state w) = MainScreen ->
  isTranscribing (state w) = false ->
  isRecording (state w) = true ->
  mediaRecorder (state w) = Some r ->
  recording r = true ->
  act V sv (Press last) w
  = processRecording V sv (closure_dictionary r) (closure_user r)
      (chunks (recorded [last] r))
      (clock sv (ticks w) - closure_recordingStart r)
      (mkWorld
         (mkAppState false true (currentNote (state w)) (voiceNotes (state w))
            (dictionary (state w)) (newWord (state w)) (newReplacement (state w))
            (Some (setRecorderState Entry false (recorded [last] r)))
            (recordingStart (state w)) (user (state w)))
         (log w ++ [ToastSuccess "Recording stopped, transcribing..."])
         (S (ticks w))).
Proof.
  intros Hs Ht Hr Hm Hrec. destruct w as [s l t]. destruct s as [ir it cn vn di nw nr mr rs us]. cbn in *.
  unfold screen in Hs. cbn in Hs. subst.
  destruct us; [|discriminate]. run_recorder.
  rewrite Hrec. run_recorder.
  unfold recorded, ondataavailable. cbn [fold_left].
  destruct (0 <? size last); reflexivity.
Qed.







(** One action while the microphone is refused. *)
Lemma act_without_microphone (e : exn) (a : action) (w : World Entry) :
  getUserMedia sv = Reject e ->
  isRecording (state w) = false ->
  isTranscribing (state w) = false ->
  exists w1 extra,
    act V sv a w = (Ok tt, w1)
    /\ isRecording (state w1) = false
    /\ isTranscribing (state w1) = false
    /\ incl (voiceNotes (state w1)) (voiceNotes (state w))
    /\ log w1 = log w ++ extra
    /\ stagesOf extra = [].
Proof.
  intros Hg Hr Ht.
  destruct (isPress a) eqn:Ha.
  - destruct a as [last| | | | | |]; try discriminate Ha.
    destruct w as [s l t]. destruct s as [ir it cn vn di nw nr mr rs us]. cbn in *. subst.
    destruct us; run_recorder; rewrite ?Hg; cbn.
    all: do 2 eexists; (split; [reflexivity|]); cbn;
      repeat match goal with |- _ /\ _ => split end;
      first [ reflexivity | apply incl_refl | symmetry; apply app_nil_r
            | rewrite <- ?app_assoc; reflexivity ].
  - destruct (quiet_act a w Ha)
      as (w1 & e1 & Hact & Hr1 & Ht1 & _ & _ & _ & _ & [keep Hv1] & Hl1 & Hg1).
    exists w1, e1. repeat split; try assumption; try congruence.
    rewrite Hv1. apply incl_filter.
Qed.

(** X12.  While the microphone is refused, whatever the user and the
    recorder do on the idle component: every handler returns, no
    recording starts, no step of the pipeline runs, and no note is
    added. *)
Theorem refused_microphone_records_nothing
    (e : exn) (l : list action) (w : World Entry) :
  getUserMedia sv = Reject e ->
  isRecording (state w) = false ->
  isTranscribing (state w) = false ->
  let '(res, w') := acts V sv l w in
  res = Ok tt
  /\ isRecording (state w') = false
  /\ isTranscribing (state w') = false
  /\ incl (voiceNotes (state w')) (voiceNotes (state w))
  /\ exists new, log w' = log w ++ new /\ stagesOf new = [].
Proof.
  intros Hg. revert w. induction l as [|a l IH]; intros w Hr Ht.
  - cbn. repeat split; try assumption; [apply incl_refl|].
    exists []. now rewrite app_nil_r.
  - destruct (act_without_microphone e a w Hg Hr Ht)
      as (w1 & e1 & Hact & Hr1 & Ht1 & Hv1 & Hl1 & Hg1).
    rewrite (acts_cons _ _ _ _ Hact).
    specialize (IH w1 Hr1 Ht1).
    destruct (acts V sv l w1) as [res w'].
    destruct IH as (Hres & Hr' & Ht' & Hv' & new & Hl' & Hg').
    repeat split; try assumption.
    + eapply incl_tran; eassumption.
    + exists (e1 ++ new). rewrite Hl', Hl1, app_assoc, stagesOf_app, Hg1, Hg'.
      now split.
Qed.

End Sessions.




Lemma refused_microphone_records_nothing_witness :
  let sv := withoutMicrophone (JsError "Permission denied") Session.services in
  let '(res, w') :=
    acts App.variant sv [Press []; Data (str "abc"); Press (str "f")]
      Session.world in
  res = Ok tt
  /\ isRecording (state w') = false
  /\ isTranscribing (state w') = false
  /\ incl (voiceNotes (state w')) (voiceNotes (state Session.world))
  /\ exists new, log w' = log Session.world ++ new /\ stagesOf new = [].
Proof.
  apply (refused_microphone_records_nothing App.variant
           (withoutMicrophone (JsError "Permission denied") Session.services)
           (JsError "Permission denied")
           [Press []; Data (str "abc"); Press (str "f")] Session.world);
    reflexivity.
Defined.

(** ** Deleting a key and the other spellings of it *)

Section Spellings.

Lemma eqCI_word_chars (a b : text) :
  eqCI a b = true -> forallb isWordChar a = forallb isWordChar b.
Proof.
  revert b. induction a as [|x a IH]; intros [|y b] H; try discriminate;
    [reflexivity|].
  cbn in H. apply andb_true_iff in H as [Hxy H].
  cbn. now rewrite (sameCI_word x y Hxy), (IH b H).
Qed.

Lemma eqCI_isWordKey (a b : text) :
  eqCI a b = true -> isWordKey a = true -> isWordKey b = true.
Proof.
  intros H Ha. unfold isWordKey in *.
  rewrite <- (eqCI_word_chars a b H).
  apply andb_true_iff in Ha as [Hne Hw]. rewrite Hw, andb_true_r.
  destruct a, b; try discriminate; reflexivity.
Qed.

Lemma forallb_filter_keeps {A} (p q : A -> bool) (l : list A) :
  forallb p l = true -> forallb p (filter q l) = true.
Proof.
  rewrite !forallb_forall. intros H x Hx. apply filter_In in Hx. now apply H.
Qed.

Lemma isKey_filter (q : DictionaryEntry -> bool) (d : list DictionaryEntry) (w : text) :
  isKey d w = false -> isKey (filter q d) w = false.
Proof.
  rewrite !isKey_false. intros H e He. apply filter_In in He. now apply H.
Qed.

Lemma chainFree_filter (q : DictionaryEntry -> bool) (d : list DictionaryEntry) :
  chainFree d -> chainFree (filter q d).
Proof.
  induction d as [|e d IH]; intros H; [exact I|].
  destruct H as [He Hd]. cbn [filter]. destruct (q e).
  - split; [|now apply IH]. intros w Hw. apply isKey_filter. now apply He.
  - now apply IH.
Qed.

(** X13.  [deleteDictionaryEntry] compares keys exactly, the substitution
    compares them up to case.  When the key deleted is a word and the
    dictionary has an entry whose key is another spelling of it, that
    entry stays, and after the deletion the word is still replaced in
    transcripts. *)
Theorem deleted_key_is_still_replaced
    (sv : Services DictionaryEntry) (w0 : World DictionaryEntry)
    (e : DictionaryEntry) (k : text) :
  wordKeys (dictionary (state w0)) = true ->
  plainReplacements (dictionary (state w0)) = true ->
  chainFree (dictionary (state w0)) ->
  In e (dictionary (state w0)) ->
  eqCI (word e) k = true ->
  word e <> k ->
  dictionary_entries_delete sv k = Resolve tt ->
  let d' := dictionary (state (snd (deleteDictionaryEntry App.variant sv k w0))) in
  In e d'
  /\ (forall e', In e' d' -> word e' <> k)
  /\ exists e', In e' d' /\ applyDictionary d' k = Ok (replacement e').
Proof.
  intros Hwk Hpl Hch He Hci Hne Hdel d'.
  assert (Hd' : d' = filter (fun entry => negb (eqbText (word entry) k))
                       (dictionary (state w0))).
  { subst d'. run_store. rewrite Hdel. reflexivity. }
  clearbody d'. subst d'.
  assert (Hin : In e (filter (fun entry => negb (eqbText (word entry) k))
                        (dictionary (state w0)))).
  { apply filter_In. split; [exact He|]. apply negb_true_iff.
    destruct (eqbText (word e) k) eqn:E; [|reflexivity].
    apply eqbText_eq in E. contradiction. }
  split; [exact Hin|]. split.
  - intros e' He'. apply filter_In in He' as [_ He'].
    apply negb_true_iff in He'. intros E. apply eqbText_eq in E. congruence.
  - rewrite applyDictionary_whole_words;
      [|now apply forallb_filter_keeps|now apply forallb_filter_keeps
       |now apply chainFree_filter].
    assert (Hk : isWordKey k = true).
    { apply (eqCI_isWordKey (word e) k Hci).
      unfold wordKeys in Hwk. rewrite forallb_forall in Hwk. now apply Hwk. }
    unfold isWordKey in Hk. apply andb_true_iff in Hk as [Hk1 Hk2].
    unfold replaceWholeWords. rewrite mapWords_word;
      [|destruct k; [discriminate|discriminate]|exact Hk2].
    match goal with |- context [lookupWord ?d k] =>
      destruct (lookupWord_cases d k) as [[Hno _]|(e' & He' & _ & Hl)] end.
    + rewrite isKey_false in Hno. rewrite (Hno e Hin) in Hci. discriminate.
    + exists e'. split; [exact He'|]. now rewrite Hl.
Qed.

End Spellings.

Lemma deleted_key_is_still_replaced_witness :
  let w0 :=
    mkWorld
      (mkAppState false false [] []
         [mkEntry (str "gonna") (str "going to") None;
          mkEntry (str "Gonna") (str "Going to") None]
         [] [] None 0%Z None) [] 0 in
  let d' :=
    dictionary (state (snd (deleteDictionaryEntry App.variant Session.services
                              (str "gonna") w0))) in
  In (mkEntry (str "Gonna") (str "Going to") None) d'
  /\ (forall e', In e' d' -> word e' <> str "gonna")
  /\ exists e', In e' d' /\ applyDictionary d' (str "gonna") = Ok (replacement e').
Proof.
  apply (deleted_key_is_still_replaced Session.services
           (mkWorld
              (mkAppState false false [] []
                 [mkEntry (str "gonna") (str "going to") None;
                  mkEntry (str "Gonna") (str "Going to") None]
                 [] [] None 0%Z None) [] 0)
           (mkEntry (str "Gonna") (str "Going to") None) (str "gonna"));
    try reflexivity.
  - split; [|split; [|exact I]]; intros w Hw; cbn in Hw;
      destruct Hw as [<-|[<-|[]]]; reflexivity.
  - cbn. right. left. reflexivity.
  - discriminate.
Defined.

(** ** The add form *)

Section Trim.

Lemma trimStart_split (s : text) :
  exists p, s = p ++ trimStart s /\ forallb isSpace p = true.
Proof.
  induction s as [|c s (p & Hs & Hp)]; [now exists []|].
  cbn [trimStart]. destruct (isSpace c) eqn:E.
  - exists (c :: p). cbn. rewrite E, Hp. split; [now f_equal|reflexivity].
  - now exists [].
Qed.

Lemma trimStart_head (s : text) (c : ascii) (t : text) :
  trimStart s = c :: t -> isSpace c = false.
Proof.
  induction s as [|x s IH]; [discriminate|].
  cbn [trimStart]. destruct (isSpace x) eqn:E; [exact IH|].
  intros H. injection H as <- _. exact E.
Qed.

Lemma trimStart_blank (s : text) : forallb isSpace s = true -> trimStart s = [].
Proof.
  induction s as [|c s IH]; [reflexivity|].
  cbn. intros H. apply andb_true_iff in H as [-> H]. auto.
Qed.

Lemma trimStart_fixed (s : text) :
  (forall c t, s = c :: t -> isSpace c = false) -> trimStart s = s.
Proof.
  destruct s as [|c t]; [reflexivity|]. intros H. cbn.
  now rewrite (H c t eq_refl).
Qed.

Lemma forallb_rev {A} (p : A -> bool) (l : list A) :
  forallb p (rev l) = forallb p l.
Proof.
  induction l as [|a l IH]; [reflexivity|].
  cbn. rewrite forallb_app, IH. cbn. rewrite andb_true_r. apply andb_comm.
Qed.

(** [trim]: the text is white space, the trimmed text, white space; the
    trimmed text is empty or begins and ends with a character that is not
    white space. *)
Lemma trim_spec (s : text) :
  exists p q,
    s = p ++ trim s ++ q
    /\ forallb isSpace p = true /\ forallb isSpace q = true
    /\ (forall c t, trim s = c :: t -> isSpace c = false)
    /\ (forall c t, trim s = t ++ [c] -> isSpace c = false).
Proof.
  unfold trim.
  destruct (trimStart_split s) as (p & Hs & Hp).
  destruct (trimStart_split (rev (trimStart s))) as (q & Hr & Hq).
  remember (trimStart s) as a eqn:Ea.
  remember (trimStart (rev a)) as b eqn:Eb.
  exists p, (rev q).
  assert (Ha : a = rev b ++ rev q).
  { rewrite <- rev_app_distr, <- Hr. now rewrite rev_involutive. }
  repeat split.
  - now rewrite <- Ha.
  - exact Hp.
  - now rewrite forallb_rev.
  - intros c t Hb.
    rewrite Hb in Ha. cbn in Ha.
    apply (trimStart_head s c (t ++ rev q)). congruence.
  - intros c t Hb.
    assert (Hb' : b = c :: rev t).
    { rewrite <- (rev_involutive b), Hb, rev_app_distr. reflexivity. }
    apply (trimStart_head (rev a) c (rev t)). congruence.
Qed.

Lemma trim_blank (s : text) : forallb isSpace s = true -> trim s = [].
Proof.
  intros H. unfold trim. now rewrite (trimStart_blank s H).
Qed.

Lemma trim_not_blank (s : text) : trim s = [] -> forallb isSpace s = true.
Proof.
  intros H. destruct (trim_spec s) as (p & q & Hs & Hp & Hq & _).
  rewrite H in Hs. cbn [app] in Hs. subst s.
  now rewrite forallb_app, Hp, Hq.
Qed.

Lemma trim_trim (s : text) : trim (trim s) = trim s.
Proof.
  destruct (trim_spec s) as (_ & _ & _ & _ & _ & Hh & Hl).
  unfold trim at 1. rewrite (trimStart_fixed (trim s) Hh).
  rewrite trimStart_fixed; [apply rev_involutive|].
  intros c t E. apply (Hl c (rev t)).
  rewrite <- (rev_involutive (trim s)), E. reflexivity.
Qed.

End Trim.

Lemma App_keepsTrimmedWord : keepsTrimmedWord App.variant.
Proof.
  intros nw nr uid. split; [reflexivity|].
  cbn. unfold App.formFilled. intros H E. rewrite E in H. discriminate.
Qed.

Lemma Preferred_keepsTrimmedWord : keepsTrimmedWord Preferred.variant.
Proof.
  intros nw nr uid. split; [reflexivity|].
  cbn. unfold Preferred.formFilled. intros H E. rewrite E in H. discriminate.
Qed.

Section AddForm.

Context {Entry : Type}.
Variable V : Variant Entry.
Variable sv : Services Entry.

(** The three ways [addDictionaryEntry] ends: the form is not filled; the
    form is filled and the entry is not created; the entry is created. *)
Lemma addDictionaryEntry_cases (w : World Entry) :
  let nw := newWord (state w) in
  let nr := newReplacement (state w) in
  let w' := snd (addDictionaryEntry V sv w) in
  (formFilled V nw nr = false /\ w' = w)
  \/ (formFilled V nw nr = true /\ state w' = state w)
  \/ (formFilled V nw nr = true
      /\ exists u,
           user (state w) = Some u
           /\ dictionary_entries_create sv (fst (formEntry V nw nr (user_id u)))
              = Resolve tt
           /\ dictionary (state w')
              = dictionary (state w) ++ [snd (formEntry V nw nr (user_id u))]
           /\ newWord (state w') = []
           /\ voiceNotes (state w') = voiceNotes (state w)
           /\ user (state w') = user (state w)
           /\ log w'
              = log w ++ [CallCreateEntry (fst (formEntry V nw nr (user_id u)));
                          ToastSuccess (toastAdded V)]).
Proof.
  destruct w as [s l t]. destruct s as [ir it cn vn di nw nr mr rs us].
  cbn [state newWord newReplacement].
  destruct (formFilled V nw nr) eqn:E; run_store; rewrite E; cbn;
    [|now left].
  right. destruct us as [u|]; cbn; [|now left].
  destruct (formEntry V nw nr (user_id u)) as [entry kept] eqn:Ef. run_store.
  destruct (dictionary_entries_create sv entry) as [[]|e] eqn:Ec; cbn;
    [|now left].
  right. split; [reflexivity|]. exists u.
  destruct (clearsReplacement V); cbn; rewrite <- ?app_assoc, ?Ef;
    cbn [fst snd]; repeat split; solve [reflexivity | exact Ec].
Qed.

(** X14.  The key an entry gets from the add form is the trimmed word:
    nothing happens when the word is white space only, and an entry that
    is added has a key that is not empty and neither begins nor ends with
    white space. *)
Theorem add_form_stores_a_trimmed_word (w : World Entry) :
  keepsTrimmedWord V ->
  let w' := snd (addDictionaryEntry V sv w) in
  (forallb isSpace (newWord (state w)) = true -> w' = w)
  /\ (dictionary (state w') = dictionary (state w)
      \/ exists e c t,
           dictionary (state w') = dictionary (state w) ++ [e]
           /\ entryWord V e = trim (newWord (state w))
           /\ entryWord V e = c :: t
           /\ isSpace c = false
           /\ isSpace (last t c) = false).
Proof.
  intros HV w'. subst w'.
  destruct (addDictionaryEntry_cases w)
    as [[Hf ->]|[[Hf Hs]|(Hf & u & Hu & Hc & Hd & _)]].
  - split; [reflexivity|now left].
  - split; [|left; now rewrite Hs].
    intros Hb. apply trim_blank in Hb.
    destruct (HV (newWord (state w)) (newReplacement (state w)) []) as [_ H].
    now apply H in Hf.
  - destruct (HV (newWord (state w)) (newReplacement (state w)) (user_id u))
      as [Hk Hne].
    specialize (Hne Hf). split.
    + intros Hb. apply trim_blank in Hb. contradiction.
    + right.
      destruct (trim_spec (newWord (state w))) as (_ & _ & _ & _ & _ & Hh & Hl).
      destruct (trim (newWord (state w))) as [|c t] eqn:Et; [contradiction|].
      exists (snd (formEntry V (newWord (state w)) (newReplacement (state w))
                     (user_id u))), c, t.
      repeat split; try assumption.
      * now apply (Hh c t).
      * destruct t as [|c' t'] using rev_ind.
        -- now apply (Hh c []).
        -- rewrite last_last. apply (Hl c' (c :: t')). reflexivity.
Qed.

(** X15.  An entry added and then deleted by its key: what is left is the
    dictionary as it was without the entries that had that key already.
    When no entry had it, the dictionary is as it was. *)
Theorem add_then_delete (w : World Entry) (u : User) :
  keepsTrimmedWord V ->
  let nw := newWord (state w) in
  let nr := newReplacement (state w) in
  user (state w) = Some u ->
  formFilled V nw nr = true ->
  dictionary_entries_create sv (fst (formEntry V nw nr (user_id u))) = Resolve tt ->
  dictionary_entries_delete sv (trim nw) = Resolve tt ->
  let w' := snd (bind (addDictionaryEntry V sv)
                   (fun _ => deleteDictionaryEntry V sv (trim nw)) w) in
  dictionary (state w')
  = filter (fun entry => negb (eqbText (entryWord V entry) (trim nw)))
      (dictionary (state w))
  /\ (~ In (trim nw) (map (entryWord V) (dictionary (state w))) ->
      dictionary (state w') = dictionary (state w)).
Proof.
  intros HV nw nr Hu Hf Hc Hd w'.
  assert (Hw' : dictionary (state w')
    = filter (fun entry => negb (eqbText (entryWord V entry) (trim nw)))
        (dictionary (state w))).
  { subst w' nw nr. destruct (HV (newWord (state w)) (newReplacement (state w))
      (user_id u)) as [Hk _].
    destruct w as [s l t]. destruct s as [ir it cn vn di nw nr mr rs us].
    cbn [state newWord newReplacement user dictionary] in *. subst us.
    run_store. rewrite Hf. cbn.
    destruct (formEntry V nw nr (user_id u)) as [entry kept] eqn:Ef.
    cbn [fst snd] in *. run_store. rewrite Hc.
    destruct (clearsReplacement V); cbn -[filter]; rewrite Hd; cbn -[filter].
    all: rewrite filter_app; cbn [filter]; rewrite Hk.
    all: assert (E : eqbText (trim nw) (trim nw) = true) by now apply eqbText_eq.
    all: rewrite E; cbn; apply app_nil_r. }
  split; [exact Hw'|].
  intros Hnew. rewrite Hw'. now apply filter_other_keys.
Qed.

End AddForm.

Lemma add_form_stores_a_trimmed_word_witness :
  let w :=
    mkWorld
      (mkAppState false false [] [] [] (str "  gonna ") (str "going to")
         None 0%Z (Some (mkUser (str "u1") (str "user@example.com")))) [] 0 in
  let w' := snd (addDictionaryEntry App.variant Session.services w) in
  (forallb isSpace (newWord (state w)) = true -> w' = w)
  /\ (dictionary (state w') = dictionary (state w)
      \/ exists e c t,
           dictionary (state w') = dictionary (state w) ++ [e]
           /\ word e = trim (newWord (state w))
           /\ word e = c :: t
           /\ isSpace c = false
           /\ isSpace (last t c) = false).
Proof.
  apply (add_form_stores_a_trimmed_word App.variant Session.services
           (mkWorld
              (mkAppState false false [] [] [] (str "  gonna ") (str "going to")
                 None 0%Z (Some (mkUser (str "u1") (str "user@example.com"))))
              [] 0)).
  exact App_keepsTrimmedWord.
Defined.

Lemma add_then_delete_witness :
  let w :=
    mkWorld
      (mkAppState false false [] []
         [mkEntry (str "gonna") (str "going to") None;
          mkEntry (str "wanna") (str "want to") None]
         (str " gonna ") (str "gonna") None 0%Z
         (Some (mkUser (str "u1") (str "user@example.com")))) [] 0 in
  let w' :=
    snd (bind (addDictionaryEntry App.variant Session.services)
           (fun _ => deleteDictionaryEntry App.variant Session.services
                       (trim (str " gonna "))) w) in
  dictionary (state w')
  = filter (fun entry => negb (eqbText (word entry) (trim (str " gonna "))))
      (dictionary (state w))
  /\ (~ In (trim (str " gonna ")) (map word (dictionary (state w))) ->
      dictionary (state w') = dictionary (state w)).
Proof.
  apply (add_then_delete App.variant Session.services
           (mkWorld
              (mkAppState false false [] []
                 [mkEntry (str "gonna") (str "going to") None;
                  mkEntry (str "wanna") (str "want to") None]
                 (str " gonna ") (str "gonna") None 0%Z
                 (Some (mkUser (str "u1") (str "user@example.com")))) [] 0)
           (mkUser (str "u1") (str "user@example.com")));
    try reflexivity.
  exact App_keepsTrimmedWord.
Defined.

(** ** Durations as the history shows them, identifiers of notes *)

Lemma toString_inj (a b : Z) : toString a = toString b -> a = b.
Proof.
  unfold toString, str. intros H.
  apply (f_equal string_of_list_ascii) in H.
  rewrite !string_of_list_ascii_of_string in H.
  apply (f_equal NilZero.int_of_string) in H.
  assert (Hn : forall z, Z.to_int z <> Decimal.Pos Decimal.Nil
                         /\ Z.to_int z <> Decimal.Neg Decimal.Nil).
  { intros [|p|p]; cbn; split; try discriminate; intros E; injection E;
      apply Unsigned.to_uint_nonnil. }
  rewrite !NilZero.isi in H by apply Hn.
  injection H as H. now apply DecimalZ.to_int_inj.
Qed.


Section Durations.

Lemma seconds_two_digits (n : nat) :
  n < 60 ->
  padStart 2 (str "0") (toString (Z.of_nat n))
  = [digit (Z.of_nat n / 10); digit (Z.of_nat n mod 10)].
Proof.
  intros H.
  do 60 (destruct n as [|n]; [vm_compute; reflexivity|]).
  lia.
Qed.

(** The text of a duration that is not negative. *)
Lemma formatDuration_shape (ms : Z) :
  (0 <= ms < 2 ^ 53)%Z ->
  let s := ((ms / 1000) mod 60)%Z in
  formatDuration ms
  = Some (toString (ms / 60000) ++ [":"%char]
          ++ [digit (s / 10); digit (s mod 10)])
    /\ (0 <= s < 60)%Z.
Proof.
  intros Hms s. unfold formatDuration.
  assert (Hsafe : safeInteger ms = true).
  { unfold safeInteger. apply andb_true_iff. split; apply Z.ltb_lt; lia. }
  rewrite Hsafe.
  assert (Hsec : (0 <= ms / 1000)%Z) by (apply Z.div_pos; lia).
  assert (Hs : (0 <= s < 60)%Z) by (subst s; apply Z.mod_pos_bound; lia).
  split; [|exact Hs].
  rewrite Z.rem_mod_nonneg by lia. fold s.
  rewrite Z.div_div by lia. change (1000 * 60)%Z with 60000%Z.
  do 3 f_equal.
  rewrite <- (Z2Nat.id s) by lia.
  apply seconds_two_digits. lia.
Qed.

(** X16.  The duration of a note as the history shows it, for a duration
    below [2^53] milliseconds: [m] minutes, [s] seconds and a rest of
    less than a second are shown as the minutes in decimal, without an
    hours part, a colon, and the seconds as two digits. *)
Theorem formatDuration_minutes_and_two_digits (m s r : Z) :
  (0 <= m)%Z -> (0 <= s < 60)%Z -> (0 <= r < 1000)%Z ->
  (60000 * m + 1000 * s + r < 2 ^ 53)%Z ->
  formatDuration (60000 * m + 1000 * s + r)
  = Some (toString m ++ [":"%char] ++ [digit (s / 10); digit (s mod 10)]).
Proof.
  intros Hm Hs Hr Hsafe.
  destruct (formatDuration_shape (60000 * m + 1000 * s + r)) as [E _]; [lia|].
  cbv zeta in E. rewrite E.
  assert (Hsec : ((60000 * m + 1000 * s + r) / 1000 = 60 * m + s)%Z).
  { symmetry. apply (Z.div_unique _ _ _ r); lia. }
  assert (Hmin : ((60000 * m + 1000 * s + r) / 60000 = m)%Z).
  { symmetry. apply (Z.div_unique _ _ _ (1000 * s + r)); lia. }
  assert (Hrem : ((60 * m + s) mod 60 = s)%Z).
  { symmetry. apply (Z.mod_unique _ _ m); lia. }
  now rewrite Hsec, Hmin, Hrem.
Qed.

Lemma digit_inj (x y : Z) :
  (0 <= x < 10)%Z -> (0 <= y < 10)%Z -> digit x = digit y -> x = y.
Proof.
  intros Hx Hy H. unfold digit in H.
  apply (f_equal N_of_ascii) in H.
  rewrite !N_ascii_embedding in H by lia. lia.
Qed.

(** X17.  Two durations that are not negative and below [2^53]
    milliseconds are shown alike only when they have the same number of
    whole seconds. *)
Theorem formatDuration_tells_seconds_apart (a b : Z) :
  (0 <= a < 2 ^ 53)%Z -> (0 <= b < 2 ^ 53)%Z ->
  formatDuration a = formatDuration b ->
  (a / 1000 = b / 1000)%Z.
Proof.
  intros Ha Hb H.
  destruct (formatDuration_shape a Ha) as [Ea Hsa].
  destruct (formatDuration_shape b Hb) as [Eb Hsb].
  cbv zeta in *. rewrite Ea, Eb in H. clear Ea Eb.
  injection H as H.
  set (sa := ((a / 1000) mod 60)%Z) in *.
  set (sb := ((b / 1000) mod 60)%Z) in *.
  apply (f_equal (@rev ascii)) in H.
  rewrite !rev_app_distr in H. cbn [rev app] in H.
  injection H as H0 H1 Hm.
  apply (f_equal (@rev ascii)) in Hm. rewrite !rev_involutive in Hm.
  apply toString_inj in Hm.
  apply digit_inj in H0; [|apply Z.mod_pos_bound; lia|apply Z.mod_pos_bound; lia].
  apply digit_inj in H1;
    [|split; [apply Z.div_pos; lia|apply Z.div_lt_upper_bound; lia]
     |split; [apply Z.div_pos; lia|apply Z.div_lt_upper_bound; lia]].
  assert (Hs : sa = sb).
  { rewrite (Z.div_mod sa 10), (Z.div_mod sb 10) by lia. congruence. }
  rewrite (Z.div_mod (a / 1000) 60), (Z.div_mod (b / 1000) 60) by lia.
  fold sa sb. rewrite !Z.div_div by lia. change (1000 * 60)%Z with 60000%Z.
  congruence.
Qed.

End Durations.

Section NoteIds.

Context {Entry : Type}.
Variable V : Variant Entry.
Variable sv : Services Entry.
Hypothesis Hclock : steady (clock sv).

Lemma clock_le (i j : nat) : i <= j -> (clock sv i <= clock sv j)%Z.
Proof.
  induction 1 as [|j _ IH]; [lia|].
  pose proof (proj1 Hclock j). lia.
Qed.

Lemma NoDup_map_filter {A B} (f : A -> B) (keep : A -> bool) (l : list A) :
  NoDup (map f l) -> NoDup (map f (filter keep l)).
Proof.
  induction l as [|a l IH]; intros H; [constructor|].
  cbn in *. inversion H as [|? ? Hn Hd]; subst.
  destruct (keep a); [|auto]. cbn. constructor; [|auto].
  intros Hin. apply Hn. apply in_map_iff in Hin as (x & Hx & Hin).
  apply filter_In in Hin as [Hin _]. apply in_map_iff. eauto.
Qed.

(** The notes of a world made from those of another by the handlers. *)
Lemma idsBefore_step (w w1 : World Entry) :
  idsBefore sv w ->
  ticks w <= ticks w1 ->
  ((exists keep, voiceNotes (state w1) = filter keep (voiceNotes (state w)))
   \/ exists note t,
        voiceNotes (state w1) = note :: voiceNotes (state w)
        /\ id note = toString (clock sv t)
        /\ ticks w <= t /\ S (S t) <= ticks w1) ->
  idsBefore sv w1.
Proof.
  intros [Hd Hb] Ht [[keep Hv]|(note & t & Hv & Hid & Hlt)];
    unfold idsBefore; rewrite Hv.
  - split; [now apply NoDup_map_filter|].
    intros n Hn. apply filter_In in Hn as [Hn _].
    destruct (Hb n Hn) as (z & Hz & Hlt). exists z. split; [exact Hz|].
    pose proof (clock_le _ _ Ht). lia.
  - split.
    + cbn. constructor; [|exact Hd]. intros Hin.
      apply in_map_iff in Hin as (n & Hn & Hin).
      destruct (Hb n Hin) as (z & Hz & Hzlt).
      rewrite Hid, Hz in Hn. apply toString_inj in Hn. subst z.
      pose proof (clock_le (ticks w) t (proj1 Hlt)). lia.
    + intros n [<-|Hn].
      * exists (clock sv t). split; [exact Hid|].
        pose proof (proj2 Hclock t). pose proof (clock_le _ _ (proj2 Hlt)). lia.
      * destruct (Hb n Hn) as (z & Hz & Hzlt). exists z. split; [exact Hz|].
        pose proof (clock_le _ _ Ht). lia.
Qed.

Lemma act_idsBefore (a : action) (w : World Entry) :
  idsBefore sv w -> idsBefore sv (snd (act V sv a w)).
Proof.
  intros Hw.
  destruct (isPress a) eqn:Ha.
  - destruct a as [last| | | | | |]; try discriminate Ha.
    destruct (screen (state w)) eqn:Hs.
    { unfold act, mainButton, get, bind, ret. cbn. now rewrite Hs. }
    destruct (isTranscribing (state w)) eqn:Ht.
    { unfold act, mainButton, get, bind, ret. cbn. now rewrite Hs, Ht. }
    destruct (isRecording (state w)) eqn:Hrec.
    + destruct (mediaRecorder (state w)) as [r|] eqn:Hm.
      2: { unfold act, mainButton, stopRecording, get, bind, ret. cbn.
           now rewrite Hs, Ht, Hrec, Hm. }
      destruct (recording r) eqn:Hr.
      2: { unfold act, mainButton, stopRecording, get, bind, ret. cbn.
           now rewrite Hs, Ht, Hrec, Hm, Hr. }
      rewrite (press_stops V sv last w r Hs Ht Hrec Hm Hr).
      match goal with
      | |- context [processRecording V sv ?d ?u ?cs ?dur ?w3] =>
          pose proof (processRecording_effect V sv d u cs dur w3) as He;
          destruct (processRecording V sv d u cs dur w3) as [res w']
      end.
      destruct He as ((_ & _ & _ & _ & _ & _ & _ & Hk) & _ & Hn & _).
      cbn [snd state ticks voiceNotes] in *.
      apply (idsBefore_step w w' Hw); [lia|].
      destruct Hn as [[Hv _]|(note & Hv & Hk' & _ & _ & Hid & _)].
      * left. exists (fun _ => true). now rewrite filter_true.
      * right. exists note, (S (ticks w)). repeat split; try assumption; lia.
    + destruct (getUserMedia sv) as [[]|e] eqn:Hg.
      * rewrite (press_starts V sv last w Hs Ht Hrec Hg). cbn [snd].
        apply (idsBefore_step w _ Hw); cbn; [lia|].
        left. exists (fun _ => true). now rewrite filter_true.
      * destruct w as [s l t]. destruct s as [ir it cn vn di nw nr mr rs us].
        unfold screen in Hs. cbn in *. subst.
        destruct us; [|discriminate]. run_recorder. rewrite Hg. exact Hw.
  - destruct (quiet_act V sv a w Ha)
      as (w1 & e1 & -> & _ & _ & _ & _ & Hk & _ & Hv & _).
    cbn [snd]. apply (idsBefore_step w w1 Hw); [lia|now left].
Qed.

Lemma filter_removes_one {A} (key : A -> text) (a : A) (before after : list A) :
  NoDup (map key (before ++ a :: after)) ->
  filter (fun x => negb (eqbText (key x) (key a))) (before ++ a :: after)
  = before ++ after.
Proof.
  intros Hd. rewrite map_app in Hd. cbn [map] in Hd.
  pose proof (NoDup_remove_2 _ _ _ Hd) as Hn.
  assert (Hk : forall l, ~ In (key a) (map key l) ->
            filter (fun x => negb (eqbText (key x) (key a))) l = l).
  { induction l as [|x l IH]; intros Hl; [reflexivity|].
    cbn. destruct (eqbText (key x) (key a)) eqn:E.
    - apply eqbText_eq in E. exfalso. apply Hl. now left.
    - cbn. f_equal. apply IH. intros Hin. apply Hl. now right. }
  rewrite filter_app. cbn [filter].
  assert (E : eqbText (key a) (key a) = true) by now apply eqbText_eq.
  rewrite E. cbn [negb].
  rewrite !Hk; [reflexivity| |]; intros Hin; apply Hn, in_or_app; auto.
Qed.

(** X18.  The identifier of a note is the reading of the clock when it is
    made.  With a clock that does not go back and has changed at the
    second reading after any reading, from notes whose identifiers are
    different readings of the past, whatever the user and the recorder do:
    the identifiers of the notes stay different, and the delete button of
    a note removes this note and no other. *)
Theorem note_ids_stay_distinct (l : list action) (w : World Entry) :
  idsBefore sv w ->
  let w' := snd (acts V sv l w) in
  NoDup (map id (voiceNotes (state w')))
  /\ forall note before after,
       voiceNotes (state w') = before ++ note :: after ->
       voice_notes_delete sv (id note) = Resolve tt ->
       voiceNotes (state (snd (deleteNote sv (id note) w'))) = before ++ after.
Proof.
  intros Hw w'.
  assert (Hw' : idsBefore sv w').
  { subst w'. revert w Hw. induction l as [|a l IH]; intros w Hw; [exact Hw|].
    pose proof (act_idsBefore a w Hw) as Ha.
    cbn [acts]. unfold bind.
    destruct (act V sv a w) as [[[]| |] w1]; cbn [snd] in *; auto. }
  clearbody w'. destruct Hw' as [Hd _]. split; [exact Hd|].
  intros note before after Hv Hdel.
  run_store. rewrite Hdel. cbn -[filter]. rewrite Hv.
  apply filter_removes_one. now rewrite <- Hv.
Qed.

End NoteIds.

Lemma formatDuration_minutes_and_two_digits_witness :
  formatDuration 61999 = Some (str "1:01").
Proof.
  apply (formatDuration_minutes_and_two_digits 1 1 999); lia.
Defined.

Lemma formatDuration_tells_seconds_apart_witness :
  (61000 / 1000 = 61999 / 1000)%Z.
Proof.
  apply (formatDuration_tells_seconds_apart 61000 61999);
    [lia|lia|reflexivity].
Defined.

Lemma note_ids_stay_distinct_witness :
  let sv := withClock (fun n => 1700000000000 + Z.of_nat n * 1000)%Z
              Session.services in
  let l := [Press []; Data (str "abc"); Press (str "de");
            Press []; Data (str "x"); Press (str "y")] in
  let w' := snd (acts App.variant sv l Session.world) in
  NoDup (map id (voiceNotes (state w')))
  /\ forall note before after,
       voiceNotes (state w') = before ++ note :: after ->
       voice_notes_delete sv (id note) = Resolve tt ->
       voiceNotes (state (snd (deleteNote sv (id note) w'))) = before ++ after.
Proof.
  assert (Hclock : steady (fun n => 1700000000000 + Z.of_nat n * 1000)%Z)
    by (split; intros i; lia).
  exact (note_ids_stay_distinct App.variant
           (withClock (fun n => 1700000000000 + Z.of_nat n * 1000)%Z
              Session.services)
           Hclock
           [Press []; Data (str "abc"); Press (str "de");
            Press []; Data (str "x"); Press (str "y")]
           Session.world
           (conj (NoDup_nil _) (fun note (H : False) => match H with end))).
Defined.

(** ** The initial loading *)

Section Loading.

Context {Entry : Type}.
Variable rd : @Reads Entry.

(** X19.  [initializeApp]: it always returns and never shows a toast.
    When the sign-in is rejected the loading screen stays and nothing is
    loaded.  When it resolves the main screen is shown, and each of the
    two lists is the one read when its read resolves and is left as it
    was, without a message to the user, when its read is rejected. *)
Theorem loading_fails_silently (w : World Entry) :
  let '(res, w') := initializeApp rd w in
  res = Ok tt
  /\ (exists new, log w' = log w ++ new /\ existsb isToast new = false)
  /\ user (state w')
     = match auth_me rd with
       | Resolve u => Some u
       | Reject _ => user (state w)
       end
  /\ voiceNotes (state w')
     = match auth_me rd, voice_notes_list rd with
       | Resolve _, Resolve notes => notes
       | _, _ => voiceNotes (state w)
       end
  /\ dictionary (state w')
     = match auth_me rd, dictionary_entries_list rd with
       | Resolve _, Resolve entries => entries
       | _, _ => dictionary (state w)
       end
  /\ isRecording (state w') = isRecording (state w)
  /\ isTranscribing (state w') = isTranscribing (state w)
  /\ currentNote (state w') = currentNote (state w)
  /\ mediaRecorder (state w') = mediaRecorder (state w).
Proof.
  unfold initializeApp, loadVoiceNotes, loadDictionary, setUser,
    setVoiceNotes, setDictionary, settle, tryCatch, modify, emit, throw,
    ret, bind.
  destruct (auth_me rd) as [u|e1], (voice_notes_list rd) as [notes|e2],
    (dictionary_entries_list rd) as [entries|e3]; cbn.
  all: repeat match goal with |- _ /\ _ => split end; try reflexivity.
  all: eexists; split;
    [first [symmetry; apply app_nil_r | rewrite <- ?app_assoc; reflexivity]
    |reflexivity].
Qed.

End Loading.

(** ** A whole run of the pipeline *)

(** A run of [processRecording] in which every service answers. *)
Lemma processRecording_success {Entry} (V : Variant Entry) (sv : Services Entry)
    (d : list Entry) (u : User) (cs : list Blob) (dur : Z)
    (w : World Entry) (dataUrl base64 transcript prompt corrected : text) :
  0 < size (new_Blob cs) ->
  readAsDataURL sv (new_Blob cs) = Resolve dataUrl ->
  nth_error (split ","%char dataUrl) 1 = Some base64 ->
  base64 <> [] ->
  transcribeAudio sv base64 (str "en") = Resolve transcript ->
  composePrompt V d transcript = Ok prompt ->
  generateText sv prompt = Resolve corrected ->
  let note :=
    mkVoiceNote (toString (clock sv (ticks w))) corrected transcript
      (clock sv (S (ticks w))) dur in
  voice_notes_create sv note (user_id u) = Resolve tt ->
  processRecording V sv d (Some u) cs dur w
  = (Ok tt,
     mkWorld
       (mkAppState (isRecording (state w)) false corrected
          (note :: voiceNotes (state w)) (dictionary (state w))
          (newWord (state w)) (newReplacement (state w))
          (mediaRecorder (state w)) (recordingStart (state w))
          (user (state w)))
       (log w
        ++ [ConsoleLog "Audio blob size:" (size (new_Blob cs));
            ConsoleLog "Number of chunks:" (length cs);
            CallReadAsDataURL (new_Blob cs);
            ConsoleLog "Base64 length:" (length base64);
            CallTranscribeAudio base64 (str "en");
            CallGenerateText prompt;
            CallCreateNote note (user_id u);
            ToastSuccess "Transcription completed!"])
       (S (S (ticks w)))).
Proof.
  intros Hpos Hread Hsplit Hne Htrans Hprompt Hgen note Hcreate. subst note.
  unfold processRecording, tryCatch, processRecordingTry,
    toBase64, await, processRecordingCatch, setCurrentNote,
    setVoiceNotes, setIsTranscribing, userId, Date_now, modify, emit,
    lift, throw, ret, bind.
  remember (str "en") as en eqn:Hen.
  destruct cs as [|c cs]; [cbn in Hpos; lia|].
  remember (new_Blob (c :: cs)) as audioBlob eqn:Hblob.
  destruct (size audioBlob =? 0) eqn:Hsize;
    [apply Nat.eqb_eq in Hsize; lia|].
  handler_step. rewrite Hread. handler_step. rewrite Hsplit.
  destruct base64 as [|b0 b]; [contradiction|].
  handler_step. rewrite Htrans. handler_step. rewrite Hprompt.
  handler_step. rewrite Hgen. handler_step. rewrite Hcreate. handler_step.
  rewrite <- !app_assoc. reflexivity.
Qed.

Section WholeRun.

Variable sv : Services DictionaryEntry.

(** X20.  A run of [processRecording] in which every service answers, on a
    dictionary of word keys: the note stored has the answer of the
    transcription as its original text, the answer of the language model
    to the prompt around the transcript with its whole words replaced as
    its text, and the first of two readings of the clock as identifier,
    the second as time stamp; it is put before the other notes and shown
    as the current note. *)
Theorem recording_with_word_keys
    (d : list DictionaryEntry) (u : User) (cs : list Blob) (dur : Z)
    (w : World DictionaryEntry) (dataUrl base64 transcript corrected : text) :
  0 < size (new_Blob cs) ->
  readAsDataURL sv (new_Blob cs) = Resolve dataUrl ->
  nth_error (split ","%char dataUrl) 1 = Some base64 ->
  base64 <> [] ->
  transcribeAudio sv base64 (str "en") = Resolve transcript ->
  wordKeys d = true -> plainReplacements d = true -> chainFree d ->
  generateText sv (App.prompt (replaceWholeWords d transcript))
  = Resolve corrected ->
  let note :=
    mkVoiceNote (toString (clock sv (ticks w))) corrected transcript
      (clock sv (S (ticks w))) dur in
  voice_notes_create sv note (user_id u) = Resolve tt ->
  processRecording App.variant sv d (Some u) cs dur w
  = (Ok tt,
     mkWorld
       (mkAppState (isRecording (state w)) false corrected
          (note :: voiceNotes (state w)) (dictionary (state w))
          (newWord (state w)) (newReplacement (state w))
          (mediaRecorder (state w)) (recordingStart (state w))
          (user (state w)))
       (log w
        ++ [ConsoleLog "Audio blob size:" (size (new_Blob cs));
            ConsoleLog "Number of chunks:" (length cs);
            CallReadAsDataURL (new_Blob cs);
            ConsoleLog "Base64 length:" (length base64);
            CallTranscribeAudio base64 (str "en");
            CallGenerateText (App.prompt (replaceWholeWords d transcript));
            CallCreateNote note (user_id u);
            ToastSuccess "Transcription completed!"])
       (S (S (ticks w)))).
Proof.
  intros Hpos Hread Hsplit Hne Htrans Hk Hp Hc Hgen note Hcreate.
  apply (processRecording_success App.variant sv d u cs dur w dataUrl base64
           transcript (App.prompt (replaceWholeWords d transcript)) corrected);
    try assumption.
  cbn. unfold App.composePrompt.
  now rewrite (applyDictionary_whole_words d Hk Hp Hc).
Qed.

End WholeRun.

Lemma recording_with_word_keys_witness :
  let u := mkUser (str "u1") (str "user@example.com") in
  let note :=
    mkVoiceNote (str "1700000000000") (str "I am going to go.")
      (str "im gonna go") 1700000003000 3000 in
  processRecording App.variant Session.services
    [mkEntry (str "gonna") (str "going to") None] (Some u)
    [str "abc"; str "de"] 3000 Session.world
  = (Ok tt,
     mkWorld
       (mkAppState false false (str "I am going to go.") [note]
          [mkEntry (str "gonna") (str "going to") None] [] [] None 0%Z (Some u))
       [ConsoleLog "Audio blob size:" 5;
        ConsoleLog "Number of chunks:" 2;
        CallReadAsDataURL (str "abcde");
        ConsoleLog "Base64 length:" 12;
        CallTranscribeAudio (str "GkXfo59ChoEB") (str "en");
        CallGenerateText (App.prompt (str "im going to go"));
        CallCreateNote note (str "u1");
        ToastSuccess "Transcription completed!"]
       2).
Proof.
  apply (recording_with_word_keys Session.services
           [mkEntry (str "gonna") (str "going to") None]
           (mkUser (str "u1") (str "user@example.com"))
           [str "abc"; str "de"] 3000 Session.world
           (str "data:audio/webm;base64,GkXfo59ChoEB") (str "GkXfo59ChoEB")
           (str "im gonna go") (str "I am going to go."));
    try reflexivity.
  - cbn. lia.
  - discriminate.
  - cbn. split; [|exact I]. intros w _. reflexivity.
Defined.

(** ** The variant with preferred words *)

(** A dictionary step that always gives a prompt or throws: the run
    returns. *)
Lemma processRecording_returns {Entry} (V : Variant Entry) (sv : Services Entry)
    (d : list Entry) (u : option User) (cs : list Blob) (dur : Z)
    (w : World Entry) :
  (forall transcript, composePrompt V d transcript <> Unmodelled) ->
  fst (processRecording V sv d u cs dur w) = Ok tt.
Proof.
  intros Hd.
  run_pipeline d u cs w; try reflexivity.
  now apply Hd in Hprompt.
Qed.

Section PreferredWords.

Variable sv : Services Preferred.DictionaryEntry.

(** X21.  In the variant with preferred words the dictionary is not applied
    to the transcript: whatever the words are, metacharacters included,
    every run of [processRecording] returns with the transcribing flag
    cleared, and a prompt given to the language model has the transcript
    as it came and the words that are not empty. *)
Theorem preferred_words_cannot_fail_a_recording
    (d : list Preferred.DictionaryEntry) (u : option User) (cs : list Blob)
    (dur : Z) (w : World Preferred.DictionaryEntry) :
  let '(res, w') := processRecording Preferred.variant sv d u cs dur w in
  res = Ok tt
  /\ isTranscribing (state w') = false
  /\ exists new,
       log w' = log w ++ new
       /\ forall prompt, In (CallGenerateText prompt) new ->
            exists audio language transcript,
              In (CallTranscribeAudio audio language) new
              /\ transcribeAudio sv audio language = Resolve transcript
              /\ prompt
                 = Preferred.prompt (Preferred.preferredWords d) transcript.
Proof.
  pose proof (processRecording_returns Preferred.variant sv d u cs dur w) as Hr.
  pose proof (processRecording_effect Preferred.variant sv d u cs dur w) as He.
  destruct (processRecording Preferred.variant sv d u cs dur w) as [res w'].
  cbn [fst] in Hr. rewrite Hr by discriminate.
  destruct He as (_ & [Hu|[_ Ht]] & _ & new & Hl & _ & Hp & _).
  { rewrite Hr in Hu by discriminate. discriminate. }
  split; [reflexivity|]. split; [exact Ht|].
  exists new. split; [exact Hl|].
  intros p Hin.
  destruct (Hp p Hin) as (audio & language & transcript & Hc & Ha & Hcp).
  exists audio, language, transcript. repeat split; try assumption.
  cbn in Hcp. unfold Preferred.composePrompt in Hcp. congruence.
Qed.

End PreferredWords.

(** ** The data URL of the recording *)

Section DataUrl.

Context {Entry : Type}.
Variable sv : Services Entry.

Lemma split_no_separator (sep : ascii) (s : text) :
  existsb (Ascii.eqb sep) s = false -> split sep s = [s].
Proof.
  induction s as [|c s IH]; [reflexivity|].
  cbn. intros H. apply orb_false_iff in H as [Hc H].
  rewrite Ascii.eqb_sym, Hc, (IH H). reflexivity.
Qed.

Lemma split_at_separator (sep : ascii) (head rest : text) :
  existsb (Ascii.eqb sep) head = false ->
  split sep (head ++ sep :: rest) = head :: split sep rest.
Proof.
  induction head as [|c head IH]; intros H.
  - cbn. now rewrite Ascii.eqb_refl.
  - cbn in H. apply orb_false_iff in H as [Hc H].
    cbn. rewrite Ascii.eqb_sym, Hc, (IH H). reflexivity.
Qed.

Lemma split_second (sep : ascii) (head payload rest : text) :
  existsb (Ascii.eqb sep) head = false ->
  existsb (Ascii.eqb sep) payload = false ->
  nth_error (split sep (head ++ sep :: payload)) 1 = Some payload
  /\ nth_error (split sep (head ++ sep :: payload ++ sep :: rest)) 1
     = Some payload.
Proof.
  intros Hh Hp. rewrite !split_at_separator by assumption.
  rewrite split_no_separator by assumption. split; reflexivity.
Qed.

(** X22.  The encoding given to the transcription is what the data URL has
    between its first comma and the next one, or its end; a data URL
    without a comma, or with nothing there, is the failure
    [Failed to convert audio to base64]. *)
Theorem toBase64_takes_what_follows_the_comma
    (audioBlob : Blob) (w : World Entry) (head payload : text) :
  existsb (Ascii.eqb ","%char) head = false ->
  existsb (Ascii.eqb ","%char) payload = false ->
  let logged :=
    mkWorld (state w) (log w ++ [CallReadAsDataURL audioBlob]) (ticks w) in
  let failed := (@Throw text (JsError "Failed to convert audio to base64"), logged) in
  (forall rest,
     readAsDataURL sv audioBlob = Resolve (head ++ ","%char :: payload)
     \/ readAsDataURL sv audioBlob
        = Resolve (head ++ ","%char :: payload ++ ","%char :: rest) ->
     toBase64 sv audioBlob w
     = if eqbText payload [] then failed else (Ok payload, logged))
  /\ (readAsDataURL sv audioBlob = Resolve head ->
      toBase64 sv audioBlob w = failed).
Proof.
  intros Hh Hp logged failed. subst logged failed. split.
  - intros rest Hread.
    destruct (split_second ","%char head payload rest Hh Hp) as [H1 H2].
    unfold toBase64, await, emit, throw, ret, bind.
    destruct Hread as [-> | ->]; cbn -[split nth_error];
      rewrite ?H1, ?H2; now destruct payload.
  - unfold toBase64, await, emit, throw, ret, bind. intros ->.
    cbn -[split nth_error]. now rewrite split_no_separator.
Qed.

End DataUrl.

Lemma toBase64_takes_what_follows_the_comma_witness :
  let logged :=
    mkWorld (state Session.world)
      (log Session.world ++ [CallReadAsDataURL (str "abc")])
      (ticks Session.world) in
  toBase64 Session.services (str "abc") Session.world
  = (Ok (str "GkXfo59ChoEB"), logged).
Proof.
  apply (proj1 (toBase64_takes_what_follows_the_comma Session.services
                  (str "abc") Session.world (str "data:audio/webm;base64")
                  (str "GkXfo59ChoEB") eq_refl eq_refl) []).
  left. reflexivity.
Defined.

(** ** Handlers that overlap *)

Ltac run_segment :=
  unfold underCatch, processRecording_first, processRecording_next,
    addDictionaryEntry_rest, deleteDictionaryEntry_rest, deleteNote_rest,
    processRecordingCatch, settle, tryCatch, setCurrentNote, setVoiceNotes,
    setIsTranscribing, setDictionary, setNewWord, setNewReplacement, userId,
    Date_now, modify, emit, lift, throw, ret, bind;
  cbn -[toString str new_Blob size split nth_error filter].

Section OverlapProperties.

Context {Entry : Type}.
Variable V : Variant Entry.
Variable sv : Services Entry.
Hypothesis Hends :
  forall d originalText, composePrompt V d originalText <> Unmodelled.

Lemma first_part_ends (cs : list Blob) (w : World Entry) :
  partEnds w
    (underCatch (bind (processRecording_first cs) (fun at_ => ret (Some at_))) w).
Proof.
  unfold partEnds. run_segment.
  destruct cs as [|c cs]; cbn -[new_Blob size].
  - split; [reflexivity|]. now right.
  - destruct (size (new_Blob (c :: cs)) =? 0); cbn -[new_Blob size].
    + split; [reflexivity|]. now right.
    + split; [reflexivity|]. left. eexists. split; reflexivity.
Qed.

Lemma next_part_ends (d : list Entry) (u : option User) (dur : Z)
    (at_ : Waiting) (w : World Entry) :
  partEnds w (underCatch (processRecording_next V sv d u dur at_) w).
Proof.
  unfold partEnds. destruct at_ as [blob|base64|t p|note c uid]; run_segment.
  - destruct (readAsDataURL sv blob) as [url|e]; cbn -[split nth_error str].
    + destruct (nth_error (split ","%char url) 1) as [[|b0 b]|];
        cbn -[str]; (split; [reflexivity|]);
        first [now right | left; eexists; split; reflexivity].
    + split; [reflexivity|]. now right.
  - destruct (transcribeAudio sv base64 (str "en")) as [t|e]; cbn.
    + destruct (composePrompt V d t) as [p|e|] eqn:Hp; cbn.
      * split; [reflexivity|]. left. eexists. split; reflexivity.
      * split; [reflexivity|]. now right.
      * now apply Hends in Hp.
    + split; [reflexivity|]. now right.
  - destruct (generateText sv p) as [c|e]; cbn -[toString].
    + destruct u as [u|]; cbn -[toString]; (split; [reflexivity|]);
        first [now right | left; eexists; split; reflexivity].
    + split; [reflexivity|]. now right.
  - destruct (voice_notes_create sv note uid) as [[]|e]; cbn;
      (split; [reflexivity|]); now right.
Qed.

(** The rest of a store handler returns and leaves the flags. *)
Lemma store_rest_ends (c : M Entry unit) (w : World Entry) :
  (exists entry kept, c = addDictionaryEntry_rest V sv entry kept)
  \/ (exists k, c = deleteDictionaryEntry_rest V sv k)
  \/ (exists noteId, c = deleteNote_rest sv noteId) ->
  exists w',
    c w = (Ok tt, w')
    /\ isRecording (state w') = isRecording (state w)
    /\ isTranscribing (state w') = isTranscribing (state w).
Proof.
  intros [(entry & kept & ->)|[(k & ->)|(noteId & ->)]]; run_segment.
  - destruct (dictionary_entries_create sv entry) as [[]|e];
      [destruct (clearsReplacement V)|]; cbn; eexists; repeat split.
  - destruct (dictionary_entries_delete sv k) as [[]|e]; cbn -[filter];
      eexists; repeat split.
  - destruct (voice_notes_delete sv noteId) as [[]|e]; cbn -[filter];
      eexists; repeat split.
Qed.

Lemma count_removed {A} (p : A -> bool) (l : list A) (n : nat) (t : A) :
  nth_error l n = Some t ->
  length (filter p l)
  = length (filter p (firstn n l ++ skipn (S n) l)) + (if p t then 1 else 0).
Proof.
  revert n. induction l as [|a l IH]; intros [|n] H; try discriminate.
  - injection H as ->. cbn. destruct (p t); cbn; lia.
  - cbn in H. cbn [firstn skipn app filter].
    specialize (IH n H). cbn [skipn] in IH.
    destruct (p a); cbn [length]; lia.
Qed.

Lemma in_removed {A} (x : A) (l : list A) (n : nat) :
  In x (firstn n l ++ skipn (S n) l) -> In x l.
Proof.
  intros H. apply in_app_or in H as [H|H].
  - rewrite <- (firstn_skipn n l). apply in_or_app. now left.
  - rewrite <- (firstn_skipn (S n) l). apply in_or_app. now right.
Qed.

Lemma change_length {A} (n : nat) (f : A -> A) (l : list A) :
  length (change n f l) = length l.
Proof.
  revert n. induction l as [|a l IH]; intros [|n]; cbn; auto.
Qed.

Lemma nth_error_change {A} (n m : nat) (f : A -> A) (l : list A) :
  nth_error (change n f l) m
  = if n =? m then option_map f (nth_error l m) else nth_error l m.
Proof.
  revert n m. induction l as [|a l IH]; intros [|n] [|m]; cbn; auto.
  - now destruct (n =? m).
Qed.

Lemma ondataavailable_recording (data : Blob) (r : Recorder Entry) :
  recording (ondataavailable data r) = recording r.
Proof. unfold ondataavailable. now destruct (0 <? size data). Qed.

Lemma dataavailable_recording (data : Blob) (r : Recorder Entry) :
  recording (if recording r then ondataavailable data r else r) = recording r.
Proof.
  destruct (recording r) eqn:E; [|exact E].
  now rewrite ondataavailable_recording.
Qed.

Ltac run_overlap :=
  unfold occur, resume, onMainScreenS, startRecording_call,
    startRecording_rest, stopRecording_call, stopped, dataavailableAt,
    processRecording_part, addDictionaryEntry_call,
    deleteDictionaryEntry_call, deleteNote_call, onMainScreen, screen,
    stryCatch, inWorld, suspend, new_MediaRecorder, setMediaRecorderTo,
    onRecorder, look, sbind, sret, settle, userId, setRecordingStart,
    setIsRecording, setIsTranscribing, setNewWord, setNewReplacement,
    Date_now, get, modify, emit, throw, ret, bind;
  cbn -[underCatch processRecording_first processRecording_next
        addDictionaryEntry_rest deleteDictionaryEntry_rest deleteNote_rest
        change nth_error filter firstn skipn existsb ondataavailable
        setRecorderState].

(** A change to the recorders that leaves their states. *)
Lemma change_keeps_states (f : Recorder Entry -> Recorder Entry)
    (recs : list (Recorder Entry)) (rid : nat) (cur : option nat) :
  (forall r, recording (f r) = recording r) ->
  match match cur with
        | Some c => nth_error (change rid f recs) c
        | None => None
        end with
  | Some r => recording r
  | None => false
  end
  = match match cur with
          | Some c => nth_error recs c
          | None => None
          end with
    | Some r => recording r
    | None => false
    end.
Proof.
  intros Hf. destruct cur as [c|]; [|reflexivity].
  rewrite nth_error_change. destruct (rid =? c); [|reflexivity].
  destruct (nth_error recs c); cbn; auto.
Qed.

(** A handler that goes on keeps the alignment. *)
Lemma resume_aligned (t : Task Entry) (s : Shared Entry) :
  isRecording (state (world s))
  = match referred s with
    | Some r => recording r
    | None => false
    end ->
  length (filter isProcessing (pending s)) + (if isProcessing t then 1 else 0)
  = (if isTranscribing (state (world s)) then 1 else 0) ->
  (forall recorder lastData,
     In (Stopping recorder lastData) (pending s) ->
     recorder < length (recorders s)) ->
  (forall recorder lastData,
     t = Stopping recorder lastData -> recorder < length (recorders s)) ->
  exists s', resume V sv t s = (Ok tt, s') /\ aligned s'.
Proof.
  destruct s as [[st lg tk] recs cur pend].
  destruct st as [ir it cn vn di nw nr mr rs us].
  unfold aligned, referred. cbn [world state recorders current pending
    isRecording isTranscribing].
  intros H1 H3 H4 Ht.
  destruct t as [render|rid lastData|d u dur at_|entry kept|k|noteId].
  - (* Starting *)
    run_overlap. destruct (getUserMedia sv) as [[]|e]; cbn -[change nth_error filter].
    + eexists. split; [reflexivity|]. cbn -[change nth_error filter].
      repeat split.
      * rewrite nth_error_change, Nat.eqb_refl, nth_error_app2, Nat.sub_diag by lia.
        reflexivity.
      * cbn in H3. lia.
      * intros r l Hin. rewrite change_length, length_app. cbn.
        specialize (H4 r l Hin). lia.
    + eexists. split; [reflexivity|]. cbn -[nth_error filter].
      repeat split; [exact H1|cbn in H3; lia|exact H4].
  - (* Stopping *)
    specialize (Ht rid lastData eq_refl).
    run_overlap. rewrite nth_error_change, Nat.eqb_refl.
    destruct (nth_error recs rid) as [r|] eqn:Hr;
      [|apply nth_error_None in Hr; lia].
    cbn -[underCatch processRecording_first change nth_error filter
          ondataavailable].
    match goal with
    | |- context [underCatch ?part ?w] =>
        assert (Hp : partEnds w (underCatch part w))
          by exact (first_part_ends (chunks (ondataavailable lastData r)) w);
        destruct (underCatch part w) as [res w']
    end.
    destruct Hp as [Hir [(a & Hres & Hit)|[Hres Hit]]];
      cbn [fst snd state isRecording isTranscribing] in *; subst res.
    + eexists. split; [reflexivity|]. cbn -[change nth_error filter].
      repeat split.
      * rewrite Hir, H1. symmetry.
        apply (change_keeps_states _ recs rid cur), ondataavailable_recording.
      * rewrite filter_app, length_app, Hit. cbn in *. lia.
      * intros r0 l Hin. rewrite change_length.
        apply in_app_or in Hin as [Hin|[Hin|[]]]; [eauto|discriminate].
    + eexists. split; [reflexivity|]. cbn -[change nth_error filter].
      repeat split.
      * rewrite Hir, H1. symmetry.
        apply (change_keeps_states _ recs rid cur), ondataavailable_recording.
      * rewrite Hit. cbn in H3. destruct it; lia.
      * intros r0 l Hin. rewrite change_length. eauto.
  - (* Processing *)
    run_overlap.
    match goal with
    | |- context [underCatch ?part ?w] =>
        assert (Hp : partEnds w (underCatch part w))
          by exact (next_part_ends d u dur at_ w);
        destruct (underCatch part w) as [res w']
    end.
    destruct Hp as [Hir [(a & Hres & Hit)|[Hres Hit]]];
      cbn [fst snd state isRecording isTranscribing] in *; subst res.
    + eexists. split; [reflexivity|]. cbn -[nth_error filter].
      repeat split.
      * now rewrite Hir.
      * rewrite filter_app, length_app, Hit. cbn in *. lia.
      * intros r0 l Hin.
        apply in_app_or in Hin as [Hin|[Hin|[]]]; [eauto|discriminate].
    + eexists. split; [reflexivity|]. cbn -[nth_error filter].
      repeat split.
      * now rewrite Hir.
      * rewrite Hit. cbn in H3. destruct it; lia.
      * exact H4.
  - run_overlap.
    destruct (store_rest_ends (addDictionaryEntry_rest V sv entry kept)
                (mkWorld (mkAppState ir it cn vn di nw nr mr rs us) lg tk))
      as (w' & -> & Hir & Hit); [left; eauto|].
    eexists. split; [reflexivity|]. cbn [world state recorders current pending isRecording isTranscribing] in *.
    repeat split; [now rewrite Hir|rewrite Hit; cbn in H3; lia|exact H4].
  - run_overlap.
    destruct (store_rest_ends (deleteDictionaryEntry_rest V sv k)
                (mkWorld (mkAppState ir it cn vn di nw nr mr rs us) lg tk))
      as (w' & -> & Hir & Hit); [right; left; eauto|].
    eexists. split; [reflexivity|]. cbn [world state recorders current pending isRecording isTranscribing] in *.
    repeat split; [now rewrite Hir|rewrite Hit; cbn in H3; lia|exact H4].
  - run_overlap.
    destruct (store_rest_ends (deleteNote_rest sv noteId)
                (mkWorld (mkAppState ir it cn vn di nw nr mr rs us) lg tk))
      as (w' & -> & Hir & Hit); [right; right; eauto|].
    eexists. split; [reflexivity|]. cbn [world state recorders current pending isRecording isTranscribing] in *.
    repeat split; [now rewrite Hir|rewrite Hit; cbn in H3; lia|exact H4].
Qed.

(** Whatever occurs, its handler returns and keeps the alignment. *)
Lemma occur_aligned (o : occurrence) (s : Shared Entry) :
  aligned s -> exists s', occur V sv o s = (Ok tt, s') /\ aligned s'.
Proof.
  destruct o as [a|rid data|n].
  - (* the user *)
    destruct s as [[st lg tk] recs cur pend].
    destruct st as [ir it cn vn di nw nr mr rs us].
    unfold aligned, referred. cbn [world state recorders current pending
      isRecording isTranscribing].
    intros (H1 & H3 & H4).
    destruct a as [lastData|data|value|value| |k|noteId]; run_overlap.
    + (* the main button *)
      destruct us as [u|]; cbn -[change nth_error filter];
        [|eexists; split; [reflexivity|]; now repeat split].
      destruct it; cbn -[change nth_error filter];
        [eexists; split; [reflexivity|]; now repeat split|].
      destruct ir; cbn -[change nth_error filter].
      * destruct cur as [c|]; [|discriminate].
        destruct (nth_error recs c) as [r|] eqn:Hr; [|discriminate].
        rewrite <- H1. cbn -[change nth_error filter].
        eexists. split; [reflexivity|]. cbn -[change nth_error filter].
        repeat split.
        -- rewrite nth_error_change, Nat.eqb_refl, Hr. reflexivity.
        -- rewrite filter_app, length_app, H3. reflexivity.
        -- intros r0 l Hin. rewrite change_length.
           apply in_app_or in Hin as [Hin|[Hin|[]]]; [eauto|].
           injection Hin as <- _. apply nth_error_Some. congruence.
      * eexists. split; [reflexivity|]. cbn -[nth_error filter].
        repeat split; [exact H1| |].
        -- rewrite filter_app, length_app, H3. cbn. lia.
        -- intros r0 l Hin.
           apply in_app_or in Hin as [Hin|[Hin|[]]]; [eauto|discriminate].
    + (* data of the recorder of the cell *)
      destruct cur as [c|]; cbn -[change nth_error filter];
        eexists; (split; [reflexivity|]); cbn -[change nth_error filter];
        repeat split; try assumption.
      * rewrite H1. symmetry. apply (change_keeps_states _ recs c (Some c)).
        intros r. apply dataavailable_recording.
      * intros r0 l Hin. rewrite change_length. eauto.
    + destruct us; eexists; (split; [reflexivity|]); now repeat split.
    + destruct us; [destruct (clearsReplacement V)|];
        eexists; (split; [reflexivity|]); now repeat split.
    + (* the add button *)
      destruct us as [u|]; cbn -[nth_error filter];
        [|eexists; split; [reflexivity|]; now repeat split].
      destruct (formFilled V nw nr); cbn -[nth_error filter];
        [|eexists; split; [reflexivity|]; now repeat split].
      destruct (formEntry V nw nr (user_id u)) as [entry kept].
      cbn -[nth_error filter].
      eexists. split; [reflexivity|]. cbn -[nth_error filter].
      repeat split; [exact H1| |].
      * rewrite filter_app, length_app, H3. cbn. lia.
      * intros r0 l Hin.
        apply in_app_or in Hin as [Hin|[Hin|[]]]; [eauto|discriminate].
    + destruct us as [u|]; cbn -[nth_error filter existsb];
        [|eexists; split; [reflexivity|]; now repeat split].
      destruct (existsb _ di); cbn -[nth_error filter];
        [|eexists; split; [reflexivity|]; now repeat split].
      eexists. split; [reflexivity|]. cbn -[nth_error filter].
      repeat split; [exact H1| |].
      * rewrite filter_app, length_app, H3. cbn. lia.
      * intros r0 l Hin.
        apply in_app_or in Hin as [Hin|[Hin|[]]]; [eauto|discriminate].
    + destruct us as [u|]; cbn -[nth_error filter existsb];
        [|eexists; split; [reflexivity|]; now repeat split].
      destruct (existsb _ vn); cbn -[nth_error filter];
        [|eexists; split; [reflexivity|]; now repeat split].
      eexists. split; [reflexivity|]. cbn -[nth_error filter].
      repeat split; [exact H1| |].
      * rewrite filter_app, length_app, H3. cbn. lia.
      * intros r0 l Hin.
        apply in_app_or in Hin as [Hin|[Hin|[]]]; [eauto|discriminate].
  - (* data of any recorder *)
    destruct s as [w recs cur pend]. unfold aligned, referred.
    cbn [world state recorders current pending].
    intros (H1 & H3 & H4). run_overlap.
    eexists. split; [reflexivity|]. cbn -[change nth_error filter].
    repeat split; try assumption.
    + rewrite H1. symmetry. apply (change_keeps_states _ recs rid cur).
      intros r. apply dataavailable_recording.
    + intros r0 l Hin. rewrite change_length. eauto.
  - (* a suspended handler goes on *)
    intros (H1 & H3 & H4).
    unfold occur, look, sbind.
    destruct (nth_error (pending s) n) as [t|] eqn:Hn;
      [|exists s; split; [reflexivity|now repeat split]].
    apply resume_aligned; cbn [world recorders current pending].
    + exact H1.
    + rewrite <- H3. symmetry. now apply count_removed.
    + intros r l Hin. apply in_removed in Hin. eauto.
    + intros r l ->. apply nth_error_In in Hn. eauto.
Qed.

Lemma shown_coherent (s : Shared Entry) : aligned s -> coherent (shown s).
Proof.
  intros (H1 & H3 & H4). split; [|reflexivity]. now repeat split.
Qed.

Lemma occurs_coherent (l : list occurrence) (s : Shared Entry) :
  coherent s ->
  exists s', occurs V sv l s = (Ok tt, s') /\ coherent s'.
Proof.
  revert s. induction l as [|o l IH]; intros s Hs.
  - exists s. now split.
  - destruct (occur_aligned o s (proj1 Hs)) as (s1 & Ho & H1).
    destruct (IH (shown s1) (shown_coherent s1 H1)) as (s' & Hl & H').
    exists s'. split; [|exact H'].
    cbn [occurs]. unfold sbind. now rewrite Ho.
Qed.

End OverlapProperties.

(** The parts of [processRecording], each await settling at once, are
    [processRecording]. *)
Lemma processRecording_in_parts {Entry} (V : Variant Entry) (sv : Services Entry)
    (d : list Entry) (u : option User) (cs : list Blob) (dur : Z)
    (w : World Entry) :
  processRecording V sv d u cs dur w
  = bind (underCatch (bind (processRecording_first cs)
                        (fun at_ => ret (Some at_))))
      (processRecording_through V sv d u dur 4) w.
Proof.
  unfold processRecording_through, underCatch, processRecording_first,
    processRecording_next, settle.
  run_pipeline d u cs w; try reflexivity.
Qed.

(** X11.  The handlers are suspended at their awaits and go on in any
    order, so that what the user does, what the recorders deliver and what
    the services answer overlap: the main button pressed twice before
    [getUserMedia] answers starts two recorders.  From a state in which
    [isRecording] says what the recorder of the cell [mediaRecorder] does
    and [isTranscribing] is set exactly while one recording is processed,
    whatever occurs, in whatever order, and whatever the services answer:
    no handler lets an exception escape, and the component is in such a
    state again.  When nothing is suspended, nothing is being transcribed,
    so the main button is enabled, and it shows what the recorder of the
    cell does. *)
Theorem main_button_follows_the_recorder {Entry} (V : Variant Entry)
    (sv : Services Entry) (beyond : list Entry -> text -> text + exn)
    (l : list occurrence) (s : Shared Entry) :
  coherent s ->
  let '(res, s') := occurs (completed V beyond) sv l s in
  res = Ok tt
  /\ coherent s'
  /\ (pending s' = [] -> settled (state (world s'))).
Proof.
  intros Hs.
  destruct (occurs_coherent (completed V beyond) sv (completed_ends V beyond)
              l s Hs) as (s' & -> & H').
  split; [reflexivity|]. split; [exact H'|].
  intros Hp. destruct H' as [(H1 & H3 & _) Hm].
  rewrite Hp in H3. cbn in H3. unfold settled. rewrite Hm. split.
  - destruct (isTranscribing (state (world s'))); [discriminate|reflexivity].
  - exact H1.
Qed.

Lemma main_button_follows_the_recorder_witness :
  let l :=
    [Does (Press []); Does (Press []); Settles 0; Settles 0;
     DataFrom 0 (str "a"); Does (Data (str "bc")); Does (Press (str "d"));
     Settles 0; Settles 0; Settles 0; Settles 0; Settles 0] in
  let '(res, s') :=
    occurs (completed App.variant (fun _ originalText => inl originalText))
      Session.services l (mkShared Session.world [] None []) in
  res = Ok tt
  /\ coherent s'
  /\ (pending s' = [] -> settled (state (world s'))).
Proof.
  apply (main_button_follows_the_recorder App.variant Session.services
           (fun _ originalText => inl originalText)
           [Does (Press []); Does (Press []); Settles 0; Settles 0;
            DataFrom 0 (str "a"); Does (Data (str "bc")); Does (Press (str "d"));
            Settles 0; Settles 0; Settles 0; Settles 0; Settles 0]
           (mkShared Session.world [] None [])).
  repeat split. intros recorder lastData [].
Defined.
